(** * LLM Tracker: a shallow embedding of the plan limits, migration
    scripts, row-level security, brand-analysis parser, report generation,
    sample trend data, rate limiter and input sanitisation, with the
    properties established about them.

    Conventions of the embedding.
    - JavaScript strings are modelled by [string]; a character is one code
      unit below 256 (the Latin-1 fragment of UTF-16).  On that fragment
      [trim], [toLowerCase], [\s], [\d] and the [/i] flag are modelled
      exactly.
    - JavaScript numbers that are counts or timestamps are modelled by [Z];
      [parseInt] rounds the integer it reads to the nearest double.
      Results of a division are modelled by [jsnum]: an exact rational, an
      infinity or NaN (rounding to the nearest double is not modelled).
    - A [Date] is its time value; what [Date] does in local time depends
      on the time zone, which the world supplies.
    - SQL values that may be NULL are modelled by [option]; a comparison
      with NULL is unknown ([None]) and unknown conditions do not select.
      The migration scripts are run statement by statement on a catalog of
      the types and of the columns of the table of profiles.
    - Effects on the outside world (HTTP calls, database writes, the clock,
      the random generator) are modelled by explicit oracles and by the
      trace of events a handler emits.
    - A function that may throw returns a [completion]: its value, or the
      error thrown. *)

From Stdlib Require Import ZArith QArith Qround String Ascii List Lia.
From Equations Require Import Equations.
From stdpp Require Import gmap strings list.

Set Warnings "-register-all".
Local Open Scope Z_scope.

(* ===================================================================== *)
(** * Part I: the program                                                 *)
(* ===================================================================== *)

(** ** SQL: plan limits and the profile created at signup *)

Module Sql.

(** [a = b] in SQL: unknown as soon as one side is NULL. *)
Definition sql_eq {A} `{EqDecision A} (a b : option A) : option bool :=
  match a, b with
  | Some x, Some y => Some (bool_decide (x = y))
  | _, _ => None
  end.

(** A condition selects (WHEN, WHERE, USING, WITH CHECK) only when it is
    true; false and unknown both reject. *)
Definition is_true (c : option bool) : bool :=
  match c with Some true => true | _ => false end.

(** [CASE WHEN c1 THEN v1 ... ELSE d END]. *)
Fixpoint case_when {A} (branches : list (option bool * A)) (els : A) : A :=
  match branches with
  | [] => els
  | (c, v) :: rest => if is_true c then v else case_when rest els
  end.

(** A jsonb object whose values are integers. *)
Abbreviation jsonb := (gmap string Z).

(** [public.get_plan_limits(plan_type text) RETURNS jsonb]. *)
Definition get_plan_limits (plan_type : option string) : jsonb :=
  case_when
    [ (sql_eq plan_type (Some "trial"),
        list_to_map [("projects", 1); ("keywords", 10); ("reports", 5); ("competitors", 0)]);
      (sql_eq plan_type (Some "basic"),
        list_to_map [("projects", 3); ("keywords", 25); ("reports", 15); ("competitors", 1)]);
      (sql_eq plan_type (Some "gold"),
        list_to_map [("projects", 10); ("keywords", 50); ("reports", 50); ("competitors", -1)]) ]
    ∅.

(** [CREATE TYPE public.app_role AS ENUM ('admin', 'trial', 'basic', 'gold')]. *)
Inductive app_role := admin | trial | basic | gold.

Definition uuid := N.
(** [timestamptz], in microseconds since the epoch. *)
Definition timestamptz := Z.

(** A row of [public.profiles], as CREATE TABLE declares the table. *)
Record profiles := {
  id : uuid;
  email : string;
  full_name : option string;
  company : option string;
  plan : app_role;
  plan_expires_at : option timestamptz;
  projects_limit : Z;
  keywords_limit : Z;
  reports_limit : Z;
  created_at : timestamptz;
  updated_at : timestamptz
}.

(** A row of [auth.users], as far as [handle_new_user] reads it;
    [raw_user_meta_data ->> k] is NULL for an absent key. *)
Record auth_users := {
  au_id : uuid;
  au_email : string;
  raw_user_meta_data : gmap string string
}.

(** [COALESCE(a, b)]. *)
Definition coalesce {A} (a b : option A) : option A :=
  match a with Some _ => a | None => b end.

(** [INSERT INTO public.profiles (id, email, full_name) VALUES (...)] on
    the table as CREATE TABLE declares it: the columns not listed take
    their DEFAULT, with [now()] the time of the transaction. *)
Definition insert_profile_defaults (now : timestamptz)
    (v_id : uuid) (v_email : string) (v_full_name : option string) : profiles :=
  {| id := v_id;
     email := v_email;
     full_name := v_full_name;
     company := None;
     plan := trial;
     plan_expires_at := None;
     projects_limit := 1;
     keywords_limit := 10;
     reports_limit := 5;
     created_at := now;
     updated_at := now |}.

(** The part of the database the signup trigger touches. *)
Record signup_db := {
  users : gmap uuid auth_users;
  profiles_tbl : gmap uuid profiles
}.

(** [public.handle_new_user()]: the row it inserts for [NEW]. *)
Definition handle_new_user (now : timestamptz) (NEW : auth_users) : profiles :=
  insert_profile_defaults now (au_id NEW) (au_email NEW)
    (coalesce (raw_user_meta_data NEW !! "full_name")
              (raw_user_meta_data NEW !! "name")).

(** [INSERT INTO auth.users] followed by the trigger
    [on_auth_user_created AFTER INSERT ... FOR EACH ROW]; a primary-key
    conflict in either table aborts the statement ([None]). *)
Definition insert_auth_user (now : timestamptz) (NEW : auth_users)
    (db : signup_db) : option signup_db :=
  match users db !! au_id NEW with
  | Some _ => None
  | None =>
      match profiles_tbl db !! au_id NEW with
      | Some _ => None
      | None =>
          Some {| users := <[au_id NEW := NEW]> (users db);
                  profiles_tbl :=
                    <[au_id NEW := handle_new_user now NEW]> (profiles_tbl db) |}
      end
  end.

End Sql.

(** ** SQL: row-level security of the tenant tables *)

Module Rls.
Import Sql.

(** Rows of the four tenant tables; each table is keyed by its primary
    key [id], so the row records hold the remaining columns. *)
Record projects := {
  p_user_id : uuid;
  p_name : string;
  p_brand_name : string;
  p_competitors : list string;
  p_description : option string
}.

Record keywords := {
  k_project_id : uuid;
  k_keyword : string;
  k_priority : option Z
}.

Record reports := {
  r_project_id : uuid;
  r_user_id : uuid;
  r_report_type : string;
  r_status : string
}.

Record api_responses := {
  a_report_id : uuid;
  a_provider : string;
  a_keyword : string;
  a_raw_response : string
}.

Record database := {
  projects_tbl : gmap uuid projects;
  keywords_tbl : gmap uuid keywords;
  reports_tbl : gmap uuid reports;
  api_responses_tbl : gmap uuid api_responses
}.

(** A policy expression is evaluated on a candidate row, in a database,
    for the caller [auth.uid()] (NULL when nobody is signed in). *)
Definition expr (row : Type) := database → option uuid → row → option bool.

(** [CREATE POLICY ... FOR cmd USING (...) WITH CHECK (...)]. *)
Inductive policy (row : Type) :=
| ForSelect (using_expr : expr row)
| ForInsert (check_expr : expr row)
| ForUpdate (using_expr : expr row) (check_expr : option (expr row))
| ForDelete (using_expr : expr row).
Arguments ForSelect {row}.
Arguments ForInsert {row}.
Arguments ForUpdate {row}.
Arguments ForDelete {row}.

(** [EXISTS (SELECT 1 FROM public.projects WHERE projects.id = pid
    AND projects.user_id = auth.uid())]. *)
Definition exists_own_project (db : database) (uid : option uuid) (pid : uuid) : option bool :=
  Some (match projects_tbl db !! pid with
        | Some p => is_true (sql_eq (Some (p_user_id p)) uid)
        | None => false
        end).

(** [EXISTS (SELECT 1 FROM public.reports WHERE reports.id = rid
    AND reports.user_id = auth.uid())]. *)
Definition exists_own_report (db : database) (uid : option uuid) (rid : uuid) : option bool :=
  Some (match reports_tbl db !! rid with
        | Some r => is_true (sql_eq (Some (r_user_id r)) uid)
        | None => false
        end).

Definition projects_policies : list (policy projects) :=
  [ (* "Users can view their own projects" *)
    ForSelect (λ _ uid p, sql_eq uid (Some (p_user_id p)));
    (* "Users can create their own projects" *)
    ForInsert (λ _ uid p, sql_eq uid (Some (p_user_id p)));
    (* "Users can update their own projects" *)
    ForUpdate (λ _ uid p, sql_eq uid (Some (p_user_id p))) None;
    (* "Users can delete their own projects" *)
    ForDelete (λ _ uid p, sql_eq uid (Some (p_user_id p))) ].

Definition keywords_policies : list (policy keywords) :=
  [ (* "Users can view keywords in their projects" *)
    ForSelect (λ db uid k, exists_own_project db uid (k_project_id k));
    (* "Users can create keywords in their projects" *)
    ForInsert (λ db uid k, exists_own_project db uid (k_project_id k));
    (* "Users can update keywords in their projects" *)
    ForUpdate (λ db uid k, exists_own_project db uid (k_project_id k)) None;
    (* "Users can delete keywords in their projects" *)
    ForDelete (λ db uid k, exists_own_project db uid (k_project_id k)) ].

Definition reports_policies : list (policy reports) :=
  [ (* "Users can view their own reports" *)
    ForSelect (λ _ uid r, sql_eq uid (Some (r_user_id r)));
    (* "Users can create their own reports" *)
    ForInsert (λ _ uid r, sql_eq uid (Some (r_user_id r)));
    (* "Users can update their own reports" *)
    ForUpdate (λ _ uid r, sql_eq uid (Some (r_user_id r))) None ].

Definition api_responses_policies : list (policy api_responses) :=
  [ (* "Users can view api_responses for their reports" *)
    ForSelect (λ db uid a, exists_own_report db uid (a_report_id a));
    (* "Users can create api_responses for their reports" *)
    ForInsert (λ db uid a, exists_own_report db uid (a_report_id a)) ].

(** What a statement does to one row. *)
Inductive operation (row : Type) :=
| OpSelect (existing : row)
| OpInsert (new : row)
| OpUpdate (existing new : row)
| OpDelete (existing : row).
Arguments OpSelect {row}.
Arguments OpInsert {row}.
Arguments OpUpdate {row}.
Arguments OpDelete {row}.

(** Row-level security is enabled on every table and all policies are
    permissive: a row passes when some policy for the command accepts it,
    and no policy for the command means no row passes.  An UPDATE policy
    without WITH CHECK applies its USING expression to the new row. *)
Section Enforcement.
Context {row : Type} (db : database) (uid : option uuid) (pols : list (policy row)).

Definition select_using (r : row) : bool :=
  existsb (λ p, match p with ForSelect u => is_true (u db uid r) | _ => false end) pols.
Definition insert_check (r : row) : bool :=
  existsb (λ p, match p with ForInsert c => is_true (c db uid r) | _ => false end) pols.
Definition update_using (r : row) : bool :=
  existsb (λ p, match p with ForUpdate u _ => is_true (u db uid r) | _ => false end) pols.
Definition update_check (r : row) : bool :=
  existsb (λ p, match p with
                | ForUpdate u c => is_true (default u c db uid r)
                | _ => false
                end) pols.
Definition delete_using (r : row) : bool :=
  existsb (λ p, match p with ForDelete u => is_true (u db uid r) | _ => false end) pols.

Definition permitted (op : operation row) : bool :=
  match op with
  | OpSelect r => select_using r
  | OpInsert n => insert_check n
  | OpUpdate o n => update_using o && update_check n
  | OpDelete r => delete_using r
  end.
End Enforcement.

(** The rows an operation reads or writes. *)
Definition rows_of {row} (op : operation row) : list row :=
  match op with
  | OpSelect r | OpInsert r | OpDelete r => [r]
  | OpUpdate o n => [o; n]
  end.

(** A statement against one of the four tables. *)
Inductive statement :=
| OnProjects (op : operation projects)
| OnKeywords (op : operation keywords)
| OnReports (op : operation reports)
| OnApiResponses (op : operation api_responses).

Definition rls_permits (db : database) (uid : option uuid) (st : statement) : bool :=
  match st with
  | OnProjects op => permitted db uid projects_policies op
  | OnKeywords op => permitted db uid keywords_policies op
  | OnReports op => permitted db uid reports_policies op
  | OnApiResponses op => permitted db uid api_responses_policies op
  end.

(** The user a row belongs to: its [user_id] (projects, reports), the
    owner of its project (keywords) or of its report (api_responses);
    NULL when the referenced row does not exist. *)
Definition own_project (db : database) (p : projects) : option uuid :=
  Some (p_user_id p).
Definition own_keyword (db : database) (k : keywords) : option uuid :=
  p_user_id <$> projects_tbl db !! k_project_id k.
Definition own_report (db : database) (r : reports) : option uuid :=
  Some (r_user_id r).
Definition own_api_response (db : database) (a : api_responses) : option uuid :=
  r_user_id <$> reports_tbl db !! a_report_id a.

(** The owners of the rows a statement touches. *)
Definition owners (db : database) (st : statement) : list (option uuid) :=
  match st with
  | OnProjects op => own_project db <$> rows_of op
  | OnKeywords op => own_keyword db <$> rows_of op
  | OnReports op => own_report db <$> rows_of op
  | OnApiResponses op => own_api_response db <$> rows_of op
  end.

(** An expression guards ownership when it accepts, for a signed-in
    user, only rows that belong to that user. *)
Definition guards {row} (own : database → row → option uuid) (e : expr row) : Prop :=
  ∀ db u r, is_true (e db (Some u) r) = true → own db r = Some u.

Definition policy_guards {row} (own : database → row → option uuid)
    (p : policy row) : Prop :=
  match p with
  | ForSelect e | ForInsert e | ForDelete e => guards own e
  | ForUpdate e c => guards own e ∧ from_option (guards own) True c
  end.


End Rls.

(** ** Hook [usePlanLimits]: limit checks in the client *)

Module PlanLimitsHook.

(** A JavaScript number produced by a division: an exact rational, an
    infinity, or NaN. *)
Inductive jsnum := Fin (q : Q) | PosInf | NegInf | NaN.

(** [a / b] on integers. *)
Definition js_div (a b : Z) : jsnum :=
  if b =? 0 then
    (if a =? 0 then NaN else if 0 <? a then PosInf else NegInf)
  else Fin (inject_Z a / inject_Z b).

(** [x * c] for a positive finite constant [c]. *)
Definition js_mul_pos (x : jsnum) (c : Q) : jsnum :=
  match x with
  | Fin q => Fin (q * c)
  | other => other
  end.

(** [Math.min(x, c)] for a finite [c]: NaN if an argument is NaN. *)
Definition Math_min (x : jsnum) (c : Q) : jsnum :=
  match x with
  | Fin q => Fin (if Qle_bool q c then q else c)
  | PosInf => Fin c
  | NegInf => NegInf
  | NaN => NaN
  end.

(** [keyof Usage]. *)
Inductive UsageKey := projects | keywords | reports | competitors.

(** [interface PlanLimits]; a field read from a response that lacks it is
    [undefined] ([None]). *)
Record PlanLimits := {
  l_projects : option Z;
  l_keywords : option Z;
  l_reports : option Z;
  l_competitors : option Z;
  isLoading : bool
}.

Record Usage := {
  u_projects : Z;
  u_keywords : Z;
  u_reports : Z;
  u_competitors : Z
}.

(** [limits[type]] and [usage[type]]. *)
Definition limit_of (limits : PlanLimits) (type : UsageKey) : option Z :=
  match type with
  | projects => l_projects limits
  | keywords => l_keywords limits
  | reports => l_reports limits
  | competitors => l_competitors limits
  end.

Definition usage_of (usage : Usage) (type : UsageKey) : Z :=
  match type with
  | projects => u_projects usage
  | keywords => u_keywords usage
  | reports => u_reports usage
  | competitors => u_competitors usage
  end.

(** The initial state of [useState<PlanLimits>]. *)
Definition initial_limits : PlanLimits :=
  {| l_projects := Some 0; l_keywords := Some 0; l_reports := Some 0;
     l_competitors := Some 0; isLoading := true |}.

Definition stop_loading (prev : PlanLimits) : PlanLimits :=
  {| l_projects := l_projects prev; l_keywords := l_keywords prev;
     l_reports := l_reports prev; l_competitors := l_competitors prev;
     isLoading := false |}.

(** [fetchPlanLimits]: [rpc] is the remote call of [get_plan_limits],
    [None] when it reports an error or throws. *)
Definition fetchPlanLimits (profile_plan : option string)
    (rpc : string → option Sql.jsonb) (prev : PlanLimits) : PlanLimits :=
  match profile_plan with
  | None => stop_loading prev
  | Some plan =>
      match rpc plan with
      | None => stop_loading prev
      | Some planLimits =>
          {| l_projects := planLimits !! "projects";
             l_keywords := planLimits !! "keywords";
             l_reports := planLimits !! "reports";
             l_competitors := planLimits !! "competitors";
             isLoading := false |}
      end
  end.

(** [limit !== -1]: [undefined] is not [-1]. *)
Definition strict_neq (limit : option Z) (n : Z) : bool :=
  match limit with Some l => negb (l =? n) | None => true end.

(** [u >= limit]: false against [undefined]. *)
Definition js_ge (u : Z) (limit : option Z) : bool :=
  match limit with Some l => l <=? u | None => false end.

Definition checkLimitReached (limits : PlanLimits) (usage : Usage) (type : UsageKey) : bool :=
  let limit := limit_of limits type in
  strict_neq limit (-1) && js_ge (usage_of usage type) limit.

Definition getUsagePercentage (usage limit : Z) : jsnum :=
  if limit =? -1 then Fin 0
  else Math_min (js_mul_pos (js_div usage limit) 100) 100.

(** A number that is a value of the interval [0, 100]. *)
Definition in_percent_range (x : jsnum) : Prop :=
  match x with
  | Fin q => (0 <= q)%Q ∧ (q <= 100)%Q
  | _ => False
  end.

End PlanLimitsHook.

(** ** JavaScript strings *)

Module Js.

(** The white space of [String.prototype.trim] and of [\s] among the code
    units below 256: TAB, LF, VT, FF, CR, SPACE and NBSP. *)
Definition is_space (c : ascii) : bool :=
  match nat_of_ascii c with
  | 9%nat | 10%nat | 11%nat | 12%nat | 13%nat | 32%nat | 160%nat => true
  | _ => false
  end.

(** [\d]. *)
Definition is_digit (c : ascii) : bool :=
  let n := nat_of_ascii c in (48 <=? n)%nat && (n <=? 57)%nat.

Definition chars (s : string) : list ascii := list_ascii_of_string s.
Definition of_chars (l : list ascii) : string := string_of_list_ascii l.

Fixpoint drop_while (p : ascii → bool) (l : list ascii) : list ascii :=
  match l with
  | [] => []
  | c :: rest => if p c then drop_while p rest else l
  end.

(** [s.trim()]. *)
Definition trim_chars (l : list ascii) : list ascii :=
  rev (drop_while is_space (rev (drop_while is_space l))).

Definition trim (s : string) : string := of_chars (trim_chars (chars s)).

(** [s.replace(/[...]/g, '')] for a character class: every character of
    the class is removed. *)
Definition remove_class (cls : ascii → bool) (s : string) : string :=
  of_chars (List.filter (λ c, negb (cls c)) (chars s)).

(** [s.length]. *)
Definition length (s : string) : nat := String.length s.

(** [s] has an occurrence of the character [c]. *)
Definition has_char (c : ascii) (s : string) : Prop := c ∈ chars s.

(** [toLowerCase] on one code unit below 256: A-Z, and the capital
    letters of Latin-1 (U+00C0 to U+00DE but the multiplication sign). *)
Definition lower_char (c : ascii) : ascii :=
  let n := nat_of_ascii c in
  if ((65 <=? n) && (n <=? 90)
      || (192 <=? n) && (n <=? 222) && negb (n =? 215))%nat
  then ascii_of_nat (n + 32)
  else c.

(** [s.toLowerCase()]. *)
Definition toLowerCase (s : string) : string := of_chars (map lower_char (chars s)).

(** [needle] is a prefix of [l]. *)
Fixpoint starts_with (needle l : list ascii) : bool :=
  match needle, l with
  | [], _ => true
  | n :: needle', c :: l' => bool_decide (n = c) && starts_with needle' l'
  | _ :: _, [] => false
  end.

(** The first position of [needle] in [l], from position [from] on. *)
Fixpoint index_from (needle l : list ascii) (from : nat) : option nat :=
  if starts_with needle l then Some from
  else match l with
       | [] => None
       | _ :: l' => index_from needle l' (S from)
       end.

(** [s.indexOf(needle)]; [None] stands for -1. *)
Definition indexOf (s needle : string) : option nat :=
  index_from (chars needle) (chars s) 0.

(** [s.includes(needle)]. *)
Definition includes (s needle : string) : bool :=
  bool_decide (is_Some (indexOf s needle)).

(** [s.substring(start, end)] for [0 <= start <= end <= s.length]. *)
Definition substring (s : string) (start stop : nat) : string :=
  of_chars (take (stop - start) (drop start (chars s))).

(** The value of a run of decimal digits, most significant first. *)
Definition digit_value (c : ascii) : Z := Z.of_nat (nat_of_ascii c) - 48.
Definition decimal (digits : list ascii) : Z :=
  fold_left (λ acc c, 10 * acc + digit_value c) digits 0.

(** The double nearest to a natural number [n], as an integer: [n] itself
    below [2^53]; above, [n] rounded to 53 significant bits, a tie going
    to the even one.  From [2^1024 - 2^970] on the result is Infinity,
    written here as [2^1024], the least number that rounds to it. *)
Definition nearest_double (n : Z) : Z :=
  if n <? 2 ^ 53 then n
  else
    let ulp := 2 ^ (Z.log2 n - 52) in
    let q := n / ulp in
    let r := n mod ulp in
    let q' :=
      if 2 * r <? ulp then q
      else if ulp <? 2 * r then q + 1
      else if Z.even q then q else q + 1 in
    Z.min (q' * ulp) (2 ^ 1024).

End Js.

(** ** Regular expressions, as [String.prototype.match] runs them *)

Module Regex.
Import Js.

(** The patterns the program uses: classes of one character, sequence,
    alternative, the greedy [*] of a class, the greedy [?], and one
    capturing group. *)
Inductive re :=
| Eps
| Class (p : ascii → bool)
| Seq (a b : re)
| Alt (a b : re)
| Star (p : ascii → bool)
| Opt (a : re)
| Group (a : re).

(** A literal character, and a literal character under the [/i] flag (a
    pattern letter of ASCII matches its two cases and nothing else). *)
Definition chr (c : ascii) : re := Class (λ x, bool_decide (x = c)).
Definition lower_ascii (c : ascii) : ascii :=
  let n := nat_of_ascii c in
  if ((65 <=? n) && (n <=? 90))%nat then ascii_of_nat (n + 32) else c.
Definition chr_i (c : ascii) : re :=
  Class (λ x, bool_decide (lower_ascii x = lower_ascii c)).

(** A literal word under the [/i] flag. *)
Fixpoint word_i (w : list ascii) : re :=
  match w with
  | [] => Eps
  | c :: w' => Seq (chr_i c) (word_i w')
  end.

(** [(?:w1|w2|...)] under the [/i] flag. *)
Fixpoint one_of_i (ws : list (list ascii)) : re :=
  match ws with
  | [] => Class (λ _, false)
  | [w] => word_i w
  | w :: rest => Alt (word_i w) (one_of_i rest)
  end.

(** [p+] for a class. *)
Definition Plus (p : ascii → bool) : re := Seq (Class p) (Star p).
Definition any_char : ascii → bool := λ _, true.

Section Matcher.
Context {R : Type}.

(** Greedy [p*]: take as many characters as the class allows, and give
    them back one by one while the continuation fails. *)
Fixpoint star (p : ascii → bool) (s : list ascii)
    (k : list ascii → option R) : option R :=
  match s with
  | c :: s' =>
      if p c then
        match star p s' k with
        | Some r => Some r
        | None => k s
        end
      else k s
  | [] => k []
  end.

(** Backtracking match of [r] at the start of [s]; the continuation gets
    the rest of the input and the text of the capturing group. *)
Fixpoint run (r : re) (s : list ascii) (cap : option (list ascii))
    (k : list ascii → option (list ascii) → option R) : option R :=
  match r with
  | Eps => k s cap
  | Class p =>
      match s with
      | c :: s' => if p c then k s' cap else None
      | [] => None
      end
  | Seq a b => run a s cap (λ s' cap', run b s' cap' k)
  | Alt a b =>
      match run a s cap k with
      | Some x => Some x
      | None => run b s cap k
      end
  | Star p => star p s (λ s', k s' cap)
  | Opt a =>
      match run a s cap k with
      | Some x => Some x
      | None => k s cap
      end
  | Group a =>
      run a s cap (λ s' _, k s' (Some (take (List.length s - List.length s') s)))
  end.

End Matcher.

(** The match at the start of [s], if any: the matched text and group 1. *)
Definition match_here (r : re) (s : list ascii) : option (list ascii * option (list ascii)) :=
  run r s None (λ s' cap, Some (take (List.length s - List.length s') s, cap)).

(** The leftmost match. *)
Fixpoint search (r : re) (s : list ascii) : option (list ascii * option (list ascii)) :=
  match match_here r s with
  | Some m => Some m
  | None =>
      match s with
      | [] => None
      | _ :: s' => search r s'
      end
  end.

(** [s.match(r)] for a pattern without the [g] flag: [None] is [null],
    otherwise element 0 (the matched text) and element 1 (the group). *)
Definition str_match (r : re) (s : string) : option (string * option string) :=
  match search r (chars s) with
  | Some (m0, m1) => Some (of_chars m0, of_chars <$> m1)
  | None => None
  end.

End Regex.


(** ** JavaScript values and [JSON.parse] *)

Module Json.
Import Js.

(** A string value: its UTF-16 code units. *)
Definition jsstring := list N.

(** The code units of a string of the modelled fragment. *)
Definition units (s : string) : jsstring := map N_of_ascii (chars s).

(** The values [JSON.parse] can build, [undefined] and NaN.  [JNum m e] is the
    number nearest to [m * 10^e]; the fields of an object are in source
    order, a later field of the same name overriding an earlier one. *)
Inductive JsValue :=
| JUndefined
| JNull
| JBool (b : bool)
| JNaN
| JNum (m e : Z)
| JStr (s : jsstring)
| JArr (items : list JsValue)
| JObj (fields : list (jsstring * JsValue)).

(** *** Lexical analysis *)

Inductive token :=
| TLBrace | TRBrace | TLBracket | TRBracket | TColon | TComma
| TString (s : jsstring)
| TNumber (m e : Z)
| TTrue | TFalse | TNull.

(** JSON white space: space, TAB, LF, CR. *)
Definition is_ws (c : ascii) : bool :=
  match nat_of_ascii c with
  | 32%nat | 9%nat | 10%nat | 13%nat => true
  | _ => false
  end.

Definition hex_value (c : ascii) : option N :=
  let n := N_of_ascii c in
  if ((48 <=? n) && (n <=? 57))%N then Some (n - 48)%N
  else if ((97 <=? n) && (n <=? 102))%N then Some (n - 87)%N
  else if ((65 <=? n) && (n <=? 70))%N then Some (n - 55)%N
  else None.

Fixpoint span (p : ascii → bool) (l : list ascii) : list ascii * list ascii :=
  match l with
  | c :: rest =>
      if p c then let '(a, b) := span p rest in (c :: a, b) else ([], l)
  | [] => ([], [])
  end.

(** A number lexeme: an optional minus sign, an integer part without a
    superfluous leading zero, an optional fraction and an optional
    exponent; the result is its mantissa and decimal exponent. *)
Definition number_of_lexeme (lexeme : list ascii) : option token :=
  let '(neg, r) :=
    match lexeme with
    | "-"%char :: r => (true, r)
    | _ => (false, lexeme)
    end in
  let '(int_digits, r1) := span is_digit r in
  let int_ok :=
    match int_digits with
    | [] => false
    | ["0"%char] => true
    | "0"%char :: _ => false
    | _ => true
    end in
  let '(frac_ok, frac_digits, r2) :=
    match r1 with
    | "."%char :: r' =>
        let '(fs, r'') := span is_digit r' in
        (negb (bool_decide (fs = [])), fs, r'')
    | _ => (true, [], r1)
    end in
  let '(exp_ok, exponent) :=
    match r2 with
    | [] => (true, 0)
    | c :: r' =>
        if bool_decide (c = "e"%char) || bool_decide (c = "E"%char) then
          let '(eneg, r'') :=
            match r' with
            | "-"%char :: x => (true, x)
            | "+"%char :: x => (false, x)
            | _ => (false, r')
            end in
          let '(es, rest) := span is_digit r'' in
          (negb (bool_decide (es = [])) && bool_decide (rest = []),
           if eneg then - decimal es else decimal es)
        else (false, 0)
    end in
  if int_ok && frac_ok && exp_ok then
    let mantissa := decimal (int_digits ++ frac_digits) in
    Some (TNumber (if neg then - mantissa else mantissa)
                  (exponent - Z.of_nat (List.length frac_digits)))
  else None.

Definition word_token (lexeme : list ascii) : option token :=
  if bool_decide (lexeme = chars "true") then Some TTrue
  else if bool_decide (lexeme = chars "false") then Some TFalse
  else if bool_decide (lexeme = chars "null") then Some TNull
  else None.

(** The lexer reads one character at a time; the accumulators are kept
    in reverse. *)
Inductive lex_state :=
| LDefault
| LString (acc : jsstring)
| LEscape (acc : jsstring)
| LUnicode (acc : jsstring) (hex : list N)
| LNumber (lexeme : list ascii)
| LWord (lexeme : list ascii).

Definition in_number (c : ascii) : bool :=
  is_digit c || bool_decide (c = "."%char) || bool_decide (c = "e"%char)
  || bool_decide (c = "E"%char) || bool_decide (c = "+"%char)
  || bool_decide (c = "-"%char).

Definition in_word (c : ascii) : bool :=
  let n := nat_of_ascii c in (97 <=? n)%nat && (n <=? 122)%nat.

(** A character met outside a string, a number and a word. *)
Definition lex_default (c : ascii) (out : list token) : option (lex_state * list token) :=
  if is_ws c then Some (LDefault, out)
  else if bool_decide (c = "{"%char) then Some (LDefault, TLBrace :: out)
  else if bool_decide (c = "}"%char) then Some (LDefault, TRBrace :: out)
  else if bool_decide (c = "["%char) then Some (LDefault, TLBracket :: out)
  else if bool_decide (c = "]"%char) then Some (LDefault, TRBracket :: out)
  else if bool_decide (c = ":"%char) then Some (LDefault, TColon :: out)
  else if bool_decide (c = ","%char) then Some (LDefault, TComma :: out)
  else if bool_decide (c = "034"%char) then Some (LString [], out)
  else if is_digit c || bool_decide (c = "-"%char) then Some (LNumber [c], out)
  else if in_word c then Some (LWord [c], out)
  else None.

Definition escape_unit (c : ascii) : option N :=
  if bool_decide (c = "034"%char) then Some 34%N
  else if bool_decide (c = "\"%char) then Some 92%N
  else if bool_decide (c = "/"%char) then Some 47%N
  else if bool_decide (c = "b"%char) then Some 8%N
  else if bool_decide (c = "f"%char) then Some 12%N
  else if bool_decide (c = "n"%char) then Some 10%N
  else if bool_decide (c = "r"%char) then Some 13%N
  else if bool_decide (c = "t"%char) then Some 9%N
  else None.

Definition lex_step (st : lex_state) (out : list token) (c : ascii)
    : option (lex_state * list token) :=
  match st with
  | LDefault => lex_default c out
  | LString acc =>
      if bool_decide (c = "034"%char) then Some (LDefault, TString (rev acc) :: out)
      else if bool_decide (c = "\"%char) then Some (LEscape acc, out)
      else if (N_of_ascii c <? 32)%N then None
      else Some (LString (N_of_ascii c :: acc), out)
  | LEscape acc =>
      if bool_decide (c = "u"%char) then Some (LUnicode acc [], out)
      else match escape_unit c with
           | Some u => Some (LString (u :: acc), out)
           | None => None
           end
  | LUnicode acc hex =>
      match hex_value c with
      | Some d =>
          match hex with
          | [d2; d1; d0] =>
              Some (LString ((((d0 * 16 + d1) * 16 + d2) * 16 + d)%N :: acc), out)
          | _ => Some (LUnicode acc (d :: hex), out)
          end
      | None => None
      end
  | LNumber lexeme =>
      if in_number c then Some (LNumber (c :: lexeme), out)
      else match number_of_lexeme (rev lexeme) with
           | Some t => lex_default c (t :: out)
           | None => None
           end
  | LWord lexeme =>
      if in_word c then Some (LWord (c :: lexeme), out)
      else match word_token (rev lexeme) with
           | Some t => lex_default c (t :: out)
           | None => None
           end
  end.

Fixpoint lex (st : lex_state) (out : list token) (input : list ascii)
    : option (list token) :=
  match input with
  | c :: rest =>
      match lex_step st out c with
      | Some (st', out') => lex st' out' rest
      | None => None
      end
  | [] =>
      match st with
      | LDefault => Some (rev out)
      | LNumber lexeme => (λ t, rev (t :: out)) <$> number_of_lexeme (rev lexeme)
      | LWord lexeme => (λ t, rev (t :: out)) <$> word_token (rev lexeme)
      | _ => None
      end
  end.

(** *** Syntax analysis: a pushdown automaton over the tokens *)

(** An array or an object being read; the object remembers the key whose
    value is awaited. *)
Inductive frame :=
| InArray (items : list JsValue)
| InObject (fields : list (jsstring * JsValue)) (key : option jsstring).

Inductive mode :=
| WantValue       (* at the start, after [,] in an array, after [:] *)
| WantValueOrEnd  (* right after [[] *)
| WantKeyOrEnd    (* right after [{] *)
| WantKey         (* after [,] in an object *)
| WantColon       (* after a key *)
| AfterValue      (* after a value inside an array or an object *)
| Done (v : JsValue).

(** A complete value goes to the enclosing array or object, or is the
    result. *)
Definition deliver (v : JsValue) (stack : list frame) : option (list frame * mode) :=
  match stack with
  | [] => Some ([], Done v)
  | InArray items :: up => Some (InArray (v :: items) :: up, AfterValue)
  | InObject fields (Some k) :: up =>
      Some (InObject ((k, v) :: fields) None :: up, AfterValue)
  | InObject _ None :: _ => None
  end.

Definition wants_value (m : mode) : bool :=
  match m with WantValue | WantValueOrEnd => true | _ => false end.

Definition parse_step (stack : list frame) (m : mode) (t : token)
    : option (list frame * mode) :=
  match t with
  | TNull => if wants_value m then deliver JNull stack else None
  | TTrue => if wants_value m then deliver (JBool true) stack else None
  | TFalse => if wants_value m then deliver (JBool false) stack else None
  | TNumber n e => if wants_value m then deliver (JNum n e) stack else None
  | TString s =>
      match m, stack with
      | (WantValue | WantValueOrEnd), _ => deliver (JStr s) stack
      | (WantKeyOrEnd | WantKey), InObject fields None :: up =>
          Some (InObject fields (Some s) :: up, WantColon)
      | _, _ => None
      end
  | TLBracket =>
      if wants_value m then Some (InArray [] :: stack, WantValueOrEnd) else None
  | TLBrace =>
      if wants_value m then Some (InObject [] None :: stack, WantKeyOrEnd) else None
  | TRBracket =>
      match m, stack with
      | (WantValueOrEnd | AfterValue), InArray items :: up =>
          deliver (JArr (rev items)) up
      | _, _ => None
      end
  | TRBrace =>
      match m, stack with
      | (WantKeyOrEnd | AfterValue), InObject fields None :: up =>
          deliver (JObj (rev fields)) up
      | _, _ => None
      end
  | TColon =>
      match m with WantColon => Some (stack, WantValue) | _ => None end
  | TComma =>
      match m, stack with
      | AfterValue, InArray _ :: _ => Some (stack, WantValue)
      | AfterValue, InObject _ None :: _ => Some (stack, WantKey)
      | _, _ => None
      end
  end.

Fixpoint parse_tokens (stack : list frame) (m : mode) (ts : list token)
    : option JsValue :=
  match ts with
  | t :: rest =>
      match parse_step stack m t with
      | Some (stack', m') => parse_tokens stack' m' rest
      | None => None
      end
  | [] =>
      match m, stack with
      | Done v, [] => Some v
      | _, _ => None
      end
  end.

(** The outermost value being read is an object: the bottom of the stack
    is an object, or the result is one. *)
Definition rooted (stack : list frame) (m : mode) : Prop :=
  (∃ up fields key, stack = up ++ [InObject fields key])
  ∨ (stack = [] ∧ ∃ fields, m = Done (JObj fields)).

(** [JSON.parse(text)]; [None] when it throws a SyntaxError. *)
Definition parse (text : string) : option JsValue :=
  match lex LDefault [] (chars text) with
  | Some ts => parse_tokens [] WantValue ts
  | None => None
  end.

(** *** Reading values *)

Inductive js_error :=
| TypeError
| SyntaxError
| Error (message : string).

(** The outcome of evaluating an expression or calling a function. *)
Inductive completion (A : Type) :=
| Normal (a : A)
| Throw (e : js_error).
Arguments Normal {A}.
Arguments Throw {A}.

Definition bind {A B} (c : completion A) (f : A → completion B) : completion B :=
  match c with
  | Normal a => f a
  | Throw e => Throw e
  end.

(** The own property [k] of an object: the last field of that name. *)
Fixpoint field (k : jsstring) (fields : list (jsstring * JsValue)) : JsValue :=
  match fields with
  | [] => JUndefined
  | (k', v) :: rest =>
      match field k rest with
      | JUndefined => if bool_decide (k' = k) then v else JUndefined
      | later => later
      end
  end.

(** [v.k] for one of the names the parser reads ([targetBrand],
    [mentioned], [position], [context], [confidence], [competitors],
    [name]): a TypeError on [null] and [undefined], the field of an object,
    and [undefined] on the other values, whose prototypes have none of
    these names. *)
Definition get (v : JsValue) (k : string) : completion JsValue :=
  match v with
  | JUndefined | JNull => Throw TypeError
  | JObj fields => Normal (field (units k) fields)
  | _ => Normal JUndefined
  end.

(** [v?.k]. *)
Definition get_opt (v : JsValue) (k : string) : completion JsValue :=
  match v with
  | JUndefined | JNull => Normal JUndefined
  | _ => get v k
  end.

(** [a ?? b]. *)
Definition nullish (a b : JsValue) : JsValue :=
  match a with
  | JUndefined | JNull => b
  | _ => a
  end.

(** The number nearest to [m * 10^e] is zero: [m] is, or the magnitude is
    at most half the least positive double, [2^-1075]. *)
Definition rounds_to_zero (m e : Z) : bool :=
  (m =? 0) || ((e <? 0) && (Z.abs m * 2 ^ 1075 <=? 10 ^ (- e))).

(** [ToBoolean]. *)
Definition truthy (v : JsValue) : bool :=
  match v with
  | JUndefined | JNull => false
  | JBool b => b
  | JNaN => false
  | JNum m e => negb (rounds_to_zero m e)
  | JStr s => negb (bool_decide (s = []))
  | JArr _ | JObj _ => true
  end.

(** [a || b]. *)
Definition or_else (a b : JsValue) : JsValue := if truthy a then a else b.

(** [Array.isArray(v)] and the elements of an array. *)
Definition isArray (v : JsValue) : bool :=
  match v with JArr _ => true | _ => false end.
Definition items_of (v : JsValue) : list JsValue :=
  match v with JArr items => items | _ => [] end.

End Json.

(** ** lib/openai.ts: the brand analysis *)

Module OpenAI.
Import Js Json Regex.

Record CompetitorMention := {
  name : JsValue;
  mentioned : JsValue;
  cm_position : JsValue;
  cm_context : JsValue
}.

(** [Omit<BrandAnalysisResult, 'rawResponse'>].  The fields copied from the
    parsed JSON hold whatever value the response gave them. *)
Record BrandAnalysis := {
  keyword : string;
  brandMentioned : JsValue;
  position : JsValue;
  confidence : JsValue;
  context : JsValue;
  competitors : list CompetitorMention
}.

(** [BrandAnalysisResult]: [{...analysisResult, rawResponse: content}]. *)
Record BrandAnalysisResult := {
  analysis : BrandAnalysis;
  rawResponse : string
}.

(** [parseInt(m, 10)] where [m] is the text of a group [(\d+)], or
    [undefined]: the integer the digits write, rounded to a double. *)
Definition parseInt (m : option string) : JsValue :=
  match chars <$> m with
  | Some (d :: ds) => JNum (nearest_double (decimal (d :: ds))) 0
  | _ => JNaN
  end.

(** [/\{[\s\S]*\}/]. *)
Definition jsonRegex : re :=
  Seq (chr "{") (Seq (Star any_char) (chr "}")).

Definition position_words : list (list ascii) :=
  [chars "position"; chars "rank"; chars "#"; chars "number"].

(** [/(?:position|rank|#|number)\s*:?\s*(\d+)/i]. *)
Definition positionRegex : re :=
  Seq (one_of_i position_words)
    (Seq (Star is_space)
      (Seq (Opt (chr ":"))
        (Seq (Star is_space)
          (Group (Plus is_digit))))).

Definition colon_or_space (c : ascii) : bool :=
  bool_decide (c = ":"%char) || is_space c.

(** [/confidence[:\s]*(\d+)/i]. *)
Definition confidenceRegex : re :=
  Seq (word_i (chars "confidence"))
    (Seq (Star colon_or_space)
      (Group (Plus is_digit))).

Definition extractPosition (content : string) : JsValue :=
  match str_match positionRegex content with
  | Some (_, m1) => parseInt m1
  | None => JNull
  end.

Definition extractConfidence (content : string) : JsValue :=
  match str_match confidenceRegex content with
  | Some (_, m1) => parseInt m1
  | None => JNum 50 0
  end.

Definition extractContext (content brandName : string) : string :=
  let lowerContent := toLowerCase content in
  let lowerBrandName := toLowerCase brandName in
  match indexOf lowerContent lowerBrandName with
  | None => ""
  | Some brandIndex =>
      let start := Nat.max 0 (brandIndex - 100) in
      let stop := Nat.min (Js.length content) (brandIndex + 200) in
      trim (substring content start stop)
  end.

(** [parsedData] after the [try] block: [{}] unless a block in braces is
    found and parses; a SyntaxError is caught. *)
Definition parsedData_of (content : string) : JsValue :=
  match str_match jsonRegex content with
  | Some (jsonMatch0, _) =>
      match parse jsonMatch0 with
      | Some v => v
      | None => JObj []
      end
  | None => JObj []
  end.

(** [null] or [undefined]. *)
Definition is_nullish (v : JsValue) : Prop := v = JNull ∨ v = JUndefined.

(** [array.map(f)] where [f] may throw. *)
Fixpoint map_completion {A B} (f : A → completion B) (l : list A) : completion (list B) :=
  match l with
  | [] => Normal []
  | x :: rest =>
      bind (f x) (λ y, bind (map_completion f rest) (λ ys, Normal (y :: ys)))
  end.

(** The callback of [parsedData.competitors.map]. *)
Definition competitor_mention (comp : JsValue) : completion CompetitorMention :=
  bind (get comp "name") (λ v_name,
  bind (get comp "mentioned") (λ v_mentioned,
  bind (get comp "position") (λ v_position,
  bind (get comp "context") (λ v_context,
  Normal {| name := v_name;
            mentioned := v_mentioned;
            cm_position := v_position;
            cm_context := or_else v_context (JStr []) |})))).

Definition parseBrandAnalysis (content keyword brandName : string)
    : completion BrandAnalysis :=
  let parsedData := parsedData_of content in
  bind (get parsedData "targetBrand") (λ targetBrand,
  bind (get_opt targetBrand "mentioned") (λ tb_mentioned,
  let brandMentioned :=
    nullish tb_mentioned
      (JBool (includes (toLowerCase content) (toLowerCase brandName))) in
  bind (get_opt targetBrand "position") (λ tb_position,
  let position := nullish tb_position (extractPosition content) in
  bind (get parsedData "confidence") (λ pd_confidence,
  let confidence := nullish pd_confidence (extractConfidence content) in
  bind (get_opt targetBrand "context") (λ tb_context,
  let context :=
    nullish tb_context (JStr (units (extractContext content brandName))) in
  bind (get parsedData "competitors") (λ pd_competitors,
  bind (if truthy pd_competitors && isArray pd_competitors
        then map_completion competitor_mention (items_of pd_competitors)
        else Normal []) (λ competitors,
  Normal {| keyword := keyword;
            brandMentioned := brandMentioned;
            position := position;
            confidence := confidence;
            context := context;
            competitors := competitors |}))))))).

(** What the request to the completions endpoint depends on. *)
Record Request := {
  req_keyword : string;
  req_brandName : string;
  req_competitorsList : string;
  req_apiKey : string
}.

(** [competitors.join(', ')]. *)
Fixpoint join (sep : string) (l : list string) : string :=
  match l with
  | [] => ""
  | [x] => x
  | x :: rest => x +:+ sep +:+ join sep rest
  end.

Definition build_request (keyword brandName : string) (competitors : list string)
    (apiKey : string) : Request :=
  {| req_keyword := keyword;
     req_brandName := brandName;
     req_competitorsList :=
       if (0 <? List.length competitors)%nat then join ", " competitors
       else "none specified";
     req_apiKey := apiKey |}.

(** What comes back from [fetch] and [response.json()]: a failure of the
    network, a status that is not ok, a body that cannot be read as the
    expected JSON, or the text [data.choices[0]?.message?.content]
    ([None] when it is absent). *)
Inductive FetchOutcome :=
| NetworkError
| HttpError (status : Z) (statusText : string)
| BodyError
| Completion (content : option string).

Definition failed : js_error := Error "Failed to analyze brand mention".

(** [analyzeBrandMention], given the outcome of its request. *)
Definition analyzeBrandMention (outcome : FetchOutcome)
    (keyword brandName : string) : completion BrandAnalysisResult :=
  match outcome with
  | Completion c =>
      let content := match c with Some (String a r) => String a r | _ => "" end in
      match parseBrandAnalysis content keyword brandName with
      | Normal analysisResult =>
          Normal {| analysis := analysisResult; rawResponse := content |}
      | Throw _ => Throw failed
      end
  | _ => Throw failed
  end.

End OpenAI.

(** ** The spec's reading of the text fallback *)

Module TextFallback.
Import Js.













End TextFallback.

(** ** pages/ProjectDetails.tsx: report generation *)

Module ProjectDetails.
Import Json.

Record Project := {
  id : string;
  name : string;
  description : option string;
  brand_name : string;
  p_competitors : option (list string);
  user_id : string
}.

Record Keyword := {
  k_id : string;
  keyword : string;
  project_id : string
}.

(** The state of the component that [handleGenerateReport] reads and
    sets. *)
Record State := {
  project : option Project;
  keywords : list Keyword;
  brandName : string;
  competitors : list string;
  openaiApiKey : string;
  isGeneratingReport : bool;
  brandTrackingResults : list OpenAI.BrandAnalysisResult
}.

(** The answers of the services behind the handler: the insert of the
    report row ([None] when it reports an error), the completion request
    of the [n]-th keyword, whether the awaited insert of the [n]-th
    api_responses row settles without rejecting, and whether the final
    update does. *)
Record Backend := {
  insert_report : string → string → option string;
  openai : nat → OpenAI.Request → OpenAI.FetchOutcome;
  insert_api_response : nat → bool;
  update_report : bool
}.

(** What the handler does to the outside, in order. *)
Inductive Event :=
| Toast (title : string)
| InsertReport (project_id user_id : string)
| CallAnalyze (keyword brandName : string) (competitors : list string) (apiKey : string)
| SetResults (results : list OpenAI.BrandAnalysisResult)
| InsertApiResponse (report_id keyword : string) (result : OpenAI.BrandAnalysisResult)
| UpdateReport (report_id : string) (totalKeywords : nat)
    (results : list OpenAI.BrandAnalysisResult).

(** [analyzeBrandMention(keyword.keyword, brandName, competitors, openaiApiKey)]
    for the [n]-th keyword. *)
Definition analyze (b : Backend) (st : State) (n : nat) (kw : Keyword)
    : completion OpenAI.BrandAnalysisResult :=
  OpenAI.analyzeBrandMention
    (openai b n (OpenAI.build_request (keyword kw) (brandName st) (competitors st)
                   (openaiApiKey st)))
    (keyword kw) (brandName st).

(** [for (const keyword of keywords) { try { ... } catch { toast } }]:
    the results pushed so far are threaded through; the answer is the
    final list and the events of the loop. *)
Fixpoint analyze_each (b : Backend) (st : State) (report_id : string) (n : nat)
    (kws : list Keyword) (results : list OpenAI.BrandAnalysisResult)
    : list OpenAI.BrandAnalysisResult * list Event :=
  match kws with
  | [] => (results, [])
  | kw :: rest =>
      let call :=
        CallAnalyze (keyword kw) (brandName st) (competitors st) (openaiApiKey st) in
      match analyze b st n kw with
      | Normal result =>
          let results := results ++ [result] in
          let stored :=
            [SetResults results; InsertApiResponse report_id (keyword kw) result] in
          let caught :=
            if insert_api_response b n then [] else [Toast "Analysis Error"] in
          let '(final, later) := analyze_each b st report_id (S n) rest results in
          (final, call :: stored ++ caught ++ later)
      | Throw _ =>
          let '(final, later) := analyze_each b st report_id (S n) rest results in
          (final, call :: Toast "Analysis Error" :: later)
      end
  end.

Definition set_results (st : State) (generating : bool)
    (results : list OpenAI.BrandAnalysisResult) : State :=
  {| project := project st; keywords := keywords st; brandName := brandName st;
     competitors := competitors st; openaiApiKey := openaiApiKey st;
     isGeneratingReport := generating; brandTrackingResults := results |}.

Definition handleGenerateReport (b : Backend) (st : State) : State * list Event :=
  match project st with
  | None => (st, [])
  | Some project =>
      if bool_decide (keywords st = []) then (st, [])
      else if bool_decide (Js.trim (openaiApiKey st) = "")
      then (st, [Toast "API Key Required"])
      else
        let inserted := InsertReport (id project) (user_id project) in
        match insert_report b (id project) (user_id project) with
        | None =>
            (set_results st false [], [SetResults []; inserted; Toast "Error"])
        | Some report_id =>
            let '(results, events) :=
              analyze_each b st report_id 0 (keywords st) [] in
            let updated := UpdateReport report_id (List.length (keywords st)) results in
            (set_results st false results,
             SetResults [] :: inserted :: events
               ++ [updated; Toast (if update_report b then "Report Generated" else "Error")])
        end
  end.

(** The calls of [analyzeBrandMention] in a trace, by keyword. *)
Definition analyze_calls (trace : list Event) : list string :=
  omap (λ e, match e with CallAnalyze k _ _ _ => Some k | _ => None end) trace.

(** The rows sent to [api_responses] in a trace. *)
Definition api_response_rows (trace : list Event)
    : list (string * string * OpenAI.BrandAnalysisResult) :=
  omap (λ e, match e with
             | InsertApiResponse r k result => Some (r, k, result)
             | _ => None
             end) trace.

(** The results of the calls that return, in the order of the keywords. *)
Fixpoint successes (b : Backend) (st : State) (n : nat) (kws : list Keyword)
    : list (Keyword * OpenAI.BrandAnalysisResult) :=
  match kws with
  | [] => []
  | kw :: rest =>
      match analyze b st n kw with
      | Normal result => (kw, result) :: successes b st (S n) rest
      | Throw _ => successes b st (S n) rest
      end
  end.

End ProjectDetails.

(** ** lib/validation.ts: sanitisation and the rate limiter *)

Module Validation.

(** The class [[<>]]. *)
Definition angle_bracket (c : ascii) : bool :=
  bool_decide (c = "<"%char) || bool_decide (c = ">"%char).

Definition sanitizeInput (input : string) : string :=
  Js.remove_class angle_bracket (Js.trim input).

Definition sanitizeArray (array : list string) : list string :=
  List.filter (λ item, (0 <? Js.length item)%nat) (map (λ item, sanitizeInput item) array).

(** [createRateLimiter(maxRequests, windowMs)(key)]: the private
    [Map<string, number[]>] of the limiter is threaded explicitly and [now]
    is the reading of [Date.now()] at the call. *)
Section RateLimiter.
Context (maxRequests windowMs : Z).

Definition createRateLimiter (requests : gmap string (list Z)) (key : string) (now : Z)
    : bool * gmap string (list Z) :=
  let windowStart := now - windowMs in
  let requests :=
    match requests !! key with
    | None => <[key := []]> requests
    | Some _ => requests
    end in
  let userRequests := default [] (requests !! key) in
  let recentRequests := List.filter (λ time, windowStart <? time) userRequests in
  if maxRequests <=? Z.of_nat (List.length recentRequests) then (false, requests)
  else (true, <[key := recentRequests ++ [now]]> requests).

(** A sequence of calls [(key, now)], in the order they are made; the
    answers and the final map. *)
Fixpoint run (requests : gmap string (list Z)) (calls : list (string * Z))
    : list bool * gmap string (list Z) :=
  match calls with
  | [] => ([], requests)
  | (key, now) :: rest =>
      let '(ok, requests') := createRateLimiter requests key now in
      let '(oks, final) := run requests' rest in
      (ok :: oks, final)
  end.

(** Each call of a sequence paired with its answer, for a fresh limiter. *)
Definition answered (calls : list (string * Z)) : list (string * Z * bool) :=
  zip calls (run ∅ calls).1.

(** The number of calls for [key] that returned true with a time stamp
    accepted by [inside]. *)
Definition count_true (key : string) (inside : Z → bool)
    (log : list (string * Z * bool)) : Z :=
  Z.of_nat (List.length
    (List.filter (λ '(k, t, ok), ok && bool_decide (k = key) && inside t) log)).

(** The clock never goes back between two calls. *)
Definition monotone (calls : list (string * Z)) : Prop :=
  ∀ i j ci cj, (i ≤ j)%nat → calls !! i = Some ci → calls !! j = Some cj → ci.2 ≤ cj.2.

End RateLimiter.

End Validation.

(** ** HistoricalTrackingService: sample trend data *)

Module Historical.

(** [HistoricalDataPoint]; [date] is the day number (days since the epoch,
    UTC) that [toISOString().split('T')[0]] prints as a calendar date. *)
Record HistoricalDataPoint := {
  date : Z;
  position : Z;
  mentions : Z;
  sentiment : Q;
  competitor : string
}.

Inductive TrendDirection := up | down | stable.

Record CompetitorTrendData := {
  td_competitor : string;
  data : list HistoricalDataPoint;
  currentPosition : Z;
  positionChange : Z;
  trendDirection : TrendDirection
}.

(** ['7d' | '30d' | '90d' | '1y']. *)
Inductive TimeRange := range_7d | range_30d | range_90d | range_1y.

(** The table [days] of [getHistoricalData]. *)
Definition days (timeRange : TimeRange) : Z :=
  match timeRange with
  | range_7d => 7
  | range_30d => 30
  | range_90d => 90
  | range_1y => 365
  end.

(** A [Date] is its time value: milliseconds since the epoch, UTC. *)
Definition msPerDay : Z := 1000 * 60 * 60 * 24.

(** [LocalTime(t)] and [UTC(t)] for the offsets [tza] of a time zone:
    [tza t true] is the offset from UTC, in milliseconds, in force at the
    instant [t], and [tza t false] the offset to take off the local time
    value [t]. *)
Definition LocalTime_of (tza : Z → bool → Z) (t : Z) : Z := t + tza t true.
Definition UTC_of (tza : Z → bool → Z) (t : Z) : Z := t - tza t false.

(** The time zone of the browser.  Its offsets may change (daylight
    saving); setting a date to the next day of the calendar always moves
    it forward in time. *)
Record TimeZone := {
  LocalTZA : Z → bool → Z;
  day_forward : ∀ t, t < UTC_of LocalTZA (LocalTime_of LocalTZA t + msPerDay)
}.

(** [d.setDate(d.getDate() + n)]: the day of the month is read and set in
    local time, so the local time value moves by [n] days of 24 hours and
    is then taken back to UTC. *)
Definition setDate_plus (tz : TimeZone) (d : Z) (n : Z) : Z :=
  UTC_of (LocalTZA tz) (LocalTime_of (LocalTZA tz) d + n * msPerDay).

(** The offset of the zone never changes. *)
Definition fixed_offset (tz : TimeZone) : Prop :=
  ∃ c, ∀ t isUTC, LocalTZA tz t isUTC = c.

(** [Math.round], [Math.max], [Math.min] on exact rationals. *)
Definition Math_round (x : Q) : Z := Qfloor (x + (1 # 2))%Q.
Definition Qmax (a b : Q) : Q := if Qle_bool a b then b else a.
Definition Qmin (a b : Q) : Q := if Qle_bool a b then a else b.

(** A row of the table [historical_snapshots]. *)
Record HistoricalSnapshot := {
  hs_project_id : string;
  hs_keyword_id : string;
  hs_competitor_name : string;
  hs_position : Z;
  hs_snapshot_date : Z
}.

(** What the service can observe of the outside world: the time zone,
    the successive readings of [new Date()], the successive draws of
    [Math.random()], the function [Math.sin], and the stored snapshots. *)
Record World := {
  zone : TimeZone;
  clock : nat → Z;
  Math_random : nat → Q;
  Math_sin : Q → Q;
  historical_snapshots : list HistoricalSnapshot
}.

Section SampleData.
Context (tz : TimeZone) (sin : Q → Q) (random : nat → Q).
Context (startDate endDate : Z) (comp : string) (index : nat).

Definition basePosition : Q := inject_Z (3 + Z.of_nat index).
Definition baseMentions : Q := inject_Z (50 + Z.of_nat index * 20).
Definition baseSentiment : Q := ((6 # 10) + inject_Z (Z.of_nat index) * (1 # 10))%Q.

(** The body of the loop: the point pushed for [current], the three draws
    it makes being numbered [draws], [draws + 1], [draws + 2]. *)
Definition sample_point (current : Z) (draws : nat) : HistoricalDataPoint :=
  let dayOffset := (inject_Z (current - startDate) / inject_Z msPerDay)%Q in
  let positionVariation :=
    (sin (dayOffset * (1 # 10)) * 2 + random draws * 2 - 1)%Q in
  let mentionVariation :=
    (sin (dayOffset * (15 # 100)) * 10 + random (draws + 1)%nat * 20 - 10)%Q in
  let sentimentVariation :=
    (sin (dayOffset * (8 # 100)) * (1 # 10) + random (draws + 2)%nat * (2 # 10) - (1 # 10))%Q in
  {| date := current / msPerDay;
     position := Z.max 1 (Math_round (basePosition + positionVariation));
     mentions := Z.max 0 (Math_round (baseMentions + mentionVariation));
     sentiment := Qmax 0 (Qmin 1 (baseSentiment + sentimentVariation));
     competitor := comp |}.

(** [while (current <= endDate) { data.push(...); current.setDate(current.getDate() + 1) }]. *)
Equations? sample_loop (current : Z) (draws : nat) : list HistoricalDataPoint
    by wf (Z.to_nat (endDate - current + 1)) lt :=
  sample_loop current draws with Z_le_gt_dec current endDate => {
    | left _ := sample_point current draws
                  :: sample_loop (setDate_plus tz current 1) (draws + 3)%nat;
    | right _ := [] }.
Proof.
  pose proof (day_forward tz current) as Hforward.
  unfold setDate_plus. rewrite Z.mul_1_l. lia.
Qed.

Definition generateSampleHistoricalData (draws : nat) : list HistoricalDataPoint :=
  sample_loop startDate draws.

End SampleData.

(** [data[data.length - k]?.position], [undefined] out of range. *)
Definition position_from_end (data : list HistoricalDataPoint) (k : nat) : option Z :=
  if (k <=? List.length data)%nat
  then position <$> data !! (List.length data - k)%nat
  else None.

(** [x || d] on a number that may be undefined. *)
Definition or_else (x : option Z) (d : Z) : Z :=
  match x with
  | Some v => if v =? 0 then d else v
  | None => d
  end.

Definition trend_entry (competitor : string) (data : list HistoricalDataPoint)
    : CompetitorTrendData :=
  let currentPosition := or_else (position_from_end data 1) 1 in
  let previousPosition := or_else (position_from_end data 8) currentPosition in
  let positionChange := previousPosition - currentPosition in
  {| td_competitor := competitor;
     data := data;
     currentPosition := currentPosition;
     positionChange := positionChange;
     trendDirection :=
       if 0 <? positionChange then up
       else if positionChange <? 0 then down else stable |}.

(** [sampleCompetitors.map((competitor, index) => ...)]: the callback reads
    the clock once ([new Date()], reading number [index + 1]) and draws
    three random numbers for each point. *)
Fixpoint trend_entries (w : World) (startDate : Z) (index draws : nat)
    (sampleCompetitors : list string) : list CompetitorTrendData :=
  match sampleCompetitors with
  | [] => []
  | competitor :: rest =>
      let data :=
        generateSampleHistoricalData (zone w) (Math_sin w) (Math_random w)
          startDate (clock w (S index)) competitor index draws in
      trend_entry competitor data
        :: trend_entries w startDate (S index) (draws + 3 * List.length data) rest
  end.

Definition default_competitors : list string :=
  ["Competitor A"; "Competitor B"; "Competitor C"].

(** [getHistoricalData(projectId, keywordId?, timeRange = '30d', competitors?)];
    an absent optional argument is [None]. *)
Definition getHistoricalData (w : World) (projectId : string) (keywordId : option string)
    (timeRange : option TimeRange) (competitors : option (list string))
    : list CompetitorTrendData :=
  let timeRange := default range_30d timeRange in
  let startDate := setDate_plus (zone w) (clock w 0) (- days timeRange) in
  let sampleCompetitors := default default_competitors competitors in
  trend_entries w startDate 0 0 sampleCompetitors.


(** The days from [first] to [last], one each. *)
Definition days_from_to (first : Z) (count : nat) : list Z :=
  (λ k, first + Z.of_nat k) <$> seq 0 count.

(** All readings of the clock during one call come less than 24 hours
    after the first one, and not before it. *)
Definition clock_steady (w : World) : Prop :=
  ∀ k, clock w 0 ≤ clock w k < clock w 0 + msPerDay.


End Historical.

(** ** Sample data used to exercise the definitions *)

Module Examples.
Import Sql Rls.

Definition first_user : auth_users :=
  {| au_id := 7%N; au_email := "ann@example.com";
     raw_user_meta_data := {[ "name" := "Ann" ]} |}.

Definition ann_project : projects :=
  {| p_user_id := 7%N; p_name := "Shoes"; p_brand_name := "Acme";
     p_competitors := ["Bolt"]; p_description := None |}.

Definition ann_keyword : keywords :=
  {| k_project_id := 1%N; k_keyword := "running shoes"; k_priority := Some 1 |}.

Definition small_db : database :=
  {| projects_tbl := {[ 1%N := ann_project ]};
     keywords_tbl := {[ 2%N := ann_keyword ]};
     reports_tbl := ∅;
     api_responses_tbl := ∅ |}.

(** The zone UTC. *)
Definition utc : Historical.TimeZone.
Proof.
  refine {| Historical.LocalTZA := λ _ _, 0 |}.
  intros t. unfold Historical.UTC_of, Historical.LocalTime_of, Historical.msPerDay. lia.
Defined.


(** A world where the clock stands still shortly after midnight of day 20000. *)
Definition still_world : Historical.World :=
  {| Historical.zone := utc;
     Historical.clock := λ _, 20000 * Historical.msPerDay + 3600000;
     Historical.Math_random := λ _, (1 # 2)%Q;
     Historical.Math_sin := λ _, 0%Q;
     Historical.historical_snapshots := [] |}.

(** The response text [{"competitors":[null]}]. *)
Definition quoted (s : string) : string :=
  String "034"%char (s +:+ String "034"%char "").
Definition null_competitor_response : string :=
  "{" +:+ quoted "competitors" +:+ ":[null]}".

Definition shoes_project : ProjectDetails.Project :=
  {| ProjectDetails.id := "p1"; ProjectDetails.name := "Shoes";
     ProjectDetails.description := None; ProjectDetails.brand_name := "Acme";
     ProjectDetails.p_competitors := Some ["Bolt"]; ProjectDetails.user_id := "u7" |}.

Definition shoes_keywords : list ProjectDetails.Keyword :=
  [ {| ProjectDetails.k_id := "k1"; ProjectDetails.keyword := "running shoes";
       ProjectDetails.project_id := "p1" |};
    {| ProjectDetails.k_id := "k2"; ProjectDetails.keyword := "trail shoes";
       ProjectDetails.project_id := "p1" |} ].

(** A page ready to generate a report, with the given API key. *)
Definition shoes_page (apiKey : string) : ProjectDetails.State :=
  {| ProjectDetails.project := Some shoes_project;
     ProjectDetails.keywords := shoes_keywords;
     ProjectDetails.brandName := "Acme";
     ProjectDetails.competitors := ["Bolt"];
     ProjectDetails.openaiApiKey := apiKey;
     ProjectDetails.isGeneratingReport := false;
     ProjectDetails.brandTrackingResults := [] |}.

(** Services that create the report, answer the first request in plain
    text and fail the second one. *)
Definition shoes_backend : ProjectDetails.Backend :=
  {| ProjectDetails.insert_report := λ _ _, Some "r1";
     ProjectDetails.openai := λ n _,
       match n with
       | O => OpenAI.Completion (Some "Acme is at position 2, confidence: 90")
       | _ => OpenAI.HttpError 500 "Internal Server Error"
       end;
     ProjectDetails.insert_api_response := λ _, true;
     ProjectDetails.update_report := true |}.



End Examples.

(** ** SQL: the account tables *)

Module SqlAccounts.
Import Sql Rls.

(** [a OR b] with unknown. *)
Definition sql_or (a b : option bool) : option bool :=
  match a, b with
  | Some true, _ | _, Some true => Some true
  | Some false, Some false => Some false
  | _, _ => None
  end.

(** The label of an enum value. *)
Definition plan_text (r : app_role) : string :=
  match r with
  | admin => "admin"
  | trial => "trial"
  | basic => "basic"
  | gold => "gold"
  end.

(** The policies of [public.profiles]: select, update and insert with
    [auth.uid() = id]. *)
Definition profiles_policies : list (policy profiles) :=
  [ (* "Users can view their own profile" *)
    ForSelect (λ _ uid p, sql_eq uid (Some (id p)));
    (* "Users can update their own profile" *)
    ForUpdate (λ _ uid p, sql_eq uid (Some (id p))) None;
    (* "Users can insert their own profile" *)
    ForInsert (λ _ uid p, sql_eq uid (Some (id p))) ].

(** A row of [public.subscribers]. *)
Record subscribers := {
  s_user_id : uuid;
  s_email : string;
  s_stripe_customer_id : option string;
  s_subscribed : bool;
  s_subscription_tier : option string
}.

(** The policies of [public.subscribers], for a caller whose
    [auth.email()] is [email]: select, update and insert with
    [auth.uid() = user_id OR auth.email() = email]. *)
Definition own_subscription (email : option string) : expr subscribers :=
  λ _ uid s, sql_or (sql_eq uid (Some (s_user_id s))) (sql_eq email (Some (s_email s))).

Definition subscribers_policies (email : option string) : list (policy subscribers) :=
  [ (* "Users can view their own subscription" *)
    ForSelect (own_subscription email);
    (* "Users can update their own subscription" *)
    ForUpdate (own_subscription email) None;
    (* "Users can insert their own subscription" *)
    ForInsert (own_subscription email) ].

(** The statement is a DELETE. *)
Definition is_delete {row} (op : operation row) : bool :=
  match op with OpDelete _ => true | _ => false end.

(** The table of a statement has a policy for its command: all four
    commands on projects and keywords, all but DELETE on reports, SELECT
    and INSERT on api_responses. *)
Definition has_policy (st : statement) : bool :=
  match st with
  | OnProjects _ | OnKeywords _ => true
  | OnReports op => negb (is_delete op)
  | OnApiResponses op =>
      match op with OpSelect _ | OpInsert _ => true | _ => false end
  end.

End SqlAccounts.

(** ** The migration scripts, statement by statement *)

Module Migrations.
Import Sql SqlAccounts.

(** The column types the scripts use for [public.profiles]. *)
Inductive sqltype := TUuid | TText | TInteger | TTimestamptz | TEnum (type_name : string).

#[global] Instance sqltype_eq_dec : EqDecision sqltype.
Proof. solve_decision. Defined.

(** The DEFAULT expressions the scripts write: a string literal, an
    integer, [now()], and [now() + interval 'n days']. *)
Inductive default_expr :=
| DLiteral (s : string)
| DInteger (n : Z)
| DNow
| DNowPlusDays (n : Z).

Record column := {
  col_name : string;
  col_type : sqltype;
  col_not_null : bool;
  col_default : option default_expr
}.

(** What the scripts build, as far as profile rows depend on it: the enum
    types with their labels, and the columns of [public.profiles] once the
    table exists. *)
Record catalog := {
  enum_types : gmap string (list string);
  profiles_columns : option (list column)
}.

Definition empty_catalog : catalog :=
  {| enum_types := ∅; profiles_columns := None |}.

Definition has_column (cols : list column) (name : string) : bool :=
  existsb (λ c, bool_decide (col_name c = name)) cols.

(** The type of a column exists, and a literal default of an enum column
    is one of its labels. *)
Definition column_ok (types : gmap string (list string)) (c : column) : bool :=
  match col_type c with
  | TEnum n =>
      match types !! n with
      | Some labels =>
          match col_default c with
          | Some (DLiteral s) => bool_decide (s ∈ labels)
          | Some _ => false
          | None => true
          end
      | None => false
      end
  | _ => true
  end.

(** The statements of the scripts that touch the type [app_role] or the
    table [public.profiles]; an UPDATE is kept as the columns it names. *)
Inductive statement :=
| CreateTypeEnum (name : string) (labels : list string)
| CreateTableProfiles (columns : list column)
| AddColumnIfNotExists (c : column)
| DropTypeIfExistsCascade (name : string)
| AlterColumnType (column_name : string) (ty : sqltype)
| UpdateProfiles (columns_named : list string).

(** A statement succeeds, fails with an error, or is one whose effect is
    not modelled (converting the values and the default of an existing
    column to another type). *)
Inductive outcome :=
| Ok (cat : catalog)
| Error
| NotModelled.

Definition exec (cat : catalog) (st : statement) : outcome :=
  match st with
  | CreateTypeEnum name labels =>
      match enum_types cat !! name with
      | Some _ => Error
      | None =>
          Ok {| enum_types := <[name := labels]> (enum_types cat);
                profiles_columns := profiles_columns cat |}
      end
  | CreateTableProfiles columns =>
      match profiles_columns cat with
      | Some _ => Error
      | None =>
          if forallb (column_ok (enum_types cat)) columns
          then Ok {| enum_types := enum_types cat; profiles_columns := Some columns |}
          else Error
      end
  | AddColumnIfNotExists c =>
      match profiles_columns cat with
      | None => Error
      | Some cols =>
          if has_column cols (col_name c) then Ok cat
          else if column_ok (enum_types cat) c
          then Ok {| enum_types := enum_types cat;
                     profiles_columns := Some (cols ++ [c]) |}
          else Error
      end
  | DropTypeIfExistsCascade name =>
      (* CASCADE: the columns of that type are dropped with it *)
      Ok {| enum_types := delete name (enum_types cat);
            profiles_columns :=
              List.filter (λ c, negb (bool_decide (col_type c = TEnum name)))
                <$> profiles_columns cat |}
  | AlterColumnType column_name ty =>
      match profiles_columns cat with
      | None => Error
      | Some cols => if has_column cols column_name then NotModelled else Error
      end
  | UpdateProfiles columns_named =>
      match profiles_columns cat with
      | None => Error
      | Some cols => if forallb (has_column cols) columns_named then Ok cat else Error
      end
  end.

(** A script run up to its first error: it completes, or stops at the
    statement numbered [number] (from 0) with the catalog reached before it. *)
Inductive run_result :=
| Completed (cat : catalog)
| Failed (number : nat) (reached : catalog)
| Unknown (number : nat).

Fixpoint run_from (number : nat) (script : list statement) (cat : catalog) : run_result :=
  match script with
  | [] => Completed cat
  | st :: rest =>
      match exec cat st with
      | Ok cat' => run_from (S number) rest cat'
      | Error => Failed number cat
      | NotModelled => Unknown number
      end
  end.

Definition run (script : list statement) (cat : catalog) : run_result :=
  run_from 0 script cat.



(** The first migration, lines 2 to 17: the type [app_role] and the
    table [public.profiles]. *)
Definition migration_1 : list statement :=
  [ CreateTypeEnum "app_role" ["admin"; "trial"; "basic"; "gold"];
    CreateTableProfiles
      [ {| col_name := "id"; col_type := TUuid; col_not_null := true;
           col_default := None |};
        {| col_name := "email"; col_type := TText; col_not_null := true;
           col_default := None |};
        {| col_name := "full_name"; col_type := TText; col_not_null := false;
           col_default := None |};
        {| col_name := "company"; col_type := TText; col_not_null := false;
           col_default := None |};
        {| col_name := "plan"; col_type := TEnum "app_role"; col_not_null := true;
           col_default := Some (DLiteral "trial") |};
        {| col_name := "plan_expires_at"; col_type := TTimestamptz;
           col_not_null := false; col_default := None |};
        {| col_name := "projects_limit"; col_type := TInteger; col_not_null := true;
           col_default := Some (DInteger 1) |};
        {| col_name := "keywords_limit"; col_type := TInteger; col_not_null := true;
           col_default := Some (DInteger 10) |};
        {| col_name := "reports_limit"; col_type := TInteger; col_not_null := true;
           col_default := Some (DInteger 5) |};
        {| col_name := "created_at"; col_type := TTimestamptz; col_not_null := true;
           col_default := Some DNow |};
        {| col_name := "updated_at"; col_type := TTimestamptz; col_not_null := true;
           col_default := Some DNow |} ] ].

(** The column the later script adds. *)
Definition trial_ends_at_column : column :=
  {| col_name := "trial_ends_at"; col_type := TTimestamptz; col_not_null := false;
     col_default := Some (DNowPlusDays 14) |}.

(** The later script, lines 1 to 35: its statements on the table and on
    the type, in order. *)
Definition trial_migration : list statement :=
  [ AddColumnIfNotExists trial_ends_at_column;
    DropTypeIfExistsCascade "app_role";
    CreateTypeEnum "app_role" ["trial"; "basic"; "gold"];
    AlterColumnType "plan" TText;
    AlterColumnType "plan" (TEnum "app_role");
    UpdateProfiles ["projects_limit"; "keywords_limit"; "reports_limit"; "plan"];
    UpdateProfiles ["projects_limit"; "keywords_limit"; "reports_limit"; "plan"];
    UpdateProfiles ["projects_limit"; "keywords_limit"; "reports_limit"; "plan"] ].

(** The value of a column of a row: NULL is [None]. *)
Inductive value :=
| VUuid (u : uuid)
| VText (s : string)
| VInteger (n : Z)
| VTime (t : timestamptz)
| VLabel (type_name label : string).

(** A row of the table, by column name. *)
Abbreviation row := (gmap string (option value)).

(** [t + interval 'n days'] moves the local time of the session's time
    zone by [n] days; in a session on UTC that is [n] times 24 hours, in
    microseconds. *)
Definition utc_add_days (t : timestamptz) (n : Z) : timestamptz :=
  t + n * 86400000000.

(** The DEFAULT of a column at the time [now] of the transaction, in a
    session whose calendar is [add_days]. *)
Definition default_value (add_days : timestamptz → Z → timestamptz)
    (now : timestamptz) (c : column) : option value :=
  match col_default c with
  | None => None
  | Some d =>
      Some match d, col_type c with
           | DLiteral s, TEnum n => VLabel n s
           | DLiteral s, _ => VText s
           | DInteger n, _ => VInteger n
           | DNow, _ => VTime now
           | DNowPlusDays n, _ => VTime (add_days now n)
           end
  end.

(** [INSERT INTO public.profiles (...) VALUES (...)] with the listed
    columns assigned: an error ([None]) when the table or a listed column
    does not exist or a NOT NULL column is left NULL. *)
Definition insert_into_profiles (add_days : timestamptz → Z → timestamptz)
    (cat : catalog) (now : timestamptz)
    (assigned : list (string * option value)) : option row :=
  match profiles_columns cat with
  | None => None
  | Some cols =>
      let value_of (c : column) : option value :=
        match (list_to_map assigned : gmap string (option value)) !! col_name c with
        | Some v => v
        | None => default_value add_days now c
        end in
      if forallb (λ a, has_column cols a.1) assigned
         && forallb (λ c, negb (col_not_null c) || bool_decide (is_Some (value_of c))) cols
      then Some (list_to_map ((λ c, (col_name c, value_of c)) <$> cols))
      else None
  end.

(** The INSERT of [public.handle_new_user()] for [NEW]. *)
Definition signup (add_days : timestamptz → Z → timestamptz) (cat : catalog)
    (now : timestamptz) (NEW : auth_users) : option row :=
  insert_into_profiles add_days cat now
    [ ("id", Some (VUuid (au_id NEW)));
      ("email", Some (VText (au_email NEW)));
      ("full_name",
       VText <$> coalesce (raw_user_meta_data NEW !! "full_name")
                          (raw_user_meta_data NEW !! "name")) ].

(** A row of the record [profiles] by column name. *)
Definition row_of_profile (p : profiles) : row :=
  list_to_map
    [ ("id", Some (VUuid (id p)));
      ("email", Some (VText (email p)));
      ("full_name", VText <$> full_name p);
      ("company", VText <$> company p);
      ("plan", Some (VLabel "app_role" (plan_text (plan p))));
      ("plan_expires_at", VTime <$> plan_expires_at p);
      ("projects_limit", Some (VInteger (projects_limit p)));
      ("keywords_limit", Some (VInteger (keywords_limit p)));
      ("reports_limit", Some (VInteger (reports_limit p)));
      ("created_at", Some (VTime (created_at p)));
      ("updated_at", Some (VTime (updated_at p))) ].

End Migrations.

(** ** Hooks [usePlanLimits] and [useTrialStatus], continued *)

Module TrialStatusHook.
Import PlanLimitsHook.

(** The property name behind each key of [Usage]. *)
Definition key_name (type : UsageKey) : string :=
  match type with
  | projects => "projects"
  | keywords => "keywords"
  | reports => "reports"
  | competitors => "competitors"
  end.

(** The remote call [supabase.rpc('get_plan_limits', {plan_type})] when
    it succeeds. *)
Definition rpc_get_plan_limits (plan : string) : option Sql.jsonb :=
  Some (Sql.get_plan_limits (Some plan)).

(** The number is 100. *)
Definition is_full (x : jsnum) : Prop :=
  match x with
  | Fin q => (q == 100)%Q
  | _ => False
  end.

(** [interface TrialStatus]; [isTrialExpired] holds what the remote call
    returned, which is [null] ([None]) when the SQL function is unknown. *)
Record TrialStatus := {
  isTrialExpired : option bool;
  daysRemaining : Z;
  trialEndsAt : option Z;
  ts_isLoading : bool
}.

(** The initial state of [useState<TrialStatus>]. *)
Definition initial_status : TrialStatus :=
  {| isTrialExpired := Some false; daysRemaining := 0; trialEndsAt := None;
     ts_isLoading := true |}.

Definition stop_loading_status (prev : TrialStatus) : TrialStatus :=
  {| isTrialExpired := isTrialExpired prev; daysRemaining := daysRemaining prev;
     trialEndsAt := trialEndsAt prev; ts_isLoading := false |}.

(** What the hook reads of the profile: the plan, and [trial_ends_at] as
    the time value, in milliseconds, of [new Date(profile.trial_ends_at)]
    ([None] when the column is null). *)
Record ClientProfile := {
  cp_plan : string;
  cp_trial_ends_at : option Z
}.

(** The answer of [supabase.rpc('is_trial_expired', ...)]: an error, or
    the value returned. *)
Inductive RpcAnswer :=
| RpcError
| RpcData (data : option bool).

(** [Math.ceil(a / b)] for integers and positive [b]. *)
Definition ceil_div (a b : Z) : Z := - ((- a) / b).

(** [checkTrialStatus]; [signed_in] says whether [user] is set and [now]
    is the reading of [new Date()]. *)
Definition checkTrialStatus (profile : option ClientProfile) (signed_in : bool)
    (rpc : RpcAnswer) (now : Z) (prev : TrialStatus) : TrialStatus :=
  match profile, signed_in with
  | Some profile, true =>
      if negb (bool_decide (cp_plan profile = "trial")) then
        {| isTrialExpired := Some false; daysRemaining := 0; trialEndsAt := None;
           ts_isLoading := false |}
      else
        match rpc with
        | RpcError => stop_loading_status prev
        | RpcData data =>
            let isExpired := data in
            let trialEndsAt := cp_trial_ends_at profile in
            let daysRemaining :=
              match trialEndsAt, isExpired with
              | Some ends, (None | Some false) =>
                  let timeDiff := ends - now in
                  Z.max 0 (ceil_div timeDiff (1000 * 3600 * 24))
              | _, _ => 0
              end in
            {| isTrialExpired := isExpired; daysRemaining := daysRemaining;
               trialEndsAt := trialEndsAt; ts_isLoading := false |}
        end
  | _, _ => stop_loading_status prev
  end.

End TrialStatusHook.

(** ** components/ProjectDialog.tsx: sanitise, then validate *)

Module ProjectDialog.
Import Validation.

(** [interface ProjectFormData]; an absent optional field is [None]. *)
Record ProjectFormData := {
  name : string;
  description : option string;
  brand_name : string;
  competitors : option (list string)
}.

(** [z.string().min(lo).max(hi)]: the length in code units is within the
    bounds. *)
Definition string_between (lo hi : nat) (s : string) : bool :=
  (lo <=? Js.length s)%nat && (Js.length s <=? hi)%nat.

(** [projectSchema.parse(data)] succeeds. *)
Definition projectSchema_accepts (data : ProjectFormData) : bool :=
  string_between 1 100 (name data)
  && from_option (string_between 0 500) true (description data)
  && string_between 1 100 (brand_name data)
  && from_option
       (λ cs, forallb (string_between 1 100) cs && (List.length cs <=? 20)%nat)
       true (competitors data).

(** [x ? f(x) : undefined] on a string: the empty string is falsy. *)
Definition if_nonempty (f : string → string) (x : option string) : option string :=
  match x with
  | Some (String a r) => Some (f (String a r))
  | _ => None
  end.

(** The object built at the start of [handleSubmit]. *)
Definition sanitizedData (formData : ProjectFormData) : ProjectFormData :=
  {| name := sanitizeInput (name formData);
     description := if_nonempty sanitizeInput (description formData);
     brand_name := sanitizeInput (brand_name formData);
     competitors := sanitizeArray <$> competitors formData |}.

(** [handleSubmit]: the data handed to [onSave], or [None] when the
    schema rejects the sanitised data and the toast "Validation Error" is
    shown instead. *)
Definition handleSubmit (formData : ProjectFormData) : option ProjectFormData :=
  let data := sanitizedData formData in
  if projectSchema_accepts data then Some data else None.

(** A string free of angle brackets. *)
Definition no_angle (s : string) : Prop :=
  ¬ Js.has_char "<" s ∧ ¬ Js.has_char ">" s.

End ProjectDialog.

(** ** lib/historicalTracking: the helper behind the position velocity *)

Module TrendMetrics.
Import Historical PlanLimitsHook.

(** [data.slice(-7)] and [data.slice(-14, -7)]: a negative index counts
    from the end and stops at the start of the array. *)
Definition slice_recent (data : list HistoricalDataPoint) : list HistoricalDataPoint :=
  drop (List.length data - 7) data.
Definition slice_older (data : list HistoricalDataPoint) : list HistoricalDataPoint :=
  take ((List.length data - 7) - (List.length data - 14))
    (drop (List.length data - 14) data).

(** [xs.reduce((sum, d) => sum + d.position, 0)]. *)
Definition sum_positions (xs : list HistoricalDataPoint) : Z :=
  fold_left (λ sum d, sum + position d) xs 0.

(** [a - b] on the results of two divisions, in exact arithmetic; NaN
    when an operand is NaN or both are the same infinity. *)
Definition js_sub (a b : jsnum) : jsnum :=
  match a, b with
  | Fin x, Fin y => Fin (x - y)
  | NaN, _ | _, NaN => NaN
  | PosInf, PosInf | NegInf, NegInf => NaN
  | PosInf, _ | _, NegInf => PosInf
  | NegInf, _ | _, PosInf => NegInf
  end.

(** [calculatePositionVelocity(data)]. *)
Definition calculatePositionVelocity (data : list HistoricalDataPoint) : jsnum :=
  if (List.length data <? 2)%nat then Fin 0
  else
    let recent := slice_recent data in
    let older := slice_older data in
    let recentAvg := js_div (sum_positions recent) (Z.of_nat (List.length recent)) in
    let olderAvg := js_div (sum_positions older) (Z.of_nat (List.length older)) in
    js_sub olderAvg recentAvg.

End TrendMetrics.

(** ** pages/ProjectDetails: the competitor handlers *)

Module CompetitorHandlers.
Import ProjectDetails.

(** The part of the state of the page these handlers read and set. *)
Record Page := {
  pg_project : option Project;
  pg_competitors : list string;
  pg_newCompetitor : string
}.

(** What a handler does to the outside, in order. *)
Inductive PageEvent :=
| UpdateCompetitors (project_id : string) (competitors : list string)
| PageToast (title : string).

Definition set_competitors (st : Page) (competitors : list string)
    (newCompetitor : string) : Page :=
  {| pg_project := pg_project st; pg_competitors := competitors;
     pg_newCompetitor := newCompetitor |}.

(** [handleAddCompetitor]; [update_ok] tells whether the update of the
    row in [projects] comes back without an error. *)
Definition handleAddCompetitor (update_ok : bool) (st : Page) : Page * list PageEvent :=
  match pg_project st with
  | None => (st, [])
  | Some project =>
      if bool_decide (Js.trim (pg_newCompetitor st) = "") then (st, [])
      else
        let updatedCompetitors := pg_competitors st ++ [Js.trim (pg_newCompetitor st)] in
        let update := UpdateCompetitors (id project) updatedCompetitors in
        if update_ok
        then (set_competitors st updatedCompetitors "", [update; PageToast "Success"])
        else (st, [update; PageToast "Error"])
  end.

(** [handleRemoveCompetitor(competitorToRemove)]. *)
Definition handleRemoveCompetitor (update_ok : bool) (competitorToRemove : string)
    (st : Page) : Page * list PageEvent :=
  match pg_project st with
  | None => (st, [])
  | Some project =>
      let updatedCompetitors :=
        List.filter (λ c, negb (bool_decide (c = competitorToRemove)))
          (pg_competitors st) in
      let update := UpdateCompetitors (id project) updatedCompetitors in
      if update_ok
      then (set_competitors st updatedCompetitors (pg_newCompetitor st),
            [update; PageToast "Success"])
      else (st, [update; PageToast "Error"])
  end.





End CompetitorHandlers.

(** ** More sample data *)



Module ProjectDialogExamples.
Import ProjectDialog.

(** What a user typed into the dialog, and what is saved. *)
Definition typed : ProjectFormData :=
  {| name := "  My <b>shop</b> ";
     description := Some "";
     brand_name := "Shop";
     competitors := Some [" <> "; "Acme"] |}.

Definition saved : ProjectFormData :=
  {| name := "My bshop/b";
     description := None;
     brand_name := "Shop";
     competitors := Some ["Acme"] |}.

End ProjectDialogExamples.

Module CompetitorExamples.
Import CompetitorHandlers.

(** The page of a project with one competitor, and "Bolt" typed again. *)
Definition shoes_page : Page :=
  {| pg_project := Some Examples.shoes_project;
     pg_competitors := ["Bolt"];
     pg_newCompetitor := " Bolt " |}.

End CompetitorExamples.

Module ReportExamples.

(** Services that create the report and store it, while every request
    to the completions endpoint fails. *)
Definition failing_backend : ProjectDetails.Backend :=
  {| ProjectDetails.insert_report := λ _ _, Some "r1";
     ProjectDetails.openai := λ _ _, OpenAI.HttpError 500 "Internal Server Error";
     ProjectDetails.insert_api_response := λ _, true;
     ProjectDetails.update_report := true |}.

End ReportExamples.

(* ===================================================================== *)
(** * Part II: the properties                                             *)
(* ===================================================================== *)

Section PlanLimitsTable.
Import Sql.

(** C1. [get_plan_limits] returns projects 1, keywords 10, reports 5,
    competitors 0 for 'trial'; 3, 25, 15, 1 for 'basic'; 10, 50, 50, -1
    for 'gold'; and the empty object for any other plan value (NULL
    included). *)
Theorem get_plan_limits_table :
  get_plan_limits (Some "trial")
    = list_to_map [("projects", 1); ("keywords", 10); ("reports", 5); ("competitors", 0)]
  ∧ get_plan_limits (Some "basic")
    = list_to_map [("projects", 3); ("keywords", 25); ("reports", 15); ("competitors", 1)]
  ∧ get_plan_limits (Some "gold")
    = list_to_map [("projects", 10); ("keywords", 50); ("reports", 50); ("competitors", -1)]
  ∧ (∀ p : option string,
       p ≠ Some "trial" → p ≠ Some "basic" → p ≠ Some "gold" →
       get_plan_limits p = ∅).
Proof.
  repeat split; try reflexivity.
  intros [p|] Ht Hb Hg; [|reflexivity].
  unfold get_plan_limits; simpl.
  rewrite !bool_decide_eq_false_2 by congruence.
  reflexivity.
Qed.

End PlanLimitsTable.

Section SignupProfile.
Import Sql SqlAccounts Migrations Examples.

(** The record [profiles] and the defaults written into it are the table
    and the defaults of the first migration. *)
Lemma signup_on_created_table add_days (now : timestamptz) (NEW : auth_users) :
  ∃ created,
    run migration_1 empty_catalog = Completed created
    ∧ signup add_days created now NEW
      = Some (row_of_profile (handle_new_user now NEW)).
Proof. eexists. split; reflexivity. Qed.

(** C7. The profile row [handle_new_user] creates at signup, on the
    tables the scripts build.  On the table of the first migration the
    row has plan 'trial' and the limits 1, 10 and 5, and no column
    trial_ends_at.  The later script adds trial_ends_at with the default
    [now() + interval '14 days'], and a signup right after that statement
    gives a row with both; but its next statement, DROP TYPE
    public.app_role CASCADE, drops the column plan with the type, and the
    statement after, ALTER COLUMN plan TYPE text, fails.  So on the table
    the script leaves behind a new row has trial_ends_at equal to its
    creation time plus 14 days (1209600000000 microseconds in a session on
    UTC) and the three limits, but no plan; and when the failed script is
    undone, no trial_ends_at. *)
Theorem signup_profile_after_migrations (add_days : timestamptz → Z → timestamptz)
    (now : timestamptz) (NEW : auth_users) :
  utc_add_days now 14 = now + 1209600000000
  ∧ ∃ created with_trial_end reached,
    run migration_1 empty_catalog = Completed created
    ∧ exec created (AddColumnIfNotExists trial_ends_at_column) = Ok with_trial_end
    ∧ run trial_migration created = Failed 3 reached
    ∧ trial_migration !! 3%nat = Some (AlterColumnType "plan" TText)
    ∧ (∃ row, signup add_days created now NEW = Some row
         ∧ row !! "plan" = Some (Some (VLabel "app_role" "trial"))
         ∧ row !! "projects_limit" = Some (Some (VInteger 1))
         ∧ row !! "keywords_limit" = Some (Some (VInteger 10))
         ∧ row !! "reports_limit" = Some (Some (VInteger 5))
         ∧ row !! "created_at" = Some (Some (VTime now))
         ∧ row !! "trial_ends_at" = None)
    ∧ (∃ row, signup add_days with_trial_end now NEW = Some row
         ∧ row !! "plan" = Some (Some (VLabel "app_role" "trial"))
         ∧ row !! "projects_limit" = Some (Some (VInteger 1))
         ∧ row !! "keywords_limit" = Some (Some (VInteger 10))
         ∧ row !! "reports_limit" = Some (Some (VInteger 5))
         ∧ row !! "created_at" = Some (Some (VTime now))
         ∧ row !! "trial_ends_at" = Some (Some (VTime (add_days now 14))))
    ∧ (∃ row, signup add_days reached now NEW = Some row
         ∧ row !! "plan" = None
         ∧ row !! "projects_limit" = Some (Some (VInteger 1))
         ∧ row !! "keywords_limit" = Some (Some (VInteger 10))
         ∧ row !! "reports_limit" = Some (Some (VInteger 5))
         ∧ row !! "created_at" = Some (Some (VTime now))
         ∧ row !! "trial_ends_at" = Some (Some (VTime (add_days now 14)))).
Proof.
  split; [unfold utc_add_days; lia|].
  eexists _, _, _. split; [reflexivity|]. split; [reflexivity|].
  split; [reflexivity|]. split; [reflexivity|].
  split_and!; (eexists; split; [reflexivity|]); split_and!; reflexivity.
Qed.

(** The trigger does fire for a fresh user: the insert succeeds whenever
    the id is unused. *)
Lemma insert_auth_user_fresh (now : timestamptz) (NEW : auth_users) (db : signup_db) :
  users db !! au_id NEW = None →
  profiles_tbl db !! au_id NEW = None →
  is_Some (insert_auth_user now NEW db).
Proof. unfold insert_auth_user. intros -> ->. eauto. Qed.

End SignupProfile.

Section RowLevelSecurity.
Import Sql Rls Examples.

Lemma sql_eq_true {A} `{EqDecision A} (a b : option A) :
  is_true (sql_eq a b) = true → a = b ∧ is_Some a.
Proof.
  destruct a, b; simpl; try discriminate.
  case_bool_decide; [|discriminate]. intros _. subst. eauto.
Qed.

Lemma exists_own_project_true db uid pid :
  is_true (exists_own_project db uid pid) = true →
  p_user_id <$> projects_tbl db !! pid = uid.
Proof.
  unfold exists_own_project.
  destruct (projects_tbl db !! pid) as [p|]; [|discriminate].
  destruct (is_true (sql_eq (Some (p_user_id p)) uid)) eqn:E; [|discriminate].
  apply sql_eq_true in E as [E _]. intros _. exact E.
Qed.

Lemma exists_own_report_true db uid rid :
  is_true (exists_own_report db uid rid) = true →
  r_user_id <$> reports_tbl db !! rid = uid.
Proof.
  unfold exists_own_report.
  destruct (reports_tbl db !! rid) as [r|]; [|discriminate].
  destruct (is_true (sql_eq (Some (r_user_id r)) uid)) eqn:E; [|discriminate].
  apply sql_eq_true in E as [E _]. intros _. exact E.
Qed.

Lemma permitted_guarded {row} (own : database → row → option uuid)
    (pols : list (policy row)) db u (op : operation row) :
  Forall (policy_guards own) pols →
  permitted db (Some u) pols op = true →
  ∀ r, r ∈ rows_of op → own db r = Some u.
Proof.
  intros Hall Hp r Hr.
  rewrite Forall_forall in Hall.
  destruct op as [x|x|x y|x]; simpl in Hp, Hr.
  - apply list_elem_of_singleton in Hr as ->.
    apply existsb_exists in Hp as ([e|e|e c|e] & Hin & He); try discriminate.
    apply list_elem_of_In, Hall in Hin. by apply Hin.
  - apply list_elem_of_singleton in Hr as ->.
    apply existsb_exists in Hp as ([e|e|e c|e] & Hin & He); try discriminate.
    apply list_elem_of_In, Hall in Hin. by apply Hin.
  - apply andb_true_iff in Hp as [Hu Hc].
    apply elem_of_cons in Hr as [->|Hr].
    + apply existsb_exists in Hu as ([e|e|e c|e] & Hin & He); try discriminate.
      apply list_elem_of_In, Hall in Hin as [Hg _]. by apply Hg.
    + apply list_elem_of_singleton in Hr as ->.
      apply existsb_exists in Hc as ([e|e|e c|e] & Hin & He); try discriminate.
      apply list_elem_of_In, Hall in Hin as [Hg Hc].
      destruct c as [c|]; simpl in *; [by apply Hc | by apply Hg].
  - apply list_elem_of_singleton in Hr as ->.
    apply existsb_exists in Hp as ([e|e|e c|e] & Hin & He); try discriminate.
    apply list_elem_of_In, Hall in Hin. by apply Hin.
Qed.

Lemma guards_direct {row} (f : row → uuid) :
  guards (λ _ r, Some (f r)) (λ _ uid r, sql_eq uid (Some (f r))).
Proof. intros db u r H%sql_eq_true. by destruct H as [-> _]. Qed.

Lemma projects_policies_guard : Forall (policy_guards own_project) projects_policies.
Proof. repeat constructor; apply (guards_direct p_user_id). Qed.

Lemma reports_policies_guard : Forall (policy_guards own_report) reports_policies.
Proof. repeat constructor; apply (guards_direct r_user_id). Qed.

Lemma keywords_policies_guard : Forall (policy_guards own_keyword) keywords_policies.
Proof.
  repeat constructor; intros db u k H; by apply exists_own_project_true.
Qed.

Lemma api_responses_policies_guard :
  Forall (policy_guards own_api_response) api_responses_policies.
Proof.
  repeat constructor; intros db u a H; by apply exists_own_report_true.
Qed.

(** C2. For each of projects, keywords, reports and api_responses and
    every authenticated user [u], the policies permit a select, insert,
    update or delete only on rows owned by [u] (directly through user_id,
    or through the owning project or report); so no statement that touches
    a row of another user [v] is permitted. *)
Theorem rls_only_own_rows (db : database) (u : uuid) (st : statement) :
  (rls_permits db (Some u) st = true → ∀ o, o ∈ owners db st → o = Some u)
  ∧ (∀ v, v ≠ u → Some v ∈ owners db st → rls_permits db (Some u) st = false).
Proof.
  assert (Hown : rls_permits db (Some u) st = true →
                 ∀ o, o ∈ owners db st → o = Some u).
  { intros Hp o Ho.
    destruct st as [op|op|op|op]; simpl in Hp, Ho;
      apply list_elem_of_fmap in Ho as (r & -> & Hr).
    - exact (permitted_guarded own_project _ db u op projects_policies_guard Hp r Hr).
    - exact (permitted_guarded own_keyword _ db u op keywords_policies_guard Hp r Hr).
    - exact (permitted_guarded own_report _ db u op reports_policies_guard Hp r Hr).
    - exact (permitted_guarded own_api_response _ db u op
               api_responses_policies_guard Hp r Hr). }
  split; [exact Hown|].
  intros v Hv Hin.
  destruct (rls_permits db (Some u) st) eqn:E; [|reflexivity].
  specialize (Hown eq_refl _ Hin). congruence.
Qed.

Lemma rls_only_own_rows_witness :
  rls_permits small_db (Some 7%N) (OnKeywords (OpUpdate ann_keyword ann_keyword)) = true
  ∧ ∀ o, o ∈ owners small_db (OnKeywords (OpUpdate ann_keyword ann_keyword)) →
         o = Some 7%N.
Proof.
  split; [reflexivity|].
  apply (proj1 (rls_only_own_rows small_db 7%N
                  (OnKeywords (OpUpdate ann_keyword ann_keyword)))).
  reflexivity.
Defined.

End RowLevelSecurity.


Section PlanLimitChecks.
Import PlanLimitsHook.

Lemma checkLimitReached_iff (limits : PlanLimits) (usage : Usage) (type : UsageKey) :
  checkLimitReached limits usage type = true
  ↔ ∃ limit, limit_of limits type = Some limit ∧ limit ≠ -1 ∧ usage_of usage type >= limit.
Proof.
  unfold checkLimitReached, strict_neq, js_ge.
  destruct (limit_of limits type) as [l|]; simpl.
  - rewrite andb_true_iff, negb_true_iff, Z.eqb_neq, Z.leb_le.
    split; [intros [? ?]; exists l; repeat split; [done | lia] |].
    intros (l' & [= <-] & ? & ?). split; [done | lia].
  - split; [discriminate | intros (? & ? & _); discriminate].
Qed.

Lemma checkLimitReached_unlimited (limits : PlanLimits) (usage : Usage) (type : UsageKey) :
  limit_of limits type = Some (-1) → checkLimitReached limits usage type = false.
Proof. unfold checkLimitReached. intros ->. reflexivity. Qed.

Lemma getUsagePercentage_unlimited (usage : Z) :
  getUsagePercentage usage (-1) = Fin 0.
Proof. reflexivity. Qed.

Lemma getUsagePercentage_range (usage limit : Z) :
  0 <= usage → 0 < limit →
  in_percent_range (getUsagePercentage usage limit).
Proof.
  intros Hu Hl. unfold getUsagePercentage.
  destruct (limit =? -1) eqn:E; [apply Z.eqb_eq in E; lia|].
  unfold js_div. destruct (limit =? 0) eqn:E0; [apply Z.eqb_eq in E0; lia|].
  simpl.
  assert (H0 : (0 <= inject_Z usage / inject_Z limit * 100)%Q).
  { apply Qmult_le_0_compat; [|discriminate].
    apply Qle_shift_div_l; [change 0%Q with (inject_Z 0); rewrite <- Zlt_Qlt; lia|].
    rewrite Qmult_0_l. change 0%Q with (inject_Z 0). rewrite <- Zle_Qle. lia. }
  destruct (Qle_bool _ 100) eqn:Hle.
  - split; [exact H0 | by apply Qle_bool_iff].
  - split; discriminate.
Qed.

(** C9. [getUsagePercentage] is to return a value of [0, 100] for every
    usage and limit; at usage 0 and limit 0 (the competitors limit of the
    trial plan, and every limit before the fetch completes) it divides
    zero by zero and returns NaN, which is not in the interval. *)
Theorem getUsagePercentage_zero_limit :
  limit_of (fetchPlanLimits (Some "trial") (λ plan, Some (Sql.get_plan_limits (Some plan)))
              initial_limits) competitors = Some 0
  ∧ getUsagePercentage 0 0 = NaN
  ∧ ¬ in_percent_range (getUsagePercentage 0 0).
Proof. split; [reflexivity|]. split; [reflexivity|]. simpl. tauto. Qed.

End PlanLimitChecks.

Section Sanitisation.
Import Js Validation.

Lemma chars_of_chars (l : list ascii) : chars (of_chars l) = l.
Proof. apply list_ascii_of_string_of_list_ascii. Qed.

Lemma remove_class_spec (cls : ascii → bool) (s : string) (c : ascii) :
  has_char c (remove_class cls s) → cls c = false.
Proof.
  unfold has_char, remove_class. rewrite chars_of_chars.
  intros H%list_elem_of_In%filter_In. by apply negb_true_iff, H.
Qed.

Lemma sanitizeInput_no_angle (input : string) :
  ¬ has_char "<" (sanitizeInput input) ∧ ¬ has_char ">" (sanitizeInput input).
Proof.
  split; intros H%remove_class_spec; discriminate.
Qed.

(** C10. For every input string, [sanitizeInput] returns a string with no
    '<' and no '>'; for every array, each element of the output of
    [sanitizeArray] is a non-empty string with no '<' and no '>'. *)
Theorem sanitize_no_angle_brackets :
  (∀ input : string,
     ¬ has_char "<" (sanitizeInput input) ∧ ¬ has_char ">" (sanitizeInput input))
  ∧ (∀ (array : list string) (item : string),
       item ∈ sanitizeArray array →
       item ≠ "" ∧ ¬ has_char "<" item ∧ ¬ has_char ">" item).
Proof.
  split; [exact sanitizeInput_no_angle|].
  intros array item Hin.
  apply list_elem_of_In, filter_In in Hin as [Hin Hlen].
  apply in_map_iff in Hin as (raw & <- & _).
  split; [|apply sanitizeInput_no_angle].
  intros E. rewrite E in Hlen. discriminate.
Qed.

Lemma sanitize_no_angle_brackets_witness :
  "a b" ∈ sanitizeArray ["  <a> b "; " <> "] ∧
  ("a b" ≠ "" ∧ ¬ has_char "<" "a b" ∧ ¬ has_char ">" "a b").
Proof.
  assert (H : "a b" ∈ sanitizeArray ["  <a> b "; " <> "]) by (vm_compute; left).
  split; [exact H|].
  exact (proj2 sanitize_no_angle_brackets ["  <a> b "; " <> "] "a b" H).
Defined.

End Sanitisation.

Section RateLimiterWindow.
Import Validation.
Context (maxRequests windowMs : Z).

Abbreviation limiter := (createRateLimiter maxRequests windowMs).
Abbreviation run := (run maxRequests windowMs).
Abbreviation answered := (answered maxRequests windowMs).

Lemma limiter_lookup (st : gmap string (list Z)) (key : string) :
  default [] (match st !! key with
              | None => <[key := []]> st
              | Some _ => st
              end !! key) = default [] (st !! key).
Proof.
  destruct (st !! key) eqn:E; [by rewrite E|].
  by rewrite lookup_insert_eq.
Qed.

Lemma limiter_answer (st : gmap string (list Z)) (key : string) (now : Z) :
  (limiter st key now).1
  = negb (maxRequests <=?
            Z.of_nat (List.length
              (List.filter (λ time, now - windowMs <? time) (default [] (st !! key))))).
Proof.
  unfold Validation.createRateLimiter. rewrite limiter_lookup.
  by destruct (maxRequests <=? _).
Qed.

Lemma limiter_store (st : gmap string (list Z)) (key : string) (now : Z) (key' : string) :
  default [] ((limiter st key now).2 !! key')
  = if decide (key' = key) then
      (if (limiter st key now).1
       then List.filter (λ time, now - windowMs <? time) (default [] (st !! key)) ++ [now]
       else default [] (st !! key))
    else default [] (st !! key').
Proof.
  unfold Validation.createRateLimiter. rewrite limiter_lookup.
  destruct (maxRequests <=? _); simpl; case_decide as Hk; subst.
  - apply limiter_lookup.
  - destruct (st !! key); [done|]. by rewrite lookup_insert_ne.
  - by rewrite lookup_insert_eq.
  - rewrite lookup_insert_ne by done.
    destruct (st !! key); [done|]. by rewrite lookup_insert_ne.
Qed.

Lemma run_app (st : gmap string (list Z)) (a b : list (string * Z)) :
  run st (a ++ b) = ((run st a).1 ++ (run (run st a).2 b).1, (run (run st a).2 b).2).
Proof.
  revert st. induction a as [|[k t] a IH]; intros st; simpl.
  - by destruct (run st b).
  - destruct (Validation.createRateLimiter _ _ st k t) as [ok st'].
    rewrite IH. destruct (run st' a) as [oa sa]. simpl.
    by destruct (run sa b).
Qed.

Lemma run_length (st : gmap string (list Z)) (calls : list (string * Z)) :
  List.length (run st calls).1 = List.length calls.
Proof.
  revert st. induction calls as [|[k t] calls IH]; intros st; simpl; [done|].
  destruct (Validation.createRateLimiter _ _ st k t) as [ok st'].
  specialize (IH st'). destruct (run st' calls). simpl in *. by rewrite IH.
Qed.

Lemma answered_snoc (pre : list (string * Z)) (key : string) (now : Z) :
  answered (pre ++ [(key, now)])
  = answered pre ++ [(key, now, (limiter (run ∅ pre).2 key now).1)].
Proof.
  unfold Validation.answered. rewrite run_app. simpl.
  rewrite zip_with_app by (by rewrite run_length).
  f_equal. simpl.
  by destruct (Validation.createRateLimiter _ _ _ key now).
Qed.

Lemma run_snoc_state (pre : list (string * Z)) (key : string) (now : Z) :
  (run ∅ (pre ++ [(key, now)])).2 = (limiter (run ∅ pre).2 key now).2.
Proof.
  rewrite run_app. simpl. by destruct (Validation.createRateLimiter _ _ _ key now).
Qed.

Lemma monotone_snoc (pre : list (string * Z)) (c : string * Z) :
  monotone (pre ++ [c]) → monotone pre ∧ ∀ c', c' ∈ pre → c'.2 ≤ c.2.
Proof.
  intros Hm. split.
  - intros i j ci cj Hij Hi Hj.
    apply (Hm i j ci cj Hij); by apply lookup_app_l_Some.
  - intros c' [i Hi]%list_elem_of_lookup.
    apply (Hm i (List.length pre) c' c).
    + apply lookup_lt_Some in Hi. lia.
    + by apply lookup_app_l_Some.
    + by rewrite list_lookup_middle.
Qed.

Lemma count_true_snoc key inside (log : list (string * Z * bool)) k t ok :
  count_true key inside (log ++ [(k, t, ok)])
  = count_true key inside log
    + (if ok && bool_decide (k = key) && inside t then 1 else 0).
Proof.
  unfold count_true. rewrite List.filter_app, length_app. simpl.
  destruct (ok && bool_decide (k = key) && inside t); simpl; lia.
Qed.

Lemma count_true_mono key (P Q : Z → bool) (log : list (string * Z * bool)) :
  (∀ t, P t = true → Q t = true) →
  count_true key P log ≤ count_true key Q log.
Proof.
  intros HPQ. unfold count_true.
  induction log as [|[[k t] ok] log IH]; simpl; [lia|].
  destruct (ok && bool_decide (k = key)); simpl; [|lia].
  destruct (P t) eqn:EP.
  - rewrite (HPQ _ EP). simpl. lia.
  - destruct (Q t); simpl; lia.
Qed.

Lemma count_true_nonneg key P (log : list (string * Z * bool)) :
  0 ≤ count_true key P log.
Proof. unfold count_true. lia. Qed.

(** The stored list of a key, cut at any bound not older than the window
    of the latest call, is the list of the accepted time stamps of that key
    after the bound. *)
Lemma store_invariant (calls : list (string * Z)) :
  monotone calls →
  ∀ key lo, (∀ c, c ∈ calls → c.2 - windowMs ≤ lo) →
    List.filter (λ time, lo <? time) (default [] ((run ∅ calls).2 !! key))
    = (λ x : string * Z * bool, x.1.2) <$>
        List.filter (λ '(k, t, ok), ok && bool_decide (k = key) && (lo <? t))
          (answered calls).
Proof.
  induction calls as [|[k now] pre IH] using rev_ind; intros Hm key lo Hlo.
  { done. }
  apply monotone_snoc in Hm as [Hm Hle]. simpl in Hle.
  assert (Hpre : ∀ c, c ∈ pre → c.2 - windowMs ≤ lo).
  { intros c Hc. apply Hlo. apply elem_of_app. by left. }
  assert (Hnow : now - windowMs ≤ lo).
  { apply (Hlo (k, now)). apply elem_of_app. right. by apply list_elem_of_singleton. }
  rewrite run_snoc_state, answered_snoc, List.filter_app, fmap_app, limiter_store.
  rewrite <- (IH Hm key lo Hpre). simpl.
  case_decide as Hk.
  - subst key. rewrite bool_decide_eq_true_2, andb_true_r by done.
    destruct (limiter _ k now).1 eqn:Eok; simpl.
    + rewrite List.filter_app. simpl. f_equal.
      * induction (default [] _) as [|x l IHl]; simpl; [done|].
        destruct (now - windowMs <? x) eqn:E1; simpl.
        -- destruct (lo <? x); by rewrite IHl.
        -- destruct (lo <? x) eqn:E2; [|done].
           apply Z.ltb_lt in E2. apply Z.ltb_ge in E1. lia.
      * by destruct (lo <? now).
    + by rewrite app_nil_r.
  - rewrite bool_decide_eq_false_2, andb_false_r by done. simpl.
    by rewrite app_nil_r.
Qed.

Lemma limiter_accepts (pre : list (string * Z)) (key : string) (now : Z) :
  monotone (pre ++ [(key, now)]) →
  (limiter (run ∅ pre).2 key now).1 = true
  ↔ count_true key (λ t, now - windowMs <? t) (answered pre) < maxRequests.
Proof.
  intros [Hm Hle]%monotone_snoc. simpl in Hle.
  rewrite limiter_answer, negb_true_iff, Z.leb_gt.
  rewrite (store_invariant pre Hm key (now - windowMs)).
  - unfold count_true. by rewrite length_fmap.
  - intros c Hc. specialize (Hle c Hc). lia.
Qed.

Lemma window_bound (calls : list (string * Z)) :
  monotone calls → 0 ≤ maxRequests →
  ∀ key lo hi, hi - lo < windowMs →
    count_true key (λ t, (lo <=? t) && (t <=? hi)) (answered calls) ≤ maxRequests.
Proof.
  induction calls as [|[k now] pre IH] using rev_ind; intros Hm Hmax key lo hi Hw.
  { done. }
  pose proof (monotone_snoc _ _ Hm) as [Hm' _].
  rewrite answered_snoc, count_true_snoc.
  specialize (IH Hm' Hmax key lo hi Hw).
  destruct (limiter _ k now).1 eqn:Eok; simpl; [|lia].
  case_bool_decide as Hk; simpl; [subst k|lia].
  destruct ((lo <=? now) && (now <=? hi)) eqn:Ein; [|lia].
  apply andb_true_iff in Ein as [Hlo%Z.leb_le Hhi%Z.leb_le].
  apply limiter_accepts in Eok; [|done].
  pose proof (count_true_mono key (λ t, (lo <=? t) && (t <=? hi))
                (λ t, now - windowMs <? t) (answered pre)) as Hmono.
  assert (count_true key (λ t, (lo <=? t) && (t <=? hi)) (answered pre)
          ≤ count_true key (λ t, now - windowMs <? t) (answered pre)); [|lia].
  apply Hmono. intros t [?%Z.leb_le ?%Z.leb_le]%andb_true_iff.
  apply Z.ltb_lt. lia.
Qed.

Lemma monotone_prefix (a b : list (string * Z)) : monotone (a ++ b) → monotone a.
Proof.
  intros Hm i j ci cj Hij Hi Hj.
  apply (Hm i j ci cj Hij); by apply lookup_app_l_Some.
Qed.

Lemma answered_app (a b : list (string * Z)) :
  answered (a ++ b) = answered a ++ zip b (run (run ∅ a).2 b).1.
Proof.
  unfold Validation.answered. rewrite run_app. simpl.
  by rewrite zip_with_app by (by rewrite run_length).
Qed.

Lemma answered_length (calls : list (string * Z)) :
  List.length (answered calls) = List.length calls.
Proof.
  unfold Validation.answered. rewrite length_zip_with, run_length. lia.
Qed.

Lemma answer_at (calls : list (string * Z)) (i : nat) (key : string) (now : Z) :
  calls !! i = Some (key, now) →
  (run ∅ calls).1 !! i = Some (limiter (run ∅ (take i calls)).2 key now).1
  ∧ take i (answered calls) = answered (take i calls).
Proof.
  intros Hi.
  pose proof (lookup_lt_Some _ _ _ Hi) as Hlt.
  rewrite <- (take_drop_middle calls i (key, now) Hi) at 1 3.
  assert (Hlen : List.length (take i calls) = i) by (rewrite length_take; lia).
  split.
  - rewrite run_app. simpl.
    destruct (Validation.createRateLimiter _ _ _ key now) as [ok st'] eqn:E.
    destruct (run st' (drop (S i) calls)) as [oks fin]. simpl.
    rewrite <- Hlen at 1. rewrite <- (run_length ∅ (take i calls)).
    by rewrite list_lookup_middle.
  - rewrite answered_app.
    rewrite <- Hlen at 1. rewrite <- (answered_length (take i calls)).
    by rewrite take_app_length.
Qed.

(** C8 (as amended). For the limiter of [createRateLimiter(maxRequests,
    windowMs)], any key and any sequence of calls made with a clock that
    does not go back:
    a call returns true if and only if strictly fewer than [maxRequests]
    earlier calls for the same key returned true with a time stamp within
    the preceding [windowMs] (later than [now - windowMs]); consequently,
    in any interval of time that spans less than [windowMs], at most
    [maxRequests] calls for a key return true. *)
Theorem rate_limiter_window (calls : list (string * Z)) :
  monotone calls →
  (∀ i key now, calls !! i = Some (key, now) →
     (run ∅ calls).1 !! i = Some true
     ↔ count_true key (λ t, now - windowMs <? t) (take i (answered calls))
       < maxRequests)
  ∧ (0 ≤ maxRequests →
     ∀ key lo hi, hi - lo < windowMs →
       count_true key (λ t, (lo <=? t) && (t <=? hi)) (answered calls) ≤ maxRequests).
Proof.
  intros Hm. split; [|intros Hmax; by apply window_bound].
  intros i key now Hi.
  destruct (answer_at calls i key now Hi) as [-> ->].
  rewrite <- limiter_accepts.
  - split; [by intros [= ->] | by intros ->].
  - apply (monotone_prefix _ (drop (S i) calls)).
    rewrite <- app_assoc. simpl. by rewrite take_drop_middle.
Qed.

End RateLimiterWindow.

Lemma rate_limiter_window_witness :
  Validation.monotone [("u", 0); ("u", 5); ("u", 1000); ("v", 1000)]
  ∧ (Validation.run 1 1000 ∅ [("u", 0); ("u", 5); ("u", 1000); ("v", 1000)]).1
    = [true; false; true; true]
  ∧ ((Validation.run 1 1000 ∅ [("u", 0); ("u", 5); ("u", 1000); ("v", 1000)]).1 !! 1%nat
       = Some true
     ↔ Validation.count_true "u" (λ t, 5 - 1000 <? t)
         (take 1 (Validation.answered 1 1000 [("u", 0); ("u", 5); ("u", 1000); ("v", 1000)]))
       < 1).
Proof.
  assert (Hm : Validation.monotone [("u", 0); ("u", 5); ("u", 1000); ("v", 1000)]).
  { intros i j ci cj Hij Hi Hj.
    destruct i as [|[|[|[|i]]]]; destruct j as [|[|[|[|j]]]];
      simpl in Hi, Hj; simplify_eq; simpl; lia. }
  split; [exact Hm|]. split; [reflexivity|].
  exact (proj1 (rate_limiter_window 1 1000 _ Hm) 1%nat "u" 5 eq_refl).
Defined.

(** C8 as first stated fails twice.  An interval of length [windowMs] can
    hold more than [maxRequests] accepted calls of a key: with one request
    per 1000 ms, the calls at 0 and at 1000 are both accepted, and both lie
    in the interval from 0 to 1000.  And when the clock goes back a call
    is accepted although [maxRequests] earlier accepted calls are later
    than its window start: with two requests per 10 ms, the call at 95 is
    accepted after the accepted calls at 100 and at 200. *)
Lemma rate_limiter_window_counterexample :
  ((Validation.run 1 1000 ∅ [("u", 0); ("u", 1000)]).1 = [true; true]
   ∧ 1000 - 0 = 1000
   ∧ Validation.count_true "u" (λ t, (0 <=? t) && (t <=? 1000))
       (Validation.answered 1 1000 [("u", 0); ("u", 1000)]) = 2
   ∧ ¬ 2 ≤ 1)
  ∧ ((Validation.run 2 10 ∅ [("u", 100); ("u", 200); ("u", 95)]).1 !! 2%nat = Some true
     ∧ Validation.count_true "u" (λ t, 95 - 10 <? t)
         (take 2 (Validation.answered 2 10 [("u", 100); ("u", 200); ("u", 95)])) = 2
     ∧ ¬ 2 < 2).
Proof.
  split; (split; [reflexivity|]); [split; [reflexivity|]|]; (split; [reflexivity | lia]).
Qed.


Section SampleTrendData.
Import Historical.

Lemma days_from_to_S (first : Z) (n : nat) :
  days_from_to first (S n) = first :: days_from_to (first + 1) n.
Proof.
  unfold days_from_to. simpl. f_equal; [f_equal; lia|].
  rewrite <- fmap_S_seq, <- list_fmap_compose.
  apply list_fmap_ext. intros _ k _. simpl. lia.
Qed.

(** Where the offset never changes, a calendar day is 24 hours. *)
Lemma setDate_plus_fixed (tz : TimeZone) (c : Z) :
  (∀ t isUTC, LocalTZA tz t isUTC = c) →
  ∀ d n, setDate_plus tz d n = d + n * msPerDay.
Proof. intros H d n. unfold setDate_plus, UTC_of, LocalTime_of. rewrite !H. lia. Qed.

Lemma next_day (tz : TimeZone) (c : Z) (current : Z) :
  (∀ t isUTC, LocalTZA tz t isUTC = c) →
  setDate_plus tz current 1 / msPerDay = current / msPerDay + 1.
Proof. intros H. rewrite (setDate_plus_fixed tz c H). by rewrite Z.div_add. Qed.

Lemma sample_loop_cons tz sin random startDate endDate comp index current draws :
  current ≤ endDate →
  sample_loop tz sin random startDate endDate comp index current draws
  = sample_point sin random startDate comp index current draws
      :: sample_loop tz sin random startDate endDate comp index
           (setDate_plus tz current 1) (draws + 3)%nat.
Proof.
  intros H. rewrite sample_loop_equation_1.
  destruct (Z_le_gt_dec current endDate); [|lia].
  by rewrite sample_loop_clause_1_equation_1.
Qed.

Lemma sample_loop_nil tz sin random startDate endDate comp index current draws :
  endDate < current →
  sample_loop tz sin random startDate endDate comp index current draws = [].
Proof.
  intros H. rewrite sample_loop_equation_1.
  destruct (Z_le_gt_dec current endDate); [lia | done].
Qed.


(** In a zone of fixed offset the loop pushes one point for each day from
    the day of [current] to the last day that starts no later than
    [endDate]. *)
Lemma sample_loop_dates tz c sin random startDate endDate comp index (n : nat) :
  (∀ t isUTC, LocalTZA tz t isUTC = c) →
  ∀ current draws,
    current + Z.of_nat n * msPerDay ≤ endDate < current + (Z.of_nat n + 1) * msPerDay →
    date <$> sample_loop tz sin random startDate endDate comp index current draws
    = days_from_to (current / msPerDay) (S n).
Proof.
  intros Hfixed.
  induction n as [|n IH]; intros current draws Hrange.
  - rewrite sample_loop_cons by (unfold msPerDay in *; lia).
    rewrite sample_loop_nil
      by (rewrite (setDate_plus_fixed tz c Hfixed); unfold msPerDay in *; lia).
    unfold days_from_to. simpl. f_equal. lia.
  - rewrite sample_loop_cons by (unfold msPerDay in *; lia).
    rewrite days_from_to_S, <- (next_day tz c current Hfixed), fmap_cons. f_equal.
    apply IH. rewrite (setDate_plus_fixed tz c Hfixed). unfold msPerDay in *. lia.
Qed.

Lemma sample_loop_count tz c sin random startDate endDate comp index current draws :
  (∀ t isUTC, LocalTZA tz t isUTC = c) →
  date <$> sample_loop tz sin random startDate endDate comp index current draws
  = days_from_to (current / msPerDay)
      (Z.to_nat ((endDate - current) / msPerDay + 1)).
Proof.
  intros Hfixed. destruct (Z_le_gt_dec current endDate) as [Hle|Hgt].
  - assert (Hq : 0 ≤ (endDate - current) / msPerDay)
      by (apply Z.div_pos; [lia | done]).
    replace (Z.to_nat ((endDate - current) / msPerDay + 1))
      with (S (Z.to_nat ((endDate - current) / msPerDay))) by lia.
    apply (sample_loop_dates tz c); [done|].
    rewrite Z2Nat.id by done.
    pose proof (Z.mul_div_le (endDate - current) msPerDay eq_refl).
    pose proof (Z.mul_succ_div_gt (endDate - current) msPerDay eq_refl).
    lia.
  - rewrite sample_loop_nil by lia.
    assert (Hq : (endDate - current) / msPerDay < 0)
      by (apply Z.div_lt_upper_bound; [done | lia]).
    by replace (Z.to_nat ((endDate - current) / msPerDay + 1)) with 0%nat by lia.
Qed.


Lemma trend_entries_lookup (w : World) (startDate : Z) (names : list string) :
  ∀ index draws i entry,
    trend_entries w startDate index draws names !! i = Some entry →
    ∃ name dr,
      names !! i = Some name
      ∧ entry = trend_entry name
                  (generateSampleHistoricalData (zone w) (Math_sin w) (Math_random w)
                     startDate (clock w (S (index + i))) name (index + i)%nat dr).
Proof.
  induction names as [|name names IH]; intros index draws i entry Hi; [done|].
  cbn [trend_entries] in Hi. destruct i as [|i].
  - injection Hi as <-. exists name, draws. by rewrite Nat.add_0_r.
  - apply IH in Hi as (nm & dr & Hnm & ->). exists nm, dr.
    replace (index + S i)%nat with (S index + i)%nat by lia. done.
Qed.


(** In a zone of fixed offset the series of the entry at [i] has one point
    per UTC day, from the day of the first clock reading minus [range] on,
    as far as the clock reading of that entry reaches. *)
Lemma getHistoricalData_dates (w : World) (projectId : string)
    (keywordId : option string) (timeRange : option TimeRange)
    (competitors : option (list string)) (i : nat) (entry : CompetitorTrendData) :
  fixed_offset (zone w) →
  getHistoricalData w projectId keywordId timeRange competitors !! i = Some entry →
  date <$> data entry
  = days_from_to (clock w 0 / msPerDay - days (default range_30d timeRange))
      (Z.to_nat ((clock w (S i) - clock w 0) / msPerDay
                 + days (default range_30d timeRange) + 1)).
Proof.
  intros [c Hfixed] Hi. unfold getHistoricalData in Hi.
  apply trend_entries_lookup in Hi as (name & dr & _ & ->).
  cbn [data trend_entry]. unfold generateSampleHistoricalData.
  rewrite (sample_loop_count (zone w) c) by done.
  rewrite !(setDate_plus_fixed (zone w) c Hfixed). cbn [Nat.add].
  f_equal.
  - replace (clock w 0 + - days (default range_30d timeRange) * msPerDay)
      with (clock w 0 + (- days (default range_30d timeRange)) * msPerDay) by lia.
    rewrite Z.div_add by done. lia.
  - f_equal.
    replace (clock w (S i)
             - (clock w 0 + - days (default range_30d timeRange) * msPerDay))
      with (clock w (S i) - clock w 0
            + days (default range_30d timeRange) * msPerDay) by lia.
    rewrite Z.div_add by done. lia.
Qed.




End SampleTrendData.

Section ReportGeneration.
Import Json ProjectDetails.

Lemma bind_normal {A B} (c : completion A) (f : A → completion B) (b : B) :
  bind c f = Normal b → ∃ a, c = Normal a ∧ f a = Normal b.
Proof. destruct c as [a|e]; simpl; [eauto | discriminate]. Qed.

Lemma parseBrandAnalysis_keyword (content keyword brandName : string) r :
  OpenAI.parseBrandAnalysis content keyword brandName = Normal r →
  OpenAI.keyword r = keyword.
Proof.
  unfold OpenAI.parseBrandAnalysis. intros H.
  repeat (apply bind_normal in H as (? & _ & H)).
  by injection H as <-.
Qed.

Lemma analyze_keyword (b : Backend) (st : State) (n : nat) (kw : Keyword) r :
  analyze b st n kw = Normal r →
  OpenAI.keyword (OpenAI.analysis r) = keyword kw.
Proof.
  unfold analyze, OpenAI.analyzeBrandMention.
  destruct (openai b n _) as [| | |c]; try discriminate.
  destruct (OpenAI.parseBrandAnalysis _ _ _) as [a|e] eqn:E; [|discriminate].
  intros [= <-]. simpl. by eapply parseBrandAnalysis_keyword.
Qed.

Lemma successes_keyword (b : Backend) (st : State) (kws : list Keyword) :
  ∀ n kw r, (kw, r) ∈ successes b st n kws →
    kw ∈ kws ∧ OpenAI.keyword (OpenAI.analysis r) = keyword kw.
Proof.
  induction kws as [|k kws IH]; intros n kw r Hin; simpl in Hin.
  { by apply elem_of_nil in Hin. }
  destruct (analyze b st n k) as [res|e] eqn:E.
  - apply elem_of_cons in Hin as [[= -> ->]|Hin].
    + split; [left | by eapply analyze_keyword].
    + destruct (IH _ _ _ Hin). split; [by right | done].
  - destruct (IH _ _ _ Hin). split; [by right | done].
Qed.

(** The loop calls the analysis once per keyword, in order, and pushes
    and stores exactly the results of the calls that return. *)
Lemma analyze_each_trace (b : Backend) (st : State) (rid : string)
    (kws : list Keyword) :
  ∀ n results,
    analyze_calls (analyze_each b st rid n kws results).2 = keyword <$> kws
    ∧ (analyze_each b st rid n kws results).1
      = results ++ (snd <$> successes b st n kws)
    ∧ api_response_rows (analyze_each b st rid n kws results).2
      = (λ s, (rid, keyword s.1, s.2)) <$> successes b st n kws.
Proof.
  induction kws as [|kw kws IH]; intros n results; simpl.
  { by rewrite app_nil_r. }
  destruct (analyze b st n kw) as [res|e] eqn:E.
  - specialize (IH (S n) (results ++ [res])).
    destruct (analyze_each b st rid (S n) kws (results ++ [res])) as [final later].
    simpl in *. destruct IH as (Hc & Hf & Hr).
    unfold analyze_calls, api_response_rows in *. simpl.
    rewrite !omap_app, Hc, Hf, Hr, <- app_assoc.
    by destruct (insert_api_response b n).
  - specialize (IH (S n) results).
    destruct (analyze_each b st rid (S n) kws results) as [final later].
    simpl in *. destruct IH as (Hc & Hf & Hr).
    unfold analyze_calls, api_response_rows in *. simpl.
    by rewrite Hc, Hf, Hr.
Qed.

(** C3 (as amended). For every project whose keyword list is non-empty,
    once an API key has been entered and the report row has been created,
    [handleGenerateReport] calls [analyzeBrandMention] exactly once per
    keyword, in the order of the keyword list; each call that returns
    appends exactly one result, which carries that keyword, to the results,
    and sends one api_responses row for that keyword and that report. *)
Theorem handleGenerateReport_per_keyword (b : Backend) (st : State)
    (p : Project) (rid : string) :
  project st = Some p →
  keywords st ≠ [] →
  Js.trim (openaiApiKey st) ≠ "" →
  insert_report b (id p) (user_id p) = Some rid →
  analyze_calls (handleGenerateReport b st).2 = keyword <$> keywords st
  ∧ brandTrackingResults (handleGenerateReport b st).1
    = snd <$> successes b st 0 (keywords st)
  ∧ api_response_rows (handleGenerateReport b st).2
    = (λ s, (rid, keyword s.1, s.2)) <$> successes b st 0 (keywords st)
  ∧ (∀ kw r, (kw, r) ∈ successes b st 0 (keywords st) →
       OpenAI.keyword (OpenAI.analysis r) = keyword kw).
Proof.
  intros Hp Hk Hkey Hins. unfold handleGenerateReport.
  rewrite Hp, Hins, !bool_decide_eq_false_2 by done.
  pose proof (analyze_each_trace b st rid (keywords st) 0 []) as (Hc & Hf & Hr).
  destruct (analyze_each b st rid 0 (keywords st) []) as [results events].
  simpl in *. unfold analyze_calls, api_response_rows in *. simpl.
  rewrite !omap_app. simpl. rewrite !app_nil_r.
  repeat split; try done.
  intros kw r Hin. by eapply successes_keyword.
Qed.

Lemma handleGenerateReport_per_keyword_witness :
  analyze_calls (handleGenerateReport Examples.shoes_backend (Examples.shoes_page "sk-1")).2
    = ["running shoes"; "trail shoes"]
  ∧ List.length
      (brandTrackingResults
         (handleGenerateReport Examples.shoes_backend (Examples.shoes_page "sk-1")).1)
    = 1%nat.
Proof.
  destruct (handleGenerateReport_per_keyword Examples.shoes_backend
              (Examples.shoes_page "sk-1") Examples.shoes_project "r1")
    as (Hcalls & Hresults & _).
  - reflexivity.
  - discriminate.
  - vm_compute. discriminate.
  - reflexivity.
  - split; [exact Hcalls|]. rewrite Hresults. reflexivity.
Defined.

(** Without an API key the handler stops at its first guard: the project
    has keywords and not one of them is analysed. *)
Lemma handleGenerateReport_blank_key :
  project (Examples.shoes_page "  ") = Some Examples.shoes_project
  ∧ keywords (Examples.shoes_page "  ") ≠ []
  ∧ handleGenerateReport Examples.shoes_backend (Examples.shoes_page "  ")
    = (Examples.shoes_page "  ", [Toast "API Key Required"])
  ∧ analyze_calls
      (handleGenerateReport Examples.shoes_backend (Examples.shoes_page "  ")).2
    ≠ keyword <$> keywords (Examples.shoes_page "  ").
Proof.
  split; [reflexivity|]. split; [discriminate|]. split; [reflexivity|].
  vm_compute. discriminate.
Qed.

End ReportGeneration.

Section RegexFacts.
Import Js Regex TextFallback.
Context {R : Type}.


Lemma run_chr (c : ascii) (s : list ascii) cap
    (k : list ascii → option (list ascii) → option R) :
  run (chr c) s cap k
  = match s with
    | x :: s' => if bool_decide (x = c) then k s' cap else None
    | [] => None
    end.
Proof. done. Qed.










Section Tails.
Context (k : list ascii → option (list ascii) → option R).
Context (Hk : ∀ s c, is_Some (k s c)).






End Tails.

End RegexFacts.

Section TextExtractors.
Import Js Json Regex TextFallback OpenAI.






















(** Twenty nines are read as the double [10^20]. *)
Example parseInt_rounds :
  parseInt (Some "99999999999999999999") = JNum 100000000000000000000 0.
Proof. by vm_compute. Qed.

(** The integer must follow the word directly: one that comes later in the
    sentence is not read. *)
Example extractors_need_adjacent_integer :
  extractPosition "position is 3" = JNull
  ∧ extractConfidence "confidence level: 85" = JNum 50 0
  ∧ extractPosition "POSITION:   3" = JNum 3 0.
Proof. repeat split; reflexivity. Qed.

End TextExtractors.

Section JsonObjects.
Import Js Json.

Lemma lex_default_extends c out st out' :
  lex_default c out = Some (st, out') → ∃ new, out' = new ++ out.
Proof.
  unfold lex_default.
  repeat (case_match; [intros [= <- <-]; try (by exists []); by eexists [_] |]).
  done.
Qed.

Lemma lex_step_extends st out c st' out' :
  lex_step st out c = Some (st', out') → ∃ new, out' = new ++ out.
Proof.
  destruct st; simpl.
  - apply lex_default_extends.
  - repeat case_match; intros [= <- <-]; try (by exists []); by eexists [_].
  - repeat case_match; intros [= <- <-]; try (by exists []); by eexists [_].
  - repeat case_match; intros [= <- <-]; try (by exists []); by eexists [_].
  - repeat case_match; try done; try (intros [= <- <-]; by exists []).
    intros [new ->]%lex_default_extends. exists (new ++ [t]). by rewrite <- app_assoc.
  - repeat case_match; try done; try (intros [= <- <-]; by exists []).
    intros [new ->]%lex_default_extends. exists (new ++ [t]). by rewrite <- app_assoc.
Qed.

Lemma lex_extends (input : list ascii) :
  ∀ st out ts, lex st out input = Some ts → ∃ more, ts = rev out ++ more.
Proof.
  induction input as [|c input IH]; intros st out ts; simpl.
  - destruct st; try done.
    + intros [= <-]. exists []. by rewrite app_nil_r.
    + destruct (number_of_lexeme _); [|done]. intros [= <-]. simpl. eauto.
    + destruct (word_token _); [|done]. intros [= <-]. simpl. eauto.
  - destruct (lex_step st out c) as [[st' out']|] eqn:E; [|done].
    intros [more ->]%IH. apply lex_step_extends in E as [new ->].
    rewrite rev_app_distr, <- app_assoc. eauto.
Qed.

Lemma deliver_rooted v up fields key stack' m' :
  deliver v (up ++ [InObject fields key]) = Some (stack', m') → rooted stack' m'.
Proof.
  destruct up as [|[items|fields' [key'|]] up]; simpl.
  - destruct key as [k|]; [|done]. intros [= <- <-]. left. by exists [], ((k, v) :: fields), None.
  - intros [= <- <-]. left. by exists (InArray (v :: items) :: up), fields, key.
  - intros [= <- <-]. left.
    by exists (InObject ((key', v) :: fields') None :: up), fields, key.
  - done.
Qed.

Lemma rooted_push top up fields key m :
  rooted (top :: up ++ [InObject fields key]) m.
Proof. left. by exists (top :: up), fields, key. Qed.

Lemma parse_step_rooted stack m t stack' m' :
  rooted stack m → parse_step stack m t = Some (stack', m') → rooted stack' m'.
Proof.
  intros [(up & fields & key & ->)|[-> [fields ->]]]; [|by destruct t].
  destruct t; simpl;
    try (destruct (wants_value m); [|done]);
    try (by apply deliver_rooted);
    try (intros [= <- <-]; by apply rooted_push).
  - (* closing brace *)
    destruct up as [|[items|fs [k|]] up]; simpl.
    + destruct m, key; try done; intros [= <- <-]; right; eauto.
    + by destruct m.
    + by destruct m.
    + destruct m; try done; by apply deliver_rooted.
  - (* closing bracket *)
    destruct up as [|[items|fs k] up]; simpl.
    + by destruct m.
    + destruct m; try done; by apply deliver_rooted.
    + by destruct m.
  - (* colon *)
    destruct m; try done. intros [= <- <-]. left. eauto.
  - (* comma *)
    destruct up as [|[items|fs [k|]] up]; simpl.
    + destruct m, key; try done. intros [= <- <-]. left. by exists [], fields, None.
    + destruct m; try done. intros [= <- <-]. by apply rooted_push.
    + by destruct m.
    + destruct m; try done. intros [= <- <-]. by apply rooted_push.
  - (* string *)
    destruct up as [|[items|fs [k|]] up]; simpl.
    + destruct m, key; try done; intros [= <- <-]; left; by eexists [], _, _.
    + destruct m; try done; by apply (deliver_rooted _ (InArray items :: up)).
    + destruct m; try done; by apply (deliver_rooted _ (InObject fs (Some k) :: up)).
    + destruct m; try done;
        try (by apply (deliver_rooted _ (InObject fs None :: up)));
        intros [= <- <-]; by apply rooted_push.
Qed.

Lemma parse_tokens_rooted (ts : list token) :
  ∀ stack m v, rooted stack m → parse_tokens stack m ts = Some v →
    ∃ fields, v = JObj fields.
Proof.
  induction ts as [|t ts IH]; intros stack m v Hroot; simpl.
  - destruct Hroot as [(up & fields & key & ->)|[-> [fields ->]]].
    + destruct m; try done. by destruct up.
    + intros [= <-]. eauto.
  - destruct (parse_step stack m t) as [[stack' m']|] eqn:E; [|done].
    apply IH. by eapply parse_step_rooted.
Qed.

(** A text that starts with an opening brace parses, if at all, to an
    object. *)
Lemma parse_brace_object (text : string) (rest : list ascii) (v : JsValue) :
  chars text = "{"%char :: rest → parse text = Some v → ∃ fields, v = JObj fields.
Proof.
  unfold parse. intros ->.
  destruct (lex LDefault [] _) as [ts|] eqn:E; [|done].
  simpl in E. apply lex_extends in E as [more ->]. simpl.
  apply parse_tokens_rooted. left. by exists [], [], None.
Qed.

End JsonObjects.

Section ParserCompletions.
Import Js Json Regex OpenAI.

Lemma star_result {R} (p : ascii → bool) (k : list ascii → option R) (s : list ascii) r :
  star p s k = Some r →
  ∃ s', k s' = Some r ∧ (List.length s' ≤ List.length s)%nat.
Proof.
  induction s as [|c s IH]; simpl.
  - intros H. by exists [].
  - destruct (p c); [|intros H; by exists (c :: s)].
    destruct (star p s k) as [r'|] eqn:E.
    + intros [= ->]. destruct (IH eq_refl) as (s' & Hs' & Hlen).
      exists s'. split; [done | lia].
    + intros H. by exists (c :: s).
Qed.

(** The text matched by [jsonRegex] starts with an opening brace. *)
Lemma jsonRegex_block (content block : string) group :
  str_match jsonRegex content = Some (block, group) →
  ∃ rest, chars block = "{"%char :: rest.
Proof.
  unfold str_match.
  destruct (search jsonRegex (chars content)) as [[m0 m1]|] eqn:E; [|done].
  intros [= <- _]. unfold chars at 1, of_chars.
  rewrite list_ascii_of_string_of_list_ascii.
  induction (chars content) as [|c s IH]; simpl in E; [done|].
  destruct (match_here jsonRegex (c :: s)) as [m|] eqn:Em; [|by apply IH].
  injection E as ->. clear IH.
  unfold match_here, jsonRegex in Em.
  change (run (Seq ?a ?b) ?x ?cap ?k)
    with (run a x cap (λ s' cap', run b s' cap' k)) in Em.
  rewrite run_chr in Em.
  case_bool_decide; [subst c|done].
  change (star any_char s
            (λ s', run (chr "}") s' None
                     (λ s'' cap, Some (take (List.length ("{"%char :: s) - List.length s'')
                                         ("{"%char :: s), cap)))
          = Some (m0, m1)) in Em.
  apply star_result in Em as (s' & Hs' & Hlen).
  rewrite run_chr in Hs'. destruct s' as [|x s'']; [done|].
  case_bool_decide; [|done]. injection Hs' as <- _.
  simpl in Hlen. simpl List.length.
  replace (S (List.length s) - List.length s'')%nat
    with (S (List.length s - List.length s'')) by lia.
  simpl. eauto.
Qed.

(** [parsedData] is always an object. *)
Lemma parsedData_object (content : string) :
  ∃ fields, parsedData_of content = JObj fields.
Proof.
  unfold parsedData_of.
  destruct (str_match jsonRegex content) as [[block group]|] eqn:E; [|by exists []].
  destruct (parse block) as [v|] eqn:Ep; [|by exists []].
  apply jsonRegex_block in E as [rest Hrest].
  by eapply parse_brace_object.
Qed.

Lemma get_opt_normal (v : JsValue) (k : string) : ∃ x, get_opt v k = Normal x.
Proof. destruct v; simpl; eauto. Qed.

Lemma competitor_mention_throws (comp : JsValue) :
  (∃ e, competitor_mention comp = Throw e) ↔ is_nullish comp.
Proof.
  unfold is_nullish, competitor_mention.
  destruct comp; simpl; split;
    try (intros [? H]; discriminate); try (intros [H|H]; discriminate); eauto.
Qed.

Lemma map_completion_throws {A B} (f : A → completion B) (l : list A) :
  (∃ e, map_completion f l = Throw e) ↔ ∃ x, x ∈ l ∧ ∃ e, f x = Throw e.
Proof.
  induction l as [|a l IH]; simpl.
  - split; [intros [e H]; discriminate | intros (x & Hx & _); by apply elem_of_nil in Hx].
  - destruct (f a) as [b|e] eqn:Ea; simpl.
    + destruct (map_completion f l) as [bs|e]; simpl.
      * split; [intros [e H]; discriminate|].
        intros (x & [->|Hx]%elem_of_cons & [e He]); [congruence|].
        destruct (proj2 IH) as [e' He']; [eauto | discriminate].
      * split; [|eauto]. intros _.
        destruct (proj1 IH) as (x & Hx & He); [eauto|].
        exists x. split; [by right | done].
    + split; [|eauto]. intros _. exists a. split; [left | eauto].
Qed.

(** [parseBrandAnalysis] throws exactly when the parsed object has an
    array [competitors] with an element that is [null]. *)
Lemma parseBrandAnalysis_throws_iff (content keyword brandName : string) :
  (∃ e, parseBrandAnalysis content keyword brandName = Throw e)
  ↔ ∃ fields items item,
      parsedData_of content = JObj fields
      ∧ field (units "competitors") fields = JArr items
      ∧ item ∈ items ∧ is_nullish item.
Proof.
  destruct (parsedData_object content) as [fields Hdata].
  unfold parseBrandAnalysis. rewrite Hdata. cbn [get bind].
  destruct (get_opt_normal (field (units "targetBrand") fields) "mentioned") as [x1 ->].
  destruct (get_opt_normal (field (units "targetBrand") fields) "position") as [x2 ->].
  destruct (get_opt_normal (field (units "targetBrand") fields) "context") as [x3 ->].
  cbn [bind].
  destruct (field (units "competitors") fields) as [ | |b| |m e0|s|items|fs] eqn:Ec;
    cbn [isArray]; rewrite ?andb_false_r; cbn [bind];
    try (split; [intros [? H]; discriminate
                | intros (fs' & items & item & [= <-] & Hf & _); congruence]).
  cbn [truthy isArray items_of andb].
  split.
  - intros [e H].
    destruct (map_completion competitor_mention items) as [cs|e'] eqn:Em;
      [discriminate|].
    destruct (proj1 (map_completion_throws competitor_mention items))
      as (item & Hin & Hthrow); [eauto|].
    apply competitor_mention_throws in Hthrow.
    by exists fields, items, item.
  - intros (fs & items' & item & [= <-] & Hf & Hin & Hnull).
    rewrite Ec in Hf. injection Hf as <-.
    destruct (proj2 (map_completion_throws competitor_mention items)) as [e He].
    { exists item. split; [done|]. by apply competitor_mention_throws. }
    rewrite He. simpl. eauto.
Qed.

(** C4. [parseBrandAnalysis] is to return a result for every response
    text; on the response [{"competitors":[null]}] the block parses, the
    element [null] of [competitors] reaches [comp.name] outside the [try],
    and the function throws a TypeError (which [analyzeBrandMention]
    reports as a failed analysis). *)
Theorem parseBrandAnalysis_null_competitor :
  parse Examples.null_competitor_response
    = Some (JObj [(units "competitors", JArr [JNull])])
  ∧ parseBrandAnalysis Examples.null_competitor_response "running shoes" "Acme"
    = Throw TypeError
  ∧ analyzeBrandMention (Completion (Some Examples.null_competitor_response))
      "running shoes" "Acme"
    = Throw failed.
Proof. repeat split; reflexivity. Qed.

End ParserCompletions.

Section JsonBlock.
Import Js Regex OpenAI.

Lemma star_any_complete {R} (k : list ascii → option R) (s : list ascii) :
  (∃ pre s', s = pre ++ s' ∧ is_Some (k s')) → is_Some (star any_char s k).
Proof.
  induction s as [|c s IH]; intros (pre & s' & Hs & Hk); simpl.
  - destruct pre, s'; try done.
  - destruct (star any_char s k) eqn:E; [done|].
    destruct pre as [|x pre]; simpl in Hs; [by subst s'|].
    injection Hs as -> ->.
    destruct IH as [r Hr]; [by exists pre, s' | congruence].
Qed.

Lemma star_any_sound {R} (k : list ascii → option R) (s : list ascii) r :
  star any_char s k = Some r → ∃ pre s', s = pre ++ s' ∧ k s' = Some r.
Proof.
  induction s as [|c s IH]; simpl.
  - intros H. by exists [], [].
  - destruct (star any_char s k) as [r'|] eqn:E.
    + intros [= ->]. destruct (IH eq_refl) as (pre & s' & -> & Hk).
      by exists (c :: pre), s'.
    + intros H. by exists [], (c :: s).
Qed.

Lemma match_here_jsonRegex (s : list ascii) :
  is_Some (match_here jsonRegex s) ↔ ∃ b c, s = "{"%char :: b ++ "}"%char :: c.
Proof.
  unfold match_here, jsonRegex.
  change (run (Seq ?a ?b) ?x ?cap ?k)
    with (run a x cap (λ s' cap', run b s' cap' k)).
  rewrite run_chr. destruct s as [|x s].
  { split; [by intros [? ?] | by intros (b & c & ?)]. }
  case_bool_decide as Hx.
  - subst x.
    change (is_Some (star any_char s
              (λ s', run (chr "}") s' None
                 (λ s'' cap, Some (take (List.length ("{"%char :: s) - List.length s'')
                                     ("{"%char :: s), cap))))
            ↔ ∃ b c, "{"%char :: s = "{"%char :: b ++ "}"%char :: c).
    split.
    + intros [r (pre & s' & -> & Hk)%star_any_sound].
      rewrite run_chr in Hk. destruct s' as [|y s'']; [done|].
      case_bool_decide; [subst y|done]. by exists pre, s''.
    + intros (b & c & [= ->]). apply star_any_complete.
      exists b, ("}"%char :: c). split; [done|]. by rewrite run_chr.
  - split; [by intros [? ?] | intros (b & c & [= -> _]); done].
Qed.

Lemma search_jsonRegex (s : list ascii) :
  is_Some (search jsonRegex s) ↔ ∃ a b c, s = a ++ "{"%char :: b ++ "}"%char :: c.
Proof.
  induction s as [|x s IH].
  - simpl. split; [by intros [? ?]|]. intros (a & b & c & H). by destruct a.
  - cbn [search].
    destruct (match_here jsonRegex (x :: s)) as [m|] eqn:E.
    + split; [intros _ | done].
      destruct (proj1 (match_here_jsonRegex (x :: s))) as (b & c & ->); [by rewrite E|].
      by exists [], b, c.
    + rewrite IH. split.
      * intros (a & b & c & ->). by exists (x :: a), b, c.
      * intros ([|y a] & b & c & H); simpl in H.
        -- assert (is_Some (match_here jsonRegex (x :: s))) as [? ?]; [|congruence].
           apply match_here_jsonRegex. rewrite H. eauto.
        -- injection H as -> ->. eauto.
Qed.

(** [content.match(jsonRegex)] is null exactly when no part of [content]
    starts with an opening brace and ends with a closing one. *)
Lemma jsonRegex_no_match (content : string) :
  str_match jsonRegex content = None
  ↔ ¬ ∃ a b c, chars content = a ++ "{"%char :: b ++ "}"%char :: c.
Proof.
  rewrite <- search_jsonRegex. unfold str_match.
  destruct (search jsonRegex (chars content)) as [[m0 m1]|].
  - split; [done|]. intros H. destruct H. eauto.
  - split; [|done]. intros _ [? ?]. done.
Qed.

End JsonBlock.

Section RateLimiterExamples.
Import Validation.

(** When the clock goes back the limiter has forgotten time stamps it
    dropped earlier: the third call is accepted although two accepted
    calls are later than its window start. *)
Example limiter_clock_goes_back :
  (run 2 10 ∅ [("u", 100); ("u", 200); ("u", 95)]).1 = [true; true; true].
Proof. reflexivity. Qed.

(** Two calls exactly [windowMs] apart are both accepted. *)
Example limiter_window_is_half_open :
  (run 1 1000 ∅ [("u", 0); ("u", 1000)]).1 = [true; true].
Proof. reflexivity. Qed.

End RateLimiterExamples.

Section AccountTables.
Import Sql Rls SqlAccounts.

(** X1. The limits written into the profile of a new user are the ones
    [get_plan_limits] gives for the plan 'trial' the profile starts on. *)
Theorem signup_limits_match_plan (now : timestamptz) (NEW : auth_users) :
  get_plan_limits (Some (plan_text (plan (handle_new_user now NEW)))) !! "projects"
    = Some (projects_limit (handle_new_user now NEW))
  ∧ get_plan_limits (Some (plan_text (plan (handle_new_user now NEW)))) !! "keywords"
    = Some (keywords_limit (handle_new_user now NEW))
  ∧ get_plan_limits (Some (plan_text (plan (handle_new_user now NEW)))) !! "reports"
    = Some (reports_limit (handle_new_user now NEW)).
Proof. repeat split; reflexivity. Qed.

Lemma sql_eq_true_iff {A} `{EqDecision A} (a b : option A) :
  is_true (sql_eq a b) = true ↔ ∃ x, a = Some x ∧ b = Some x.
Proof.
  destruct a as [x|], b as [y|]; simpl;
    try (split; [discriminate | by intros (? & ? & ?)]).
  case_bool_decide; split; try done.
  - intros _. subst. eauto.
  - by intros (? & [= <-] & [= <-]).
Qed.

(** X4. On [profiles] a signed-in user may select, insert and update
    exactly the rows whose id is the user's own, and nobody may delete a
    profile. *)
Theorem profiles_only_own (db : database) (uid : option uuid) (op : operation profiles) :
  permitted db uid profiles_policies op = true
  ↔ is_delete op = false ∧ ∀ r, r ∈ rows_of op → uid = Some (id r).
Proof.
  assert (Hexp : ∀ r, is_true (sql_eq uid (Some (id r))) = true ↔ uid = Some (id r)).
  { intros r. rewrite sql_eq_true_iff. split; [by intros (x & -> & [= ->]) | eauto]. }
  destruct op as [r|r|o n|r]; simpl;
    unfold select_using, insert_check, update_using, update_check, delete_using;
    simpl; rewrite ?orb_false_r, ?andb_true_iff, ?Hexp.
  - split; [intros H; split; [done|]; by intros ? ->%list_elem_of_singleton|].
    intros [_ H]. apply H. by left.
  - split; [intros H; split; [done|]; by intros ? ->%list_elem_of_singleton|].
    intros [_ H]. apply H. by left.
  - split.
    + intros [Ho Hn]. split; [done|].
      intros r [->| ->%list_elem_of_singleton]%elem_of_cons; done.
    + intros [_ H]. split; apply H; [by left | right; by left].
  - split; [done | by intros [? _]].
Qed.

(** X5. On [subscribers] a caller may select, insert and update exactly
    the rows that carry the caller's user id or the caller's e-mail
    address: a row with another user's id is within reach of whoever has
    the same e-mail address.  Nobody may delete a subscriber row. *)
Theorem subscribers_own_or_same_email (db : database) (uid : option uuid)
    (email : option string) (op : operation subscribers) :
  permitted db uid (subscribers_policies email) op = true
  ↔ is_delete op = false
    ∧ ∀ r, r ∈ rows_of op → uid = Some (s_user_id r) ∨ email = Some (s_email r).
Proof.
  assert (Hexp : ∀ r, is_true (own_subscription email db uid r) = true
                      ↔ uid = Some (s_user_id r) ∨ email = Some (s_email r)).
  { intros r. unfold own_subscription.
    destruct uid as [u|], email as [e|]; simpl;
      repeat case_bool_decide; simpl; split; try done;
      try (intros _; by (left + right); f_equal);
      intros [[= ?]|[= ?]]; done. }
  destruct op as [r|r|o n|r]; simpl;
    unfold select_using, insert_check, update_using, update_check, delete_using;
    simpl; rewrite ?orb_false_r, ?andb_true_iff, ?Hexp.
  - split; [intros H; split; [done|]; by intros ? ->%list_elem_of_singleton|].
    intros [_ H]. apply H. by left.
  - split; [intros H; split; [done|]; by intros ? ->%list_elem_of_singleton|].
    intros [_ H]. apply H. by left.
  - split.
    + intros [Ho Hn]. split; [done|].
      intros r [->| ->%list_elem_of_singleton]%elem_of_cons; done.
    + intros [_ H]. split; apply H; [by left | right; by left].
  - split; [done | by intros [? _]].
Qed.

End AccountTables.

Section MigrationScripts.
Import Sql Migrations.


End MigrationScripts.

Section TenantTables.
Import Sql Rls SqlAccounts.

Lemma own_project_policy (uid : option uuid) (p : projects) :
  is_true (sql_eq uid (Some (p_user_id p))) = true ↔ Some (p_user_id p) = uid.
Proof. rewrite sql_eq_true_iff. split; [by intros (x & -> & [= ->]) | intros <-; eauto]. Qed.

Lemma own_report_policy (uid : option uuid) (r : reports) :
  is_true (sql_eq uid (Some (r_user_id r))) = true ↔ Some (r_user_id r) = uid.
Proof. rewrite sql_eq_true_iff. split; [by intros (x & -> & [= ->]) | intros <-; eauto]. Qed.

Lemma own_keyword_policy (db : database) (u : uuid) (k : keywords) :
  is_true (exists_own_project db (Some u) (k_project_id k)) = true
  ↔ own_keyword db k = Some u.
Proof.
  unfold exists_own_project, own_keyword.
  destruct (projects_tbl db !! k_project_id k) as [p|]; simpl; [|done].
  case_bool_decide; simpl; split; try done; [by intros _; f_equal | by intros [= ?]].
Qed.

Lemma own_api_response_policy (db : database) (u : uuid) (a : api_responses) :
  is_true (exists_own_report db (Some u) (a_report_id a)) = true
  ↔ own_api_response db a = Some u.
Proof.
  unfold exists_own_report, own_api_response.
  destruct (reports_tbl db !! a_report_id a) as [r|]; simpl; [|done].
  case_bool_decide; simpl; split; try done; [by intros _; f_equal | by intros [= ?]].
Qed.

Lemma forall_one {A} (P : A → Prop) (x : A) : (∀ o, o ∈ [x] → P o) ↔ P x.
Proof.
  split; [intros H; apply H; by left | by intros H o ->%list_elem_of_singleton].
Qed.

Lemma forall_two {A} (P : A → Prop) (x y : A) : (∀ o, o ∈ [x; y] → P o) ↔ P x ∧ P y.
Proof.
  split.
  - intros H. split; apply H; [by left | right; by left].
  - intros [Hx Hy] o [->| ->%list_elem_of_singleton]%elem_of_cons; done.
Qed.

Lemma forall_fmap {A B} (f : A → B) (P : B → Prop) (l : list A) :
  (∀ o, o ∈ f <$> l → P o) ↔ ∀ r, r ∈ l → P (f r).
Proof.
  split.
  - intros H r Hr. apply H. by apply list_elem_of_fmap_2.
  - intros H o (r & -> & Hr)%list_elem_of_fmap. by apply H.
Qed.

(** X6. The policies of projects, keywords, reports and api_responses
    permit a statement of a signed-in user exactly when the table has a
    policy for the command and every row read or written belongs to that
    user: owners can select, insert, update and delete their projects and
    keywords, select, insert and update their reports, select and insert
    their api_responses; nobody can delete a report or update or delete an
    api_responses row. *)
Theorem rls_permits_iff_own (db : database) (u : uuid) (st : statement) :
  rls_permits db (Some u) st = true
  ↔ has_policy st = true ∧ ∀ o, o ∈ owners db st → o = Some u.
Proof.
  unfold owners.
  destruct st as [op|op|op|op]; destruct op as [r|r|o n|r];
    rewrite forall_fmap; cbn [rows_of]; rewrite ?forall_one, ?forall_two;
    unfold rls_permits, permitted, select_using, insert_check, update_using,
      update_check, delete_using, projects_policies, keywords_policies,
      reports_policies, api_responses_policies;
    cbn [existsb default has_policy is_delete negb];
    rewrite ?orb_false_l, ?orb_false_r, ?andb_true_iff,
      ?own_project_policy, ?own_report_policy,
      ?own_keyword_policy, ?own_api_response_policy;
    unfold own_project, own_report;
    first [tauto | split; [done | by intros [? _]] | split; by intros [? _]].
Qed.

(** X7. A caller who is not signed in ([auth.uid()] is NULL) is permitted
    no statement at all on projects, keywords, reports, api_responses and
    profiles. *)
Theorem rls_denies_anonymous (db : database) :
  (∀ st, rls_permits db None st = false)
  ∧ (∀ op : operation profiles, permitted db None profiles_policies op = false).
Proof.
  split.
  - intros st.
    destruct st as [op|op|op|op]; destruct op as [r|r|o n|r]; simpl; try done;
      unfold select_using, insert_check, update_using, update_check, delete_using,
        exists_own_project, exists_own_report; simpl;
      repeat case_match; done.
  - intros op. destruct op; done.
Qed.

End TenantTables.

Section PlanLimitsFetched.
Import PlanLimitsHook TrialStatusHook.

Lemma limit_of_fetched (plan : string) (prev : PlanLimits) (type : UsageKey) :
  limit_of (fetchPlanLimits (Some plan) rpc_get_plan_limits prev) type
  = Sql.get_plan_limits (Some plan) !! key_name type.
Proof. by destruct type. Qed.

(** X8. After the limits of a plan have been fetched, whatever the plan
    and the limits held before, a limit is reached exactly when
    [get_plan_limits] has a value for that key, the value is not -1 and the
    usage is at least the value.  So nothing is ever reached on a plan
    [get_plan_limits] does not know, the competitors limit of gold is never
    reached, and that of trial is reached at any usage from 0 on. *)
Theorem fetched_limit_reached (plan : string) (prev : PlanLimits) (usage : Usage)
    (type : UsageKey) :
  (checkLimitReached (fetchPlanLimits (Some plan) rpc_get_plan_limits prev) usage type
     = true
   ↔ ∃ limit, Sql.get_plan_limits (Some plan) !! key_name type = Some limit
              ∧ limit ≠ -1 ∧ limit ≤ usage_of usage type)
  ∧ (plan ≠ "trial" → plan ≠ "basic" → plan ≠ "gold" →
     checkLimitReached (fetchPlanLimits (Some plan) rpc_get_plan_limits prev) usage type
       = false)
  ∧ checkLimitReached (fetchPlanLimits (Some "gold") rpc_get_plan_limits prev)
      usage competitors = false
  ∧ (0 ≤ u_competitors usage →
     checkLimitReached (fetchPlanLimits (Some "trial") rpc_get_plan_limits prev)
       usage competitors = true).
Proof.
  assert (Hiff : ∀ plan, checkLimitReached
            (fetchPlanLimits (Some plan) rpc_get_plan_limits prev) usage type = true
          ↔ ∃ limit, Sql.get_plan_limits (Some plan) !! key_name type = Some limit
                     ∧ limit ≠ -1 ∧ limit ≤ usage_of usage type).
  { intros pl. rewrite checkLimitReached_iff, limit_of_fetched.
    split; intros (l & ? & ? & ?); exists l; (split; [done|]); split; [done|lia|done|lia]. }
  split; [apply Hiff|]. split; [|split].
  - intros Ht Hb Hg.
    destruct (checkLimitReached _ usage type) eqn:E; [|done].
    apply Hiff in E as (l & Hl & _).
    unfold Sql.get_plan_limits in Hl. simpl in Hl.
    rewrite !bool_decide_eq_false_2 in Hl by congruence. done.
  - reflexivity.
  - intros Hu. unfold checkLimitReached. simpl. by apply Z.leb_le.
Qed.

Lemma fetched_limit_reached_witness :
  checkLimitReached (fetchPlanLimits (Some "platinum") rpc_get_plan_limits initial_limits)
    {| u_projects := 1000; u_keywords := 0; u_reports := 0; u_competitors := 0 |}
    projects = false.
Proof.
  apply (fetched_limit_reached "platinum" initial_limits
           {| u_projects := 1000; u_keywords := 0; u_reports := 0; u_competitors := 0 |}
           projects); discriminate.
Defined.

(** X9. When there is no profile, or the remote call fails, the limits
    stay as they were; starting from the initial state (all limits 0) every
    limit then counts as reached at any usage from 0 on. *)
Theorem unfetched_limits_are_reached (rpc : string → option Sql.jsonb)
    (profile_plan : option string) (usage : Usage) (type : UsageKey) :
  profile_plan = None ∨ (∃ plan, profile_plan = Some plan ∧ rpc plan = None) →
  (∀ prev t, limit_of (fetchPlanLimits profile_plan rpc prev) t = limit_of prev t)
  ∧ (checkLimitReached (fetchPlanLimits profile_plan rpc initial_limits) usage type = true
     ↔ 0 ≤ usage_of usage type).
Proof.
  intros H.
  assert (Hsame : ∀ prev, fetchPlanLimits profile_plan rpc prev = stop_loading prev).
  { intros prev. destruct H as [->|(plan & -> & Hrpc)]; simpl; [done | by rewrite Hrpc]. }
  split.
  - intros prev t. rewrite Hsame. by destruct t.
  - rewrite Hsame, checkLimitReached_iff.
    split.
    + intros (l & Hl & _ & Hu). destruct type; simpl in Hl; injection Hl as <-; lia.
    + intros Hu. exists 0. destruct type; simpl in *; repeat split; try done; lia.
Qed.

Lemma unfetched_limits_are_reached_witness :
  checkLimitReached (fetchPlanLimits (Some "gold") (λ _, None) initial_limits)
    {| u_projects := 0; u_keywords := 0; u_reports := 0; u_competitors := 0 |}
    reports = true.
Proof.
  apply (unfetched_limits_are_reached (λ _, None) (Some "gold")
           {| u_projects := 0; u_keywords := 0; u_reports := 0; u_competitors := 0 |}
           reports).
  - right. by exists "gold".
  - simpl. lia.
Defined.

Lemma getUsagePercentage_full_iff (usage limit : Z) :
  0 ≤ usage → 0 ≤ limit → 0 < usage + limit →
  in_percent_range (getUsagePercentage usage limit)
  ∧ (is_full (getUsagePercentage usage limit) ↔ limit ≤ usage)
  ∧ ((strict_neq (Some limit) (-1) && js_ge usage (Some limit)) = true ↔ limit ≤ usage).
Proof.
  intros Hu Hl Hpos.
  assert (Hcheck : (strict_neq (Some limit) (-1) && js_ge usage (Some limit)) = true
                   ↔ limit ≤ usage).
  { simpl. rewrite andb_true_iff, negb_true_iff, Z.eqb_neq, Z.leb_le. split; [tauto|].
    intros ?. split; [lia | done]. }
  unfold getUsagePercentage.
  destruct (limit =? -1) eqn:E; [apply Z.eqb_eq in E; lia|].
  unfold js_div. destruct (limit =? 0) eqn:E0.
  - apply Z.eqb_eq in E0. subst limit.
    destruct (usage =? 0) eqn:Eu; [apply Z.eqb_eq in Eu; lia|].
    destruct (0 <? usage) eqn:Ep; [|apply Z.ltb_ge in Ep; lia].
    simpl. split; [split; discriminate|]. split; [|exact Hcheck].
    split; [lia | reflexivity].
  - apply Z.eqb_neq in E0. simpl.
    set (q := (inject_Z usage / inject_Z limit * 100)%Q).
    assert (Hq0 : (0 <= q)%Q).
    { unfold q. apply Qmult_le_0_compat; [|discriminate].
      apply Qle_shift_div_l; [change 0%Q with (inject_Z 0); rewrite <- Zlt_Qlt; lia|].
      rewrite Qmult_0_l. change 0%Q with (inject_Z 0). rewrite <- Zle_Qle. lia. }
    assert (Hlpos : (0 < inject_Z limit)%Q).
    { change 0%Q with (inject_Z 0). rewrite <- Zlt_Qlt. lia. }
    assert (Hge : limit ≤ usage → (100 <= q)%Q).
    { intros Hle. unfold q.
      assert (H1 : (1 <= inject_Z usage / inject_Z limit)%Q).
      { apply Qle_shift_div_l; [done|]. rewrite Qmult_1_l. by rewrite <- Zle_Qle. }
      apply (Qle_trans _ (1 * 100)); [discriminate|].
      apply Qmult_le_compat_r; [done | discriminate]. }
    assert (Hlt : usage < limit → (q < 100)%Q).
    { intros Hlt. unfold q.
      assert (H1 : (inject_Z usage / inject_Z limit < 1)%Q).
      { apply Qlt_shift_div_r; [done|]. rewrite Qmult_1_l. by rewrite <- Zlt_Qlt. }
      apply (Qlt_le_trans _ (1 * 100)); [|discriminate].
      apply Qmult_lt_compat_r; [reflexivity | done]. }
    assert (Hq : (100 <= q)%Q ↔ limit ≤ usage).
    { split; [|done]. intros H100.
      destruct (Z_lt_le_dec usage limit) as [Hc|Hc]; [|done].
      apply Hlt in Hc. exfalso. by apply (Qlt_not_le _ _ Hc). }
    destruct (Qle_bool q 100) eqn:Hle; simpl.
    + apply Qle_bool_iff in Hle.
      split; [by split|]. split; [|exact Hcheck]. split.
      * intros Heq. apply Hq. rewrite Heq. apply Qle_refl.
      * intros Hlu. apply Qle_antisym; [done | by apply Hq].
    + assert (Hgt : ¬ (q <= 100)%Q).
      { intros Hc. apply Qle_bool_iff in Hc. congruence. }
      split; [split; discriminate|]. split; [|exact Hcheck]. split.
      * intros _. apply Hq. apply Qnot_le_lt in Hgt. by apply Qlt_le_weak.
      * reflexivity.
Qed.

(** X10. For a usage that is not negative and a limit that is positive,
    or zero with a positive usage, [getUsagePercentage] is a value of
    [0, 100], and it is 100 exactly when [checkLimitReached] says the limit
    is reached. *)
Theorem usage_bar_full_iff_reached (limits : PlanLimits) (usage : Usage)
    (type : UsageKey) (limit : Z) :
  limit_of limits type = Some limit →
  0 ≤ usage_of usage type → 0 ≤ limit → 0 < usage_of usage type + limit →
  in_percent_range (getUsagePercentage (usage_of usage type) limit)
  ∧ (is_full (getUsagePercentage (usage_of usage type) limit)
     ↔ checkLimitReached limits usage type = true).
Proof.
  intros Hlimit Hu Hl Hpos.
  destruct (getUsagePercentage_full_iff _ _ Hu Hl Hpos) as (Hr & Hfull & Hcheck).
  split; [exact Hr|]. rewrite Hfull. unfold checkLimitReached. by rewrite Hlimit, Hcheck.
Qed.

Lemma usage_bar_full_iff_reached_witness :
  in_percent_range (getUsagePercentage 3 0)
  ∧ (is_full (getUsagePercentage 3 0)
     ↔ checkLimitReached
         (fetchPlanLimits (Some "trial") rpc_get_plan_limits initial_limits)
         {| u_projects := 0; u_keywords := 0; u_reports := 0; u_competitors := 3 |}
         competitors = true).
Proof.
  apply (usage_bar_full_iff_reached
           (fetchPlanLimits (Some "trial") rpc_get_plan_limits initial_limits)
           {| u_projects := 0; u_keywords := 0; u_reports := 0; u_competitors := 3 |}
           competitors 0); [reflexivity | simpl; lia ..].
Defined.

End PlanLimitsFetched.

Section TrialDays.
Import TrialStatusHook.

Lemma ceil_div_spec (a b : Z) :
  0 < b → (ceil_div a b - 1) * b < a ≤ ceil_div a b * b.
Proof. intros Hb. unfold ceil_div. Z.div_mod_to_equations. nia. Qed.

(** X11. For a signed-in user on the trial plan whose expiry check came
    back, [daysRemaining] is never negative; it is 0 when the check says
    expired, when the profile has no trial end, and when the trial end is
    not after the client's clock; otherwise it is the least number of whole
    days that covers the time left.  The status carries the answer of the
    check and the trial end, and is no longer loading. *)
Theorem checkTrialStatus_days (profile : ClientProfile) (data : option bool)
    (now : Z) (prev : TrialStatus) :
  cp_plan profile = "trial" →
  let status := checkTrialStatus (Some profile) true (RpcData data) now prev in
  isTrialExpired status = data
  ∧ trialEndsAt status = cp_trial_ends_at profile
  ∧ ts_isLoading status = false
  ∧ 0 ≤ daysRemaining status
  ∧ (data = Some true ∨ cp_trial_ends_at profile = None → daysRemaining status = 0)
  ∧ (∀ ends, cp_trial_ends_at profile = Some ends → ends ≤ now →
       daysRemaining status = 0)
  ∧ (∀ ends, cp_trial_ends_at profile = Some ends → data ≠ Some true → now < ends →
       (daysRemaining status - 1) * (1000 * 3600 * 24) < ends - now
         ≤ daysRemaining status * (1000 * 3600 * 24)).
Proof.
  intros Hplan. unfold checkTrialStatus.
  rewrite Hplan, bool_decide_eq_true_2 by done.
  cbn [negb isTrialExpired trialEndsAt ts_isLoading daysRemaining].
  split_and!; try done.
  - destruct (cp_trial_ends_at profile), data as [[]|]; lia.
  - intros [-> | ->]; [by destruct (cp_trial_ends_at profile) | done].
  - intros ends -> Hle.
    pose proof (ceil_div_spec (ends - now) (1000 * 3600 * 24) eq_refl).
    destruct data as [[]|]; lia.
  - intros ends -> Hd Hlt.
    pose proof (ceil_div_spec (ends - now) (1000 * 3600 * 24) eq_refl).
    destruct data as [[]|]; try done; lia.
Qed.

Lemma checkTrialStatus_days_witness :
  daysRemaining
    (checkTrialStatus (Some {| cp_plan := "trial"; cp_trial_ends_at := Some 86400001 |})
       true (RpcData (Some false)) 0 initial_status) = 2.
Proof.
  destruct (checkTrialStatus_days
              {| cp_plan := "trial"; cp_trial_ends_at := Some 86400001 |}
              (Some false) 0 initial_status eq_refl) as (_ & _ & _ & _ & _ & _ & H).
  specialize (H 86400001 eq_refl ltac:(discriminate) ltac:(lia)). lia.
Defined.

End TrialDays.

Section SanitiseMore.
Import Js Validation.

Lemma drop_while_suffix (p : ascii → bool) (l : list ascii) :
  ∃ a, l = a ++ drop_while p l ∧ Forall (λ c, p c = true) a.
Proof.
  induction l as [|c l (a & Hl & Ha)]; simpl.
  - by exists [].
  - destruct (p c) eqn:E.
    + exists (c :: a). split; [by rewrite Hl at 1 | by constructor].
    + by exists [].
Qed.

Lemma drop_while_head (p : ascii → bool) (l : list ascii) c rest :
  drop_while p l = c :: rest → p c = false.
Proof.
  induction l as [|x l IH]; simpl; [done|].
  destruct (p x) eqn:E; [done | by intros [= -> _]].
Qed.

(** [trim] removes a run of white space at each end and nothing else, and
    what is left neither starts nor ends with white space. *)
Lemma trim_chars_spec (l : list ascii) :
  ∃ a b, l = a ++ trim_chars l ++ b
    ∧ Forall (λ c, is_space c = true) a ∧ Forall (λ c, is_space c = true) b
    ∧ (∀ c rest, trim_chars l = c :: rest → is_space c = false)
    ∧ (∀ c front, trim_chars l = front ++ [c] → is_space c = false).
Proof.
  unfold trim_chars.
  destruct (drop_while_suffix is_space l) as (a & Hl & Ha).
  destruct (drop_while_suffix is_space (rev (drop_while is_space l))) as (b & Hb & Hbs).
  exists a, (rev b). split_and!.
  - rewrite Hl at 1. f_equal.
    rewrite <- (rev_involutive (drop_while is_space l)) at 1.
    rewrite Hb at 1. by rewrite rev_app_distr.
  - done.
  - apply Forall_forall. intros c Hc. rewrite Forall_forall in Hbs. apply Hbs.
    apply list_elem_of_In. apply list_elem_of_In in Hc. by apply in_rev.
  - intros c rest Hc.
    destruct (drop_while is_space l) as [|x m] eqn:Em; [done|].
    pose proof (drop_while_head _ _ _ _ Em) as Hx.
    assert (Hm : x :: m = rev (b ++ drop_while is_space (rev (x :: m)))).
    { by rewrite <- Hb, rev_involutive. }
    rewrite rev_app_distr, Hc in Hm. by injection Hm as <- _.
  - intros c front Hc.
    apply (f_equal (@rev ascii)) in Hc.
    rewrite rev_involutive, rev_app_distr in Hc. simpl in Hc.
    by eapply drop_while_head.
Qed.

Lemma filter_id {A} (f : A → bool) (l : list A) :
  (∀ x, x ∈ l → f x = true) → List.filter f l = l.
Proof.
  induction l as [|x l IH]; intros H; simpl; [done|].
  rewrite H by left. f_equal. apply IH. intros y Hy. apply H. by right.
Qed.

Lemma of_chars_chars (s : string) : of_chars (chars s) = s.
Proof. apply string_of_list_ascii_of_string. Qed.

(** X12. [sanitizeInput] deletes a run of white space at each end of the
    input and every angle bracket of what is between, and keeps every other
    character in its place: the input is [a ++ middle ++ b] with [a] and
    [b] white space, [middle] neither starting nor ending with white space,
    and the output is [middle] without its angle brackets. *)
Theorem sanitizeInput_deletes_only (input : string) :
  ∃ a middle b,
    chars input = a ++ middle ++ b
    ∧ Forall (λ c, is_space c = true) a ∧ Forall (λ c, is_space c = true) b
    ∧ (∀ c rest, middle = c :: rest → is_space c = false)
    ∧ (∀ c front, middle = front ++ [c] → is_space c = false)
    ∧ chars (sanitizeInput input)
      = List.filter (λ c, negb (angle_bracket c)) middle.
Proof.
  destruct (trim_chars_spec (chars input)) as (a & b & Hl & Ha & Hb & Hhead & Hlast).
  exists a, (trim_chars (chars input)), b. split_and!; try done.
  unfold sanitizeInput, remove_class, trim. by rewrite !chars_of_chars.
Qed.

Lemma trim_chars_fixed (l : list ascii) :
  (∀ c rest, l = c :: rest → is_space c = false) →
  (∀ c front, l = front ++ [c] → is_space c = false) →
  trim_chars l = l.
Proof.
  intros Hhead Hlast. unfold trim_chars.
  assert (H1 : drop_while is_space l = l).
  { destruct l as [|c l]; [done|]. simpl. by rewrite (Hhead c l). }
  rewrite H1.
  assert (H2 : drop_while is_space (rev l) = rev l).
  { destruct l as [|c l] using rev_ind; [done|].
    rewrite rev_app_distr. simpl. by rewrite (Hlast c l). }
  by rewrite H2, rev_involutive.
Qed.

Lemma trim_chars_idem (l : list ascii) : trim_chars (trim_chars l) = trim_chars l.
Proof.
  destruct (trim_chars_spec l) as (a & b & _ & _ & _ & Hhead & Hlast).
  by apply trim_chars_fixed.
Qed.

Lemma trim_chars_elem (l : list ascii) c : c ∈ trim_chars l → c ∈ l.
Proof.
  destruct (trim_chars_spec l) as (a & b & Hl & _). intros Hc.
  rewrite Hl. apply elem_of_app. right. apply elem_of_app. by left.
Qed.

(** X13. Sanitising twice can differ from sanitising once (a removed
    bracket may uncover white space at an end), but what two passes give
    is left unchanged by every further pass; and an input without angle
    brackets is only trimmed. *)
Theorem sanitizeInput_settles (input : string) :
  sanitizeInput (sanitizeInput (sanitizeInput input))
    = sanitizeInput (sanitizeInput input)
  ∧ (¬ has_char "<" input → ¬ has_char ">" input → sanitizeInput input = trim input).
Proof.
  assert (Hclean : ∀ s, ¬ has_char "<" s → ¬ has_char ">" s → sanitizeInput s = trim s).
  { intros s Hlt Hgt. unfold sanitizeInput, remove_class.
    rewrite filter_id; [apply of_chars_chars|].
    intros c Hc. unfold trim in Hc. rewrite chars_of_chars in Hc.
    apply trim_chars_elem in Hc. unfold angle_bracket.
    rewrite !bool_decide_eq_false_2; [done | by intros -> ..]. }
  split; [|apply Hclean].
  destruct (sanitizeInput_no_angle input) as [Hlt Hgt].
  rewrite (Hclean (sanitizeInput input)) by done.
  assert (Hlt' : ¬ has_char "<" (trim (sanitizeInput input))).
  { unfold has_char, trim. rewrite chars_of_chars. intros H%trim_chars_elem. by apply Hlt. }
  assert (Hgt' : ¬ has_char ">" (trim (sanitizeInput input))).
  { unfold has_char, trim. rewrite chars_of_chars. intros H%trim_chars_elem. by apply Hgt. }
  rewrite (Hclean _ Hlt' Hgt').
  unfold trim at 1. unfold trim at 1. rewrite chars_of_chars.
  by rewrite trim_chars_idem.
Qed.

Lemma sanitizeInput_settles_witness :
  sanitizeInput " plain text " = trim " plain text "
  ∧ sanitizeInput "< a" ≠ sanitizeInput (sanitizeInput "< a").
Proof.
  split.
  - apply (proj2 (sanitizeInput_settles " plain text "));
      unfold has_char; vm_compute; intros H;
      repeat (apply elem_of_cons in H as [H|H]; [discriminate|]);
      by apply elem_of_nil in H.
  - vm_compute. discriminate.
Defined.

End SanitiseMore.

Section RateLimiterStore.
Import Validation.
Context (maxRequests windowMs : Z).

Local Abbreviation limiter := (createRateLimiter maxRequests windowMs).
Local Abbreviation run := (Validation.run maxRequests windowMs).
Local Abbreviation answered := (Validation.answered maxRequests windowMs).

Lemma limiter_true_room (st : gmap string (list Z)) (key : string) (now : Z) :
  (limiter st key now).1 = true →
  Z.of_nat (List.length
    (List.filter (λ time, now - windowMs <? time) (default [] (st !! key))))
  < maxRequests.
Proof. rewrite limiter_answer, negb_true_iff, Z.leb_gt. lia. Qed.

(** X14. The list of time stamps a fresh limiter keeps for a key never
    grows beyond [maxRequests] entries (none at all when [maxRequests] is
    not positive), whatever calls are made and whatever the clock does. *)
Theorem rate_limiter_store_bounded (calls : list (string * Z)) (key : string) :
  Z.of_nat (List.length (default [] ((run ∅ calls).2 !! key))) ≤ Z.max 0 maxRequests.
Proof.
  induction calls as [|[k now] pre IH] using rev_ind.
  { simpl. rewrite lookup_empty. simpl. lia. }
  rewrite run_snoc_state, limiter_store.
  destruct (decide (key = k)) as [->|]; [|done].
  destruct (limiter (run ∅ pre).2 k now).1 eqn:E; [|done].
  apply limiter_true_room in E. rewrite length_app. simpl. lia.
Qed.

Lemma store_same_key (calls : list (string * Z)) (key : string) :
  default [] ((run ∅ calls).2 !! key)
  = default [] ((run ∅ (List.filter (λ c, bool_decide (c.1 = key)) calls)).2 !! key).
Proof.
  induction calls as [|[k now] pre IH] using rev_ind; [done|].
  rewrite List.filter_app. simpl. case_bool_decide as Hk; simpl in Hk.
  - subst k. rewrite !run_snoc_state, !limiter_store.
    destruct (decide (key = key)); [|done]. by rewrite !limiter_answer, IH.
  - rewrite app_nil_r, run_snoc_state, limiter_store.
    by rewrite decide_False by done.
Qed.

(** X15. Keys do not interfere: within any sequence of calls, the calls of
    one key are answered exactly as if the calls of the other keys had not
    been made. *)
Theorem rate_limiter_keys_independent (calls : list (string * Z)) (key : string) :
  List.filter (λ x : string * Z * bool, bool_decide (x.1.1 = key)) (answered calls)
  = answered (List.filter (λ c, bool_decide (c.1 = key)) calls).
Proof.
  induction calls as [|[k now] pre IH] using rev_ind; [done|].
  rewrite answered_snoc, !List.filter_app. simpl.
  case_bool_decide as Hk; simpl in Hk.
  - subst k. rewrite answered_snoc, IH. do 3 f_equal.
    by rewrite !limiter_answer, <- store_same_key.
  - by rewrite !app_nil_r.
Qed.

Lemma filter_none {A} (f : A → bool) (l : list A) :
  (∀ x, x ∈ l → f x = false) → List.filter f l = [].
Proof.
  induction l as [|x l IH]; intros H; simpl; [done|].
  rewrite H by left. apply IH. intros y Hy. apply H. by right.
Qed.

Lemma store_from_calls (calls : list (string * Z)) (key : string) (t : Z) :
  t ∈ default [] ((run ∅ calls).2 !! key) → (key, t) ∈ calls.
Proof.
  induction calls as [|[k now] pre IH] using rev_ind.
  { simpl. rewrite lookup_empty. simpl. by intros ?%elem_of_nil. }
  rewrite run_snoc_state, limiter_store. intros Ht. apply elem_of_app.
  destruct (decide (key = k)) as [->|]; [|left; by apply IH].
  destruct (limiter (run ∅ pre).2 k now).1; [|left; by apply IH].
  apply elem_of_app in Ht as [Ht|Ht].
  - left. apply IH. apply list_elem_of_In in Ht. apply List.filter_In in Ht as [Ht _].
    by apply list_elem_of_In.
  - apply list_elem_of_singleton in Ht as ->. right. by apply list_elem_of_singleton.
Qed.

(** X16. A limiter that allows at least one request accepts a call whenever
    every earlier call of the same key is at least [windowMs] old, however
    many of them there were and whatever the other keys did; in particular
    the first call of a key is accepted. *)
Theorem rate_limiter_quiet_period (pre : list (string * Z)) (key : string) (now : Z) :
  0 < maxRequests →
  (∀ t, (key, t) ∈ pre → t ≤ now - windowMs) →
  (run ∅ (pre ++ [(key, now)])).1 !! List.length pre = Some true.
Proof.
  intros Hmax Hold.
  assert (Hi : (pre ++ [(key, now)]) !! List.length pre = Some (key, now)).
  { by rewrite lookup_app_r, Nat.sub_diag by lia. }
  destruct (answer_at maxRequests windowMs _ _ _ _ Hi) as [-> _].
  rewrite take_app_length. f_equal.
  rewrite limiter_answer, negb_true_iff, Z.leb_gt.
  rewrite filter_none; [simpl; lia|].
  intros t Ht%store_from_calls. apply Z.ltb_ge. by apply Hold.
Qed.

(** X17. A limiter created with [maxRequests] zero or negative rejects
    every call. *)
Theorem rate_limiter_closed (calls : list (string * Z)) :
  maxRequests ≤ 0 → Forall (λ ok, ok = false) (run ∅ calls).1.
Proof.
  intros Hmax. apply Forall_forall. intros ok [i Hi]%list_elem_of_lookup.
  assert (Hlt : (i < List.length calls)%nat).
  { rewrite <- (run_length maxRequests windowMs ∅). by eapply lookup_lt_Some. }
  destruct (lookup_lt_is_Some_2 _ _ Hlt) as [[key now] Hc].
  destruct (answer_at maxRequests windowMs _ _ _ _ Hc) as [Ha _].
  rewrite Ha in Hi. injection Hi as <-.
  rewrite limiter_answer, negb_false_iff, Z.leb_le. lia.
Qed.

End RateLimiterStore.

Lemma rate_limiter_quiet_period_witness :
  (Validation.run 1 1000 ∅ ([("u", 0); ("v", 500)] ++ [("u", 1000)])).1 !! 2%nat
  = Some true.
Proof.
  apply (rate_limiter_quiet_period 1 1000 [("u", 0); ("v", 500)] "u" 1000).
  - lia.
  - intros t Ht.
    apply elem_of_cons in Ht as [[= ->]|Ht]; [lia|].
    apply elem_of_cons in Ht as [[=]|Ht]. by apply elem_of_nil in Ht.
Defined.

Lemma rate_limiter_closed_witness :
  Forall (λ ok, ok = false) (Validation.run 0 1000 ∅ [("u", 0); ("u", 5000)]).1.
Proof. apply (rate_limiter_closed 0 1000 [("u", 0); ("u", 5000)]). lia. Defined.

Section ProjectDialogSubmit.
Import Js Validation ProjectDialog.

Lemma sanitizeArray_elem (array : list string) (item : string) :
  item ∈ sanitizeArray array ↔
  item ≠ "" ∧ ∃ raw, raw ∈ array ∧ item = sanitizeInput raw.
Proof.
  unfold sanitizeArray. rewrite list_elem_of_In, List.filter_In, List.in_map_iff.
  split.
  - intros [(raw & <- & Hraw) Hlen]. split.
    + intros E. rewrite E in Hlen. discriminate.
    + exists raw. by rewrite list_elem_of_In.
  - intros [Hne (raw & Hraw & ->)]. split.
    + exists raw. by rewrite <- list_elem_of_In.
    + destruct (sanitizeInput raw); [done|]. reflexivity.
Qed.

Lemma string_between_1 (hi : nat) (s : string) :
  string_between 1 hi s = true ↔ s ≠ "" ∧ (Js.length s ≤ hi)%nat.
Proof.
  unfold string_between. rewrite andb_true_iff, !Nat.leb_le.
  destruct s; simpl; split; intros [? ?]; split; try done; lia.
Qed.

(** X18. Whatever [handleSubmit] of the project dialog passes to [onSave]
    is the sanitised form data; its name and brand name are non-empty, at
    most 100 characters and free of angle brackets; a description, when
    present, is at most 500 characters and free of angle brackets; and
    there are at most 20 competitors, each non-empty, at most 100
    characters and free of angle brackets. *)
Theorem handleSubmit_saved_data (formData data : ProjectFormData) :
  handleSubmit formData = Some data →
  data = sanitizedData formData
  ∧ (name data ≠ "" ∧ (Js.length (name data) ≤ 100)%nat ∧ no_angle (name data))
  ∧ (brand_name data ≠ "" ∧ (Js.length (brand_name data) ≤ 100)%nat
     ∧ no_angle (brand_name data))
  ∧ (∀ d, description data = Some d → (Js.length d ≤ 500)%nat ∧ no_angle d)
  ∧ (∀ cs, competitors data = Some cs →
       (List.length cs ≤ 20)%nat
       ∧ ∀ c, c ∈ cs → c ≠ "" ∧ (Js.length c ≤ 100)%nat ∧ no_angle c).
Proof.
  unfold handleSubmit.
  destruct (projectSchema_accepts (sanitizedData formData)) eqn:E; [|done].
  intros [= <-]. unfold projectSchema_accepts in E.
  rewrite !andb_true_iff in E. destruct E as [[[Hn Hd] Hb] Hc].
  apply string_between_1 in Hn as [Hn1 Hn2]. apply string_between_1 in Hb as [Hb1 Hb2].
  split_and!; try done.
  - apply sanitizeInput_no_angle.
  - apply sanitizeInput_no_angle.
  - simpl in *. intros d Hdesc. rewrite Hdesc in Hd. simpl in Hd.
    unfold string_between in Hd. apply andb_true_iff in Hd as [_ Hd%Nat.leb_le].
    split; [done|].
    destruct (description formData) as [[|a r]|]; simpl in Hdesc; try done.
    injection Hdesc as <-. apply sanitizeInput_no_angle.
  - simpl in *. intros cs Hcs. rewrite Hcs in Hc. simpl in Hc.
    apply andb_true_iff in Hc as [Hall Hlen%Nat.leb_le]. split; [done|].
    intros c Hc. rewrite forallb_forall in Hall.
    specialize (Hall c (proj1 (list_elem_of_In _ _) Hc)).
    apply string_between_1 in Hall as [Hc1 Hc2]. split_and!; try done.
    destruct (competitors formData) as [raw|]; [|done]. injection Hcs as <-.
    apply sanitizeArray_elem in Hc as [_ (r & _ & ->)]. apply sanitizeInput_no_angle.
Qed.

(** X19. [handleSubmit] saves (rather than showing the validation toast)
    exactly when the sanitised name and brand name have 1 to 100
    characters, the sanitised description, if one was typed, has at most
    500, and at most 20 competitors remain after sanitising, each of at
    most 100 characters. Competitor entries that sanitise to the empty
    string are dropped and never cause a rejection. *)
Theorem handleSubmit_saves_iff (formData : ProjectFormData) :
  is_Some (handleSubmit formData) ↔
    (sanitizeInput (name formData) ≠ ""
     ∧ (Js.length (sanitizeInput (name formData)) ≤ 100)%nat)
    ∧ (sanitizeInput (brand_name formData) ≠ ""
       ∧ (Js.length (sanitizeInput (brand_name formData)) ≤ 100)%nat)
    ∧ (∀ d, description formData = Some d → d ≠ "" →
         (Js.length (sanitizeInput d) ≤ 500)%nat)
    ∧ (∀ cs, competitors formData = Some cs →
         (List.length (sanitizeArray cs) ≤ 20)%nat
         ∧ ∀ raw, raw ∈ cs → (Js.length (sanitizeInput raw) ≤ 100)%nat).
Proof.
  unfold handleSubmit.
  assert (Hiff : projectSchema_accepts (sanitizedData formData) = true ↔
    (sanitizeInput (name formData) ≠ ""
     ∧ (Js.length (sanitizeInput (name formData)) ≤ 100)%nat)
    ∧ (sanitizeInput (brand_name formData) ≠ ""
       ∧ (Js.length (sanitizeInput (brand_name formData)) ≤ 100)%nat)
    ∧ (∀ d, description formData = Some d → d ≠ "" →
         (Js.length (sanitizeInput d) ≤ 500)%nat)
    ∧ (∀ cs, competitors formData = Some cs →
         (List.length (sanitizeArray cs) ≤ 20)%nat
         ∧ ∀ raw, raw ∈ cs → (Js.length (sanitizeInput raw) ≤ 100)%nat)).
  { unfold projectSchema_accepts, sanitizedData. simpl.
    rewrite !andb_true_iff, !string_between_1.
    assert (Hd : from_option (string_between 0 500) true
                   (if_nonempty sanitizeInput (description formData)) = true
                 ↔ ∀ d, description formData = Some d → d ≠ "" →
                     (Js.length (sanitizeInput d) ≤ 500)%nat).
    { destruct (description formData) as [[|a r]|]; simpl.
      - split; [by intros _ d [= <-] ?|done].
      - unfold string_between. simpl. rewrite Nat.leb_le. split.
        + by intros H d [= <-] _.
        + intros H. by apply H.
      - split; [by intros _ d [=]|done]. }
    assert (Hc : from_option
                   (λ cs, forallb (string_between 1 100) cs
                          && (List.length cs <=? 20)%nat)
                   true (sanitizeArray <$> competitors formData) = true
                 ↔ ∀ cs, competitors formData = Some cs →
                     (List.length (sanitizeArray cs) ≤ 20)%nat
                     ∧ ∀ raw, raw ∈ cs → (Js.length (sanitizeInput raw) ≤ 100)%nat).
    { destruct (competitors formData) as [cs|]; simpl.
      - rewrite andb_true_iff, Nat.leb_le, forallb_forall. split.
        + intros [Hall Hlen] ? [= <-]. split; [done|]. intros raw Hraw.
          destruct (decide (sanitizeInput raw = "")) as [->|Hne]; [simpl; lia|].
          assert (Hin : sanitizeInput raw ∈ sanitizeArray cs).
          { apply sanitizeArray_elem. split; [done|]. by exists raw. }
          apply list_elem_of_In, Hall, string_between_1 in Hin. tauto.
        + intros H. destruct (H cs eq_refl) as [Hlen Hall]. split; [|done].
          intros c Hc%list_elem_of_In. apply string_between_1.
          apply sanitizeArray_elem in Hc as [Hne (raw & Hraw & ->)]. split; [done|].
          by apply Hall.
      - split; [by intros _ cs [=]|done]. }
    rewrite Hd, Hc. tauto. }
  rewrite <- Hiff.
  destruct (projectSchema_accepts (sanitizedData formData)); split; done.
Qed.

End ProjectDialogSubmit.

Lemma handleSubmit_saved_data_witness :
  ProjectDialog.name ProjectDialogExamples.saved ≠ ""
  ∧ ProjectDialog.competitors ProjectDialogExamples.saved = Some ["Acme"].
Proof.
  destruct (handleSubmit_saved_data ProjectDialogExamples.typed
              ProjectDialogExamples.saved eq_refl) as (_ & (Hname & _) & _).
  split; [exact Hname | reflexivity].
Defined.

Section AnalysisOutcomes.
Import Js Json Regex OpenAI.

Lemma content_default (c : option string) :
  match c with Some (String a r) => String a r | _ => "" end = default "" c.
Proof. by destruct c as [[|a r]|]. Qed.

(** X20. [analyzeBrandMention] returns a result exactly when the request
    completed and no element of a [competitors] array in the answer is
    [null] or [undefined]; in every other case it throws. The result then
    carries the answer text (the empty string when the answer has none) as
    [rawResponse], beside what [parseBrandAnalysis] makes of that text. *)
Theorem analyzeBrandMention_outcomes (outcome : FetchOutcome)
    (keyword brandName : string) :
  (∀ r, analyzeBrandMention outcome keyword brandName = Normal r ↔
       ∃ c, outcome = Completion c
         ∧ rawResponse r = default "" c
         ∧ parseBrandAnalysis (default "" c) keyword brandName = Normal (analysis r))
  ∧ ((∃ r, analyzeBrandMention outcome keyword brandName = Normal r) ↔
       ∃ c, outcome = Completion c
         ∧ ¬ ∃ fields items item,
               parsedData_of (default "" c) = JObj fields
               ∧ field (units "competitors") fields = JArr items
               ∧ item ∈ items ∧ is_nullish item).
Proof.
  assert (Hr : ∀ r, analyzeBrandMention outcome keyword brandName = Normal r ↔
       ∃ c, outcome = Completion c
         ∧ rawResponse r = default "" c
         ∧ parseBrandAnalysis (default "" c) keyword brandName = Normal (analysis r)).
  { intros r. destruct outcome as [| | |c]; simpl;
      try (split; [discriminate | by intros (c & [=] & _)]).
    rewrite content_default.
    destruct (parseBrandAnalysis (default "" c) keyword brandName) as [a|e] eqn:E.
    - split.
      + intros [= <-]. by exists c.
      + intros (c' & [= <-] & Hraw & Ha). destruct r as [a' raw]. simpl in *.
        rewrite E in Ha. injection Ha as <-. by rewrite Hraw.
    - split; [discriminate|]. intros (c' & [= <-] & _ & Ha).
      rewrite E in Ha. discriminate. }
  split_and!.
  - exact Hr.
  - split.
    + intros [r (c & -> & Hraw & Ha)%Hr]. exists c. split; [done|].
      rewrite <- parseBrandAnalysis_throws_iff. intros [e He].
      rewrite He in Ha. discriminate.
    + intros (c & -> & Hnot). rewrite <- parseBrandAnalysis_throws_iff in Hnot.
      destruct (parseBrandAnalysis (default "" c) keyword brandName) as [a|e] eqn:E.
      * exists {| analysis := a; rawResponse := default "" c |}.
        apply Hr. by exists c.
      * destruct Hnot. by exists e.
Qed.

End AnalysisOutcomes.

Section GreedyBlock.
Import Js Json Regex OpenAI.

Lemma star_any_longest {R} (k : list ascii → option R) (s : list ascii) r :
  star any_char s k = Some r →
  ∃ pre s', s = pre ++ s' ∧ k s' = Some r
    ∧ ∀ pre2 s2, s = pre2 ++ s2 → (List.length pre < List.length pre2)%nat →
        k s2 = None.
Proof.
  induction s as [|c s IH]; simpl.
  - intros H. exists [], []. split_and!; [done..|].
    intros [|x pre2] s2 Hs Hlen; simpl in *; [lia | done].
  - destruct (star any_char s k) as [r'|] eqn:E.
    + intros [= ->]. destruct (IH eq_refl) as (pre & s' & -> & Hk & Hmax).
      exists (c :: pre), s'. split_and!; [done..|].
      intros [|x pre2] s2 Hs Hlen; simpl in *; [lia|].
      injection Hs as -> Hs. apply (Hmax pre2 s2 Hs). lia.
    + intros H. exists [], (c :: s). split_and!; [done..|].
      intros [|x pre2] s2 Hs Hlen; simpl in *; [lia|].
      injection Hs as -> Hs.
      destruct (k s2) as [r2|] eqn:E2; [|done].
      destruct (star_any_complete k s) as [r3 Hr3]; [|congruence].
      exists pre2, s2. by rewrite E2.
Qed.

Lemma take_all_but {A} (x y : list A) :
  take (List.length (x ++ y) - List.length y) (x ++ y) = x.
Proof. by rewrite length_app, Nat.add_sub, take_app_length. Qed.

Lemma match_here_jsonRegex_block (s : list ascii) m :
  match_here jsonRegex s = Some m →
  ∃ b c, s = "{"%char :: b ++ "}"%char :: c ∧ ("}"%char ∉ c)
    ∧ m = ("{"%char :: b ++ ["}"%char], None).
Proof.
  unfold match_here, jsonRegex.
  change (run (Seq ?a ?b) ?x ?cap ?k)
    with (run a x cap (λ s' cap', run b s' cap' k)).
  rewrite run_chr. destruct s as [|x s]; [done|].
  case_bool_decide as Hx; [subst x|done].
  change (star any_char s
            (λ s', run (chr "}") s' None
               (λ s'' cap, Some (take (List.length ("{"%char :: s) - List.length s'')
                                   ("{"%char :: s), cap))) = Some m
          → ∃ b c, "{"%char :: s = "{"%char :: b ++ "}"%char :: c ∧ ("}"%char ∉ c)
              ∧ m = ("{"%char :: b ++ ["}"%char], None)).
  intros (pre & s' & -> & Hk & Hmax)%star_any_longest.
  rewrite run_chr in Hk. destruct s' as [|y s'']; [done|].
  case_bool_decide; [subst y|done]. injection Hk as <-.
  exists pre, s''. split_and!; [done| |].
  - intros (x & y & ->)%list_elem_of_split.
    specialize (Hmax (pre ++ "}"%char :: x) ("}"%char :: y)).
    rewrite run_chr in Hmax. rewrite bool_decide_eq_true_2 in Hmax by done.
    discriminate Hmax.
    + by rewrite <- app_assoc.
    + rewrite length_app. simpl. lia.
  - f_equal.
    assert (Heq : "{"%char :: pre ++ "}"%char :: s''
                  = ("{"%char :: pre ++ ["}"%char]) ++ s'')
      by (simpl; by rewrite <- app_assoc).
    change (S (List.length (pre ++ "}"%char :: s'')))
      with (List.length ("{"%char :: pre ++ "}"%char :: s'')).
    rewrite Heq. apply take_all_but.
Qed.

Lemma search_jsonRegex_block (s : list ascii) m :
  search jsonRegex s = Some m →
  ∃ a b c, s = a ++ "{"%char :: b ++ "}"%char :: c
    ∧ ("{"%char ∉ a) ∧ ("}"%char ∉ c)
    ∧ m = ("{"%char :: b ++ ["}"%char], None).
Proof.
  induction s as [|x s IH].
  - simpl. done.
  - cbn [search]. destruct (match_here jsonRegex (x :: s)) as [m'|] eqn:E.
    + intros [= <-]. apply match_here_jsonRegex_block in E as (b & c & Hs & Hc & Hm).
      exists [], b, c. split_and!; try done. apply not_elem_of_nil.
    + intros (a & b & c & -> & Ha & Hc & Hm)%IH.
      exists (x :: a), b, c. split_and!; try done.
      intros [<-|Hin]%elem_of_cons; [|done].
      assert (is_Some (match_here jsonRegex
                ("{"%char :: a ++ "{"%char :: b ++ "}"%char :: c))) as [? ?];
        [|congruence].
      apply match_here_jsonRegex. exists (a ++ "{"%char :: b), c.
      by rewrite <- app_assoc.
Qed.

Lemma first_brace_unique (a a' x x' : list ascii) (c : ascii) :
  c ∉ a → c ∉ a' → a ++ c :: x = a' ++ c :: x' → a = a' ∧ x = x'.
Proof.
  revert a'. induction a as [|y a IH]; intros [|y' a'] Ha Ha' H; simpl in H.
  - by injection H as ->.
  - injection H as <- _. destruct Ha'. left.
  - injection H as -> _. destruct Ha. left.
  - injection H as -> H. destruct (IH a') as [-> ->]; try done.
    + intros ?. apply Ha. by right.
    + intros ?. apply Ha'. by right.
Qed.

Lemma last_brace_unique (b b' x x' : list ascii) (c : ascii) :
  c ∉ x → c ∉ x' → b ++ c :: x = b' ++ c :: x' → b = b' ∧ x = x'.
Proof.
  intros Hx Hx' H.
  apply (f_equal (@rev ascii)) in H. rewrite !rev_app_distr in H. simpl in H.
  rewrite <- !app_assoc in H. simpl in H.
  apply first_brace_unique in H as [H1 H2].
  - apply (f_equal (@rev ascii)) in H1, H2. by rewrite !rev_involutive in H1, H2.
  - by intros ?%list_elem_of_In%in_rev%list_elem_of_In.
  - by intros ?%list_elem_of_In%in_rev%list_elem_of_In.
Qed.

(** X21. The text [parseBrandAnalysis] hands to [JSON.parse] is the part
    of the answer from its first opening brace through its last closing
    brace: the pattern matches exactly when the answer is [a ++ "{" ++ b ++
    "}" ++ c] with no opening brace in [a] and no closing brace in [c], and
    the match is then ["{" ++ b ++ "}"], with no captured group. *)
Theorem jsonRegex_first_to_last_brace (content block : string)
    (group : option string) :
  str_match jsonRegex content = Some (block, group) ↔
  ∃ a b c, chars content = a ++ "{"%char :: b ++ "}"%char :: c
    ∧ ("{"%char ∉ a) ∧ ("}"%char ∉ c)
    ∧ block = of_chars ("{"%char :: b ++ ["}"%char]) ∧ group = None.
Proof.
  unfold str_match. split.
  - destruct (search jsonRegex (chars content)) as [[m0 m1]|] eqn:E; [|done].
    intros [= <- <-].
    apply search_jsonRegex_block in E as (a & b & c & Hs & Ha & Hc & [= -> ->]).
    by exists a, b, c.
  - intros (a & b & c & Hs & Ha & Hc & -> & ->).
    destruct (proj2 (search_jsonRegex (chars content))) as [m Hm]; [by exists a, b, c|].
    rewrite Hm.
    apply search_jsonRegex_block in Hm as (a' & b' & c' & Hs' & Ha' & Hc' & ->).
    rewrite Hs in Hs'. apply first_brace_unique in Hs' as [-> Hs']; [|done..].
    apply last_brace_unique in Hs' as [-> ->]; done.
Qed.

End GreedyBlock.

Section ContextExcerpt.
Import Js Json Regex OpenAI.

Lemma trim_chars_length (l : list ascii) :
  (List.length (trim_chars l) ≤ List.length l)%nat.
Proof.
  destruct (trim_chars_spec l) as (a & b & Hl & _).
  rewrite Hl at 2. rewrite !length_app. lia.
Qed.

Lemma length_of_chars (l : list ascii) : Js.length (of_chars l) = List.length l.
Proof. induction l as [|c l IH]; simpl; [done | by f_equal]. Qed.

(** X22. The context [extractContext] gives is the empty string when the
    brand name does not occur in the answer (letter case apart); in every
    case it is a contiguous piece of the answer of at most 300 characters
    that neither starts nor ends with white space. *)
Theorem extractContext_excerpt (content brandName : string) :
  (includes (toLowerCase content) (toLowerCase brandName) = false →
     extractContext content brandName = "")
  ∧ (Js.length (extractContext content brandName) ≤ 300)%nat
  ∧ (∃ a b, chars content = a ++ chars (extractContext content brandName) ++ b)
  ∧ (∀ c rest, chars (extractContext content brandName) = c :: rest →
       is_space c = false)
  ∧ (∀ c front, chars (extractContext content brandName) = front ++ [c] →
       is_space c = false).
Proof.
  unfold extractContext, includes.
  destruct (indexOf (toLowerCase content) (toLowerCase brandName)) as [i|] eqn:E.
  - unfold trim, substring. rewrite !chars_of_chars.
    set (piece := take _ (drop _ (chars content))).
    destruct (trim_chars_spec piece) as (a & b & Hp & _ & _ & Hhead & Hlast).
    split_and!; try done.
    + rewrite length_of_chars.
      etransitivity; [apply trim_chars_length|].
      unfold piece. rewrite length_take. lia.
    + exists (take (Nat.max 0 (i - 100)) (chars content) ++ a),
             (b ++ drop (Nat.min (Js.length content) (i + 200) - Nat.max 0 (i - 100))
                     (drop (Nat.max 0 (i - 100)) (chars content))).
      transitivity (take (Nat.max 0 (i - 100)) (chars content) ++ piece
                    ++ drop (Nat.min (Js.length content) (i + 200) - Nat.max 0 (i - 100))
                         (drop (Nat.max 0 (i - 100)) (chars content))).
      { unfold piece. by rewrite !take_drop. }
      rewrite Hp at 1. by rewrite <- !app_assoc.
  - split_and!; try done.
    + simpl. lia.
    + exists [], (chars content). done.
    + intros c front H. by destruct front.
Qed.

End ContextExcerpt.

Section SampleSeries.
Import Historical.

Lemma Qmax_Qmin_unit (x : Q) : (0 <= Qmax 0 (Qmin 1 x) <= 1)%Q.
Proof.
  unfold Qmax, Qmin.
  destruct (Qle_bool 1 x) eqn:E1.
  - destruct (Qle_bool 0 1) eqn:E2; [|done]. split; [done | apply Qle_refl].
  - destruct (Qle_bool 0 x) eqn:E2.
    + split; [by apply Qle_bool_iff|].
      apply Qlt_le_weak, Qnot_le_lt. intros H%Qle_bool_iff. congruence.
    + split; [apply Qle_refl | done].
Qed.

Lemma setDate_plus_forward (tz : TimeZone) (current : Z) :
  current < setDate_plus tz current 1.
Proof.
  pose proof (day_forward tz current) as H.
  unfold setDate_plus. by rewrite Z.mul_1_l.
Qed.

Lemma sample_loop_points tz sin random startDate endDate comp index (n : nat) :
  ∀ current draws,
    (Z.to_nat (endDate - current + 1) ≤ n)%nat →
    Forall (λ p, 1 ≤ position p ∧ 0 ≤ mentions p
                 ∧ (0 <= sentiment p <= 1)%Q ∧ competitor p = comp
                 ∧ current / msPerDay ≤ date p ≤ endDate / msPerDay)
      (sample_loop tz sin random startDate endDate comp index current draws).
Proof.
  induction n as [|n IH]; intros current draws Hn;
    (destruct (Z_le_gt_dec current endDate) as [Hle|Hgt];
     [|rewrite sample_loop_nil by lia; apply Forall_nil_2]); [lia|].
  rewrite sample_loop_cons by done.
  pose proof (setDate_plus_forward tz current) as Hforward.
  apply Forall_cons. split.
  - cbn [position mentions sentiment competitor date sample_point].
    split; [lia|]. split; [lia|]. split; [apply Qmax_Qmin_unit|].
    split; [done|]. split; [lia|]. by apply Z.div_le_mono.
  - eapply Forall_impl; [apply IH; lia|].
    intros p (Hp & Hm & Hs & Hc & Hd1 & Hd2).
    split; [done|]. split; [done|]. split; [done|]. split; [done|].
    split; [|done]. etransitivity; [|exact Hd1].
    apply Z.div_le_mono; [done | lia].
Qed.

(** X23. Whatever the time zone and whatever [Math.sin] and [Math.random]
    return, every point of a generated sample series has a position of at
    least 1, a mention count that is not negative, a sentiment between 0
    and 1, the competitor name it was asked for, and a date between the
    start day and the end day. *)
Theorem generateSampleHistoricalData_points (tz : TimeZone) (sin : Q → Q)
    (random : nat → Q) (startDate endDate : Z) (comp : string) (index draws : nat) :
  Forall (λ p, 1 ≤ position p ∧ 0 ≤ mentions p
               ∧ (0 <= sentiment p <= 1)%Q ∧ competitor p = comp
               ∧ startDate / msPerDay ≤ date p ≤ endDate / msPerDay)
    (generateSampleHistoricalData tz sin random startDate endDate comp index draws).
Proof. unfold generateSampleHistoricalData. by eapply sample_loop_points. Qed.

Lemma days_from_to_lookup (first : Z) (count i : nat) :
  (i < count)%nat → days_from_to first count !! i = Some (first + Z.of_nat i).
Proof.
  intros Hi. unfold days_from_to. rewrite list_lookup_fmap, lookup_seq_lt by done.
  done.
Qed.

Lemma days_at_least_7 (timeRange : TimeRange) : 7 ≤ days timeRange.
Proof. destruct timeRange; simpl; lia. Qed.

Lemma position_from_end_last (series : list HistoricalDataPoint) :
  position_from_end series 1 = position <$> last series.
Proof.
  unfold position_from_end. destruct series as [|p series] using rev_ind; [done|].
  rewrite last_snoc, length_app.
  assert (H : (1 <=? List.length series + List.length [p])%nat = true)
    by (apply Nat.leb_le; simpl; lia).
  rewrite H.
  replace (List.length series + List.length [p] - 1)%nat
    with (List.length series) by (simpl; lia).
  by rewrite list_lookup_middle.
Qed.

Lemma trend_entry_spec (name : string) (series : list HistoricalDataPoint) :
  Forall (λ p, 1 ≤ position p) series →
  1 ≤ currentPosition (trend_entry name series)
  ∧ (series = [] → currentPosition (trend_entry name series) = 1)
  ∧ (∀ today, last series = Some today →
       currentPosition (trend_entry name series) = position today)
  ∧ ((List.length series < 8)%nat →
       positionChange (trend_entry name series) = 0
       ∧ trendDirection (trend_entry name series) = stable)
  ∧ (∀ today week_ago,
       last series = Some today →
       (8 ≤ List.length series)%nat →
       series !! (List.length series - 8)%nat = Some week_ago →
       positionChange (trend_entry name series) = position week_ago - position today
       ∧ trendDirection (trend_entry name series)
         = (if position today <? position week_ago then up
            else if position week_ago <? position today then down
            else stable)).
Proof.
  intros Hpos. rewrite Forall_forall in Hpos.
  assert (Hcur : ∀ today, last series = Some today →
            or_else (position_from_end series 1) 1 = position today ∧ 1 ≤ position today).
  { intros today Ht. rewrite position_from_end_last, Ht. simpl.
    assert (1 ≤ position today).
    { apply Hpos. apply last_Some in Ht as [front ->].
      apply elem_of_app. right. by left. }
    split; [|done]. by rewrite (proj2 (Z.eqb_neq _ _)) by lia. }
  unfold trend_entry. cbn [currentPosition positionChange trendDirection].
  split_and!.
  - destruct (last series) as [today|] eqn:Ht.
    + destruct (Hcur today eq_refl) as [-> ?]. done.
    + rewrite position_from_end_last, Ht. done.
  - by intros ->.
  - intros today Ht. by destruct (Hcur today Ht).
  - intros Hlen.
    assert (Hnone : position_from_end series 8 = None).
    { unfold position_from_end. by rewrite (proj2 (Nat.leb_gt _ _)) by lia. }
    rewrite Hnone. cbn [or_else].
    by rewrite Z.sub_diag.
  - intros today week_ago Ht Hlen Hw.
    destruct (Hcur today Ht) as [-> _].
    assert (1 ≤ position week_ago)
      by (eapply Hpos, list_elem_of_lookup_2, Hw).
    assert (Hprev : or_else (position_from_end series 8) (position today)
                    = position week_ago).
    { unfold position_from_end. rewrite (proj2 (Nat.leb_le _ _)) by lia.
      rewrite Hw. simpl. by rewrite (proj2 (Z.eqb_neq _ _)) by lia. }
    rewrite Hprev. split; [done|].
    destruct (Z.ltb_spec 0 (position week_ago - position today));
      destruct (Z.ltb_spec (position today) (position week_ago)); try lia; try done.
    destruct (Z.ltb_spec (position week_ago - position today) 0);
      destruct (Z.ltb_spec (position week_ago) (position today)); try lia; done.
Qed.

(** X24. In every entry [getHistoricalData] returns, [currentPosition] is
    the position of the last point of the series, at least 1 (and 1 for an
    empty series); with fewer than 8 points [positionChange] is 0 and the
    direction [stable]; with 8 or more [positionChange] is the position of
    the eighth point from the end minus that of the last, and the
    direction is [up] when the last position number is the smaller one,
    [down] when it is the larger one, [stable] when they are equal.  In a
    time zone of fixed offset, with clock readings less than 24 hours
    after the first, every series has at least 8 points and the eighth
    from the end is dated exactly seven days before the last. *)
Theorem getHistoricalData_trend (w : World) (projectId : string)
    (keywordId : option string) (timeRange : option TimeRange)
    (competitors : option (list string)) :
  Forall (λ entry,
            1 ≤ currentPosition entry
            ∧ (data entry = [] → currentPosition entry = 1)
            ∧ (∀ today, last (data entry) = Some today →
                 currentPosition entry = position today)
            ∧ ((List.length (data entry) < 8)%nat →
                 positionChange entry = 0 ∧ trendDirection entry = stable)
            ∧ (∀ today week_ago,
                 last (data entry) = Some today →
                 (8 ≤ List.length (data entry))%nat →
                 data entry !! (List.length (data entry) - 8)%nat = Some week_ago →
                 positionChange entry = position week_ago - position today
                 ∧ trendDirection entry
                   = (if position today <? position week_ago then up
                      else if position week_ago <? position today then down
                      else stable)))
    (getHistoricalData w projectId keywordId timeRange competitors)
  ∧ (fixed_offset (zone w) → clock_steady w →
     Forall (λ entry, ∃ today week_ago,
               (8 ≤ List.length (data entry))%nat
               ∧ last (data entry) = Some today
               ∧ data entry !! (List.length (data entry) - 8)%nat = Some week_ago
               ∧ date week_ago = date today - 7)
       (getHistoricalData w projectId keywordId timeRange competitors)).
Proof.
  split.
  - apply Forall_forall. intros entry [i Hi]%list_elem_of_lookup.
    unfold getHistoricalData in Hi.
    apply trend_entries_lookup in Hi as (name & dr & _ & ->).
    cbn [data trend_entry].
    apply trend_entry_spec.
    eapply Forall_impl; [apply (sample_loop_points _ _ _ _ _ _ _ _ _ _ (Nat.le_refl _))|].
    by intros p (? & _).
  - intros Hfixed Hclock. apply Forall_forall.
    intros entry [i Hi]%list_elem_of_lookup.
    pose proof (days_at_least_7 (default range_30d timeRange)) as Hdays.
    pose proof (getHistoricalData_dates w _ _ _ _ i entry Hfixed Hi) as Hdates.
    pose proof (Hclock (S i)) as Hk.
    assert (Hq : (clock w (S i) - clock w 0) / msPerDay = 0)
      by (apply Z.div_small; lia).
    rewrite Hq in Hdates.
    set (series := data entry) in *.
    set (n := Z.to_nat (days (default range_30d timeRange))) in *.
    replace (Z.to_nat (0 + days (default range_30d timeRange) + 1))
      with (S n) in Hdates by lia.
    assert (Hlen : List.length series = S n).
    { rewrite <- (length_fmap date), Hdates. unfold days_from_to.
      by rewrite length_fmap, length_seq. }
    assert (Hn : (7 ≤ n)%nat) by lia.
    destruct (lookup_lt_is_Some_2 series (List.length series - 1)) as [today Ht]; [lia|].
    destruct (lookup_lt_is_Some_2 series (List.length series - 8)) as [week_ago Hw]; [lia|].
    assert (Hdt : date today
                  = (clock w 0 / msPerDay - days (default range_30d timeRange))
                    + Z.of_nat (List.length series - 1)).
    { assert (H : (date <$> series) !! (List.length series - 1)%nat = Some (date today))
        by (by rewrite list_lookup_fmap, Ht).
      rewrite Hdates, days_from_to_lookup in H by lia. by injection H as <-. }
    assert (Hdw : date week_ago
                  = (clock w 0 / msPerDay - days (default range_30d timeRange))
                    + Z.of_nat (List.length series - 8)).
    { assert (H : (date <$> series) !! (List.length series - 8)%nat
                  = Some (date week_ago))
        by (by rewrite list_lookup_fmap, Hw).
      rewrite Hdates, days_from_to_lookup in H by lia. by injection H as <-. }
    exists today, week_ago. split_and!; [lia| |done|lia].
    rewrite last_lookup.
    replace (Init.Nat.pred (List.length series)) with (List.length series - 1)%nat by lia.
    done.
Qed.

Lemma getHistoricalData_trend_witness :
  Forall (λ entry, (8 ≤ List.length (data entry))%nat)
    (getHistoricalData Examples.still_world "p1" None (Some range_7d) None).
Proof.
  assert (Hclock : clock_steady Examples.still_world).
  { intros k. unfold msPerDay. simpl. lia. }
  assert (Hfixed : fixed_offset (zone Examples.still_world)).
  { exists 0. reflexivity. }
  eapply Forall_impl.
  - exact (proj2 (getHistoricalData_trend Examples.still_world "p1" None
                    (Some range_7d) None) Hfixed Hclock).
  - intros entry (today & week_ago & H & _). exact H.
Defined.

End SampleSeries.

Section PositionVelocity.
Import Historical PlanLimitsHook TrendMetrics.

Lemma js_div_nonzero (a b : Z) : b ≠ 0 → js_div a b = Fin (inject_Z a / inject_Z b).
Proof. intros Hb. unfold js_div. by rewrite (proj2 (Z.eqb_neq _ _)). Qed.

Lemma sum_positions_foldr (xs : list HistoricalDataPoint) :
  sum_positions xs = foldr Z.add 0 (position <$> xs).
Proof.
  unfold sum_positions.
  assert (H : ∀ acc, fold_left (λ sum d, sum + position d) xs acc
                     = acc + foldr Z.add 0 (position <$> xs)).
  { induction xs as [|x xs IH]; intros acc; [simpl; lia|].
    rewrite fmap_cons. cbn [fold_left foldr]. rewrite IH. lia. }
  rewrite H. lia.
Qed.

Lemma slices_of_series (front older recent : list HistoricalDataPoint) :
  List.length recent = 7%nat →
  (List.length older = 7 ∨ front = [] ∧ List.length older ≤ 7)%nat →
  slice_recent (front ++ older ++ recent) = recent
  ∧ slice_older (front ++ older ++ recent) = older.
Proof.
  intros Hr Ho. unfold slice_recent, slice_older. rewrite !length_app, Hr. split.
  - rewrite app_assoc.
    replace (List.length front + (List.length older + 7) - 7)%nat
      with (List.length (front ++ older)) by (rewrite length_app; lia).
    by rewrite drop_app_length.
  - destruct Ho as [Ho|[-> Ho]].
    + replace (List.length front + (List.length older + 7) - 14)%nat
        with (List.length front) by lia.
      rewrite drop_app_length.
      replace (List.length front + (List.length older + 7) - 7 - List.length front)%nat
        with (List.length older) by lia.
      by rewrite take_app_length.
    + simpl.
      replace (List.length older + 7 - 14)%nat with 0%nat by lia.
      rewrite drop_0.
      replace (List.length older + 7 - 7 - 0)%nat with (List.length older) by lia.
      by rewrite take_app_length.
Qed.

(** X25. [calculatePositionVelocity] is 0 for a series of fewer than two
    points and NaN for a series of two to seven points, where there is no
    older week to compare with.  For a longer series, whose last seven
    points are [recent] and whose up to seven points just before them are
    [older], it is the average position of [older] minus the average
    position of [recent], in exact arithmetic. *)
Theorem calculatePositionVelocity_cases (series : list HistoricalDataPoint) :
  ((List.length series < 2)%nat → calculatePositionVelocity series = Fin 0)
  ∧ ((2 ≤ List.length series ≤ 7)%nat → calculatePositionVelocity series = NaN)
  ∧ (∀ front older recent,
       series = front ++ older ++ recent →
       List.length recent = 7%nat →
       (List.length older = 7 ∨ front = [] ∧ 1 ≤ List.length older ≤ 7)%nat →
       calculatePositionVelocity series
       = Fin (inject_Z (foldr Z.add 0 (position <$> older))
                / inject_Z (Z.of_nat (List.length older))
              - inject_Z (foldr Z.add 0 (position <$> recent)) / inject_Z 7)).
Proof.
  unfold calculatePositionVelocity. split_and!.
  - intros Hlen. by rewrite (proj2 (Nat.ltb_lt _ _)).
  - intros Hlen. rewrite (proj2 (Nat.ltb_ge _ _)) by lia.
    assert (Ho : slice_older series = []).
    { apply nil_length_inv. unfold slice_older. rewrite length_take. lia. }
    assert (Hr : List.length (slice_recent series) ≠ 0%nat).
    { unfold slice_recent. rewrite length_drop. lia. }
    rewrite Ho.
    rewrite (js_div_nonzero _ (Z.of_nat (List.length (slice_recent series)))) by lia.
    done.
  - intros front older recent -> Hr Ho.
    destruct (slices_of_series front older recent Hr) as [-> ->].
    { destruct Ho as [?|[? ?]]; [by left | right; split; [done | lia]]. }
    rewrite (proj2 (Nat.ltb_ge _ _)) by (rewrite !length_app; lia).
    assert (List.length older ≠ 0%nat) by (destruct Ho as [?|[? ?]]; lia).
    rewrite Hr, !js_div_nonzero, !sum_positions_foldr by lia. done.
Qed.

Lemma calculatePositionVelocity_cases_witness :
  calculatePositionVelocity
    (replicate 3 {| date := 0; position := 4; mentions := 0; sentiment := 0;
                    competitor := "A" |})
  = NaN.
Proof.
  apply (proj1 (proj2 (calculatePositionVelocity_cases _))). simpl. lia.
Defined.

End PositionVelocity.

Section CompetitorList.
Import Js ProjectDetails CompetitorHandlers.


Lemma filter_other_id (name : string) (l : list string) :
  name ∉ l → List.filter (λ c, negb (bool_decide (c = name))) l = l.
Proof.
  intros Hn. apply filter_id. intros c Hc.
  rewrite bool_decide_eq_false_2; [done|]. by intros ->.
Qed.

Lemma filter_other_absent (name : string) (l : list string) :
  name ∉ List.filter (λ c, negb (bool_decide (c = name))) l.
Proof.
  intros [_ H]%list_elem_of_In%List.filter_In.
  by rewrite bool_decide_eq_true_2 in H.
Qed.

(** X26. Adding a competitor and then removing it again, both updates
    succeeding, leaves the list without any entry of that name: the list
    is back to what it was exactly when the name was not there before.
    [handleAddCompetitor] does not look for duplicates, and
    [handleRemoveCompetitor] removes every occurrence. *)
Theorem add_then_remove_competitor (st : Page) (p : Project) :
  pg_project st = Some p →
  trim (pg_newCompetitor st) ≠ "" →
  pg_competitors
    (handleRemoveCompetitor true (trim (pg_newCompetitor st))
       (handleAddCompetitor true st).1).1
  = List.filter (λ c, negb (bool_decide (c = trim (pg_newCompetitor st))))
      (pg_competitors st)
  ∧ (pg_competitors
       (handleRemoveCompetitor true (trim (pg_newCompetitor st))
          (handleAddCompetitor true st).1).1
     = pg_competitors st
     ↔ trim (pg_newCompetitor st) ∉ pg_competitors st).
Proof.
  intros Hp Hname.
  assert (Heq : pg_competitors
    (handleRemoveCompetitor true (trim (pg_newCompetitor st))
       (handleAddCompetitor true st).1).1
  = List.filter (λ c, negb (bool_decide (c = trim (pg_newCompetitor st))))
      (pg_competitors st)).
  { unfold handleAddCompetitor, handleRemoveCompetitor.
    rewrite Hp, bool_decide_eq_false_2 by done. simpl. rewrite Hp. simpl.
    rewrite List.filter_app. simpl.
    rewrite bool_decide_eq_true_2 by done. simpl. by rewrite app_nil_r. }
  split; [done|]. rewrite Heq. split.
  - intros H Hin. rewrite <- H in Hin. by apply filter_other_absent in Hin.
  - apply filter_other_id.
Qed.

Lemma add_then_remove_competitor_witness :
  pg_competitors
    (handleRemoveCompetitor true "Bolt"
       (handleAddCompetitor true CompetitorExamples.shoes_page).1).1
  = [].
Proof.
  apply (proj1 (add_then_remove_competitor CompetitorExamples.shoes_page
                  Examples.shoes_project eq_refl ltac:(vm_compute; discriminate))).
Defined.





End CompetitorList.

Section ReportOutcome.
Import Json ProjectDetails.

Lemma successes_none (b : Backend) (st : State) (kws : list Keyword) :
  (∀ n kw, ∃ e, analyze b st n kw = Throw e) →
  ∀ n, successes b st n kws = [].
Proof.
  intros Hfail. induction kws as [|kw kws IH]; intros n; simpl; [done|].
  destruct (Hfail n kw) as [e ->]. apply IH.
Qed.

(** X28. When the report row is created and the final update succeeds,
    [handleGenerateReport] ends with the toast "Report Generated" and marks
    the report completed with [totalKeywords] the number of keywords, even
    when the analysis of every keyword failed: the results and the
    api_responses rows are then empty. *)
Theorem handleGenerateReport_all_failed (b : Backend) (st : State)
    (p : Project) (rid : string) :
  project st = Some p →
  keywords st ≠ [] →
  Js.trim (openaiApiKey st) ≠ "" →
  insert_report b (id p) (user_id p) = Some rid →
  update_report b = true →
  (∀ n kw, ∃ e, analyze b st n kw = Throw e) →
  brandTrackingResults (handleGenerateReport b st).1 = []
  ∧ api_response_rows (handleGenerateReport b st).2 = []
  ∧ UpdateReport rid (List.length (keywords st)) [] ∈ (handleGenerateReport b st).2
  ∧ last (handleGenerateReport b st).2 = Some (Toast "Report Generated").
Proof.
  intros Hp Hk Hkey Hins Hupd Hfail. unfold handleGenerateReport.
  rewrite Hp, Hins, Hupd, !bool_decide_eq_false_2 by done.
  pose proof (analyze_each_trace b st rid (keywords st) 0 []) as (_ & Hf & Hr).
  rewrite (successes_none b st (keywords st) Hfail) in Hf, Hr.
  destruct (analyze_each b st rid 0 (keywords st) []) as [results events].
  simpl in *. subst results. split_and!.
  - done.
  - unfold api_response_rows in *. simpl. rewrite omap_app, Hr. done.
  - do 2 right. apply elem_of_app. right. left.
  - rewrite !last_cons. rewrite last_app. simpl. done.
Qed.

Lemma handleGenerateReport_all_failed_witness :
  last (handleGenerateReport ReportExamples.failing_backend
          (Examples.shoes_page "sk-1")).2
  = Some (Toast "Report Generated").
Proof.
  refine (proj2 (proj2 (proj2
    (handleGenerateReport_all_failed ReportExamples.failing_backend
       (Examples.shoes_page "sk-1") Examples.shoes_project "r1"
       eq_refl _ _ eq_refl eq_refl _)))).
  - discriminate.
  - vm_compute. discriminate.
  - intros n kw. exists OpenAI.failed. reflexivity.
Defined.

End ReportOutcome.
